(** * parse_pdf_from_url: a shallow embedding of the extraction pipeline

    The development follows the repository file by file:
    - [Py]            the Python string primitives the sources rely on
                      ([str.split], [str.join], [str.strip], [in]);
    - [Exn]           Python exceptions as a result type, [try]/[except];
    - [Url]           [fix_url] of extract.py / en_extract.py / en_hin_extract.py;
    - [Pdf]           the PDF, page, table and image objects the extractors
                      call into (PyMuPDF, pdf2image, pytesseract);
    - [Pool]          [ThreadPoolExecutor]: [executor.map] and [as_completed];
    - [ParsingText2]  parsingText2.py;
    - [OcrParsingHin] OCR_parsing_hin.py;
    - [PageFaults]    the fault isolation of the two extractors;
    - [Pipeline]      the processing passes of extract.py, en_hin_extract.py
                      and en_extract.py;
    - [Extract]       the two extractors of extract.py behind a pass;
    - [PyFloat]       Python's [float] arithmetic (IEEE 754 binary64);
    - [TrainDevSplit] train_devSplit.py;
    - [GenPairs]      [extract_aligned_pairs] of genPairs.py.

    A Python [str] is a sequence of Unicode code points; it is modelled as a
    list of code points ([N]).  ASCII literals of the sources are written with
    [lit]. *)

From stdpp Require Import base list gmap strings.
From Stdlib Require Import ZArith NArith QArith Qround Qpower Lia Lqa Ascii.
Close Scope Q_scope.

Set Default Proof Using "Type*".

(* ===================================================================== *)
(** * Python string primitives                                            *)
(* ===================================================================== *)
Module Py.

Abbreviation char := N (only parsing).
Abbreviation pystr := (list N) (only parsing).

(** An ASCII literal of the source, code point by code point. *)
Definition lit (s : string) : pystr :=
  map N_of_ascii (String.list_ascii_of_string s).

(** [s.startswith(p)] *)
Fixpoint starts_with (p s : pystr) : bool :=
  match p, s with
  | [], _ => true
  | _ :: _, [] => false
  | c :: p', d :: s' => N.eqb c d && starts_with p' s'
  end.

(** [s.partition(sep)] as an option: the text before the first (leftmost)
    occurrence of [sep] and the text after it, [None] when [sep] does not
    occur ([s.find(sep) == -1]). *)
Fixpoint partition (sep s : pystr) : option (pystr * pystr) :=
  if starts_with sep s then Some ([], skipn (length sep) s)
  else match s with
       | [] => None
       | c :: s' =>
           match partition sep s' with
           | Some (a, b) => Some (c :: a, b)
           | None => None
           end
       end.

(** [sep in s] *)
Definition contains (sep s : pystr) : bool :=
  match partition sep s with Some _ => true | None => false end.

(** [s.split(sep)] for a non-empty [sep]: cut at the leftmost occurrence,
    continue after it.  Every cut consumes at least one character, so
    [length s] rounds are enough ([split_unfold] below). *)
Fixpoint split_fuel (fuel : nat) (sep s : pystr) : list pystr :=
  match fuel with
  | O => [s]
  | S fuel' =>
      match partition sep s with
      | None => [s]
      | Some (a, b) => a :: split_fuel fuel' sep b
      end
  end.

Definition split (sep s : pystr) : list pystr :=
  split_fuel (length s) sep s.

(** [sep.join(parts)] *)
Fixpoint join (sep : pystr) (parts : list pystr) : pystr :=
  match parts with
  | [] => []
  | [p] => p
  | p :: ps => p ++ sep ++ join sep ps
  end.

(** Python's [str.isspace] on one code point ([Py_UNICODE_ISSPACE]); the
    same set is what [\s] matches in a [str] pattern of [re]. *)
Definition is_space (c : char) : bool :=
  ((9 <=? c) && (c <=? 13) || (28 <=? c) && (c <=? 32)
   || (c =? 133) || (c =? 160) || (c =? 5760)
   || (8192 <=? c) && (c <=? 8202)
   || (c =? 8232) || (c =? 8233) || (c =? 8239) || (c =? 8287)
   || (c =? 12288))%N.

Fixpoint lstrip (s : pystr) : pystr :=
  match s with
  | [] => []
  | c :: s' => if is_space c then lstrip s' else s
  end.

Definition rstrip (s : pystr) : pystr := rev (lstrip (rev s)).

(** [s.strip()] *)
Definition strip (s : pystr) : pystr := rstrip (lstrip s).

(** Truthiness of a [str]: non-empty. *)
Definition truthy (s : pystr) : bool :=
  match s with [] => false | _ :: _ => true end.

(** [a == b] on strings. *)
Fixpoint eqb (a b : pystr) : bool :=
  match a, b with
  | [], [] => true
  | c :: a', d :: b' => N.eqb c d && eqb a' b'
  | _, _ => false
  end.

Lemma eqb_eq (a b : pystr) : eqb a b = true <-> a = b.
Proof.
  revert b; induction a as [|c a IH]; intros [|d b]; simpl; try done.
  rewrite andb_true_iff, N.eqb_eq, IH. split; [by intros [-> ->]|by intros [= -> ->]].
Qed.

(** ** Facts about [starts_with], [partition] and [split] *)

Lemma starts_with_app (p s t : pystr) :
  starts_with p s = true -> starts_with p (s ++ t) = true.
Proof.
  revert s; induction p as [|c p IH]; intros [|d s]; simpl; try done.
  intros [-> H]%andb_true_iff. rewrite (IH _ H). by rewrite andb_true_r.
Qed.

Lemma starts_with_self (p t : pystr) : starts_with p (p ++ t) = true.
Proof.
  induction p as [|c p IH]; simpl; [done|]. by rewrite N.eqb_refl, IH.
Qed.

Lemma starts_with_split (p s : pystr) :
  starts_with p s = true -> s = p ++ skipn (length p) s.
Proof.
  revert s; induction p as [|c p IH]; intros [|d s]; simpl; try done.
  intros [Hc H]%andb_true_iff. apply N.eqb_eq in Hc as ->.
  f_equal. by apply IH.
Qed.

Lemma partition_Some (sep s a b : pystr) :
  partition sep s = Some (a, b) -> s = a ++ sep ++ b.
Proof.
  revert a b; induction s as [|c s IH]; intros a b; simpl.
  - destruct (starts_with sep []) eqn:E; [|done].
    intros [= <- <-]. destruct sep; [done|discriminate].
  - destruct (starts_with sep (c :: s)) eqn:E.
    + intros [= <- <-]. simpl. by apply starts_with_split.
    + destruct (partition sep s) as [[a' b']|]; [|done].
      intros [= <- <-]. simpl. f_equal. by apply IH.
Qed.

Lemma partition_shorter (sep s a b : pystr) :
  sep <> [] -> partition sep s = Some (a, b) -> length b < length s.
Proof.
  intros Hsep ->%partition_Some. rewrite !length_app.
  destruct sep; [done|simpl; lia].
Qed.

(** The text before the first occurrence holds no occurrence. *)
Lemma partition_before_None (sep s a b : pystr) :
  sep <> [] -> partition sep s = Some (a, b) -> partition sep a = None.
Proof.
  intros Hsep. revert a b; induction s as [|c s IH]; intros a b; simpl.
  - destruct (starts_with sep []) eqn:E; [|done].
    destruct sep; [done|discriminate].
  - destruct (starts_with sep (c :: s)) eqn:E.
    + intros [= <- <-]. destruct sep; [done|reflexivity].
    + destruct (partition sep s) as [[a' b']|] eqn:Ep; [|done].
      intros [= <- <-]. simpl.
      destruct (starts_with sep (c :: a')) eqn:E'.
      * apply partition_Some in Ep as ->.
        apply (starts_with_app _ _ (sep ++ b')) in E'. simpl in E'. congruence.
      * by rewrite (IH _ _ eq_refl).
Qed.

Lemma split_fuel_enough (sep : pystr) (f1 f2 : nat) (s : pystr) :
  sep <> [] -> length s <= f1 -> length s <= f2 ->
  split_fuel f1 sep s = split_fuel f2 sep s.
Proof.
  intros Hsep. revert f2 s; induction f1 as [|f1 IH]; intros f2 s H1 H2.
  - destruct s; [|simpl in H1; lia].
    destruct f2; simpl; [done|].
    destruct sep; [done|reflexivity].
  - destruct f2 as [|f2].
    + destruct s; [|simpl in H2; lia]. simpl.
      destruct sep; [done|reflexivity].
    + simpl. destruct (partition sep s) as [[a b]|] eqn:E; [|done].
      pose proof (partition_shorter _ _ _ _ Hsep E).
      f_equal. apply IH; lia.
Qed.

(** The loop of [str.split], one round at a time. *)
Lemma split_unfold (sep s : pystr) :
  sep <> [] ->
  split sep s = match partition sep s with
                | None => [s]
                | Some (a, b) => a :: split sep b
                end.
Proof.
  intros Hsep. unfold split. destruct s as [|c s].
  - simpl. destruct sep; [done|reflexivity].
  - change (length (c :: s)) with (S (length s)).
    cbn [split_fuel]. destruct (partition sep (c :: s)) as [[a b]|] eqn:E; [|done].
    f_equal. apply split_fuel_enough; [done| |done].
    apply partition_shorter in E; [simpl in E; lia|done].
Qed.

(** Induction along the rounds of [split]. *)
Lemma split_ind (sep : pystr) (P : pystr -> list pystr -> Prop) :
  sep <> [] ->
  (forall s, partition sep s = None -> P s [s]) ->
  (forall s a b, partition sep s = Some (a, b) ->
                 P b (split sep b) -> P s (a :: split sep b)) ->
  forall s, P s (split sep s).
Proof.
  intros Hsep Hnone Hsome s.
  remember (length s) as n eqn:Hn. revert s Hn.
  induction (lt_wf n) as [n _ IH]. intros s ->.
  rewrite (split_unfold sep s Hsep).
  destruct (partition sep s) as [[a b]|] eqn:E; [|by apply Hnone].
  apply Hsome; [done|]. eapply IH; [|reflexivity].
  by eapply partition_shorter.
Qed.

(** Every character of a piece is a character of the text. *)
Lemma split_pieces_chars (sep s : pystr) :
  sep <> [] ->
  forall piece, piece ∈ split sep s -> forall c, c ∈ piece -> c ∈ s.
Proof.
  intros Hsep. revert s. apply (split_ind sep
    (fun s pieces => forall piece, piece ∈ pieces -> forall c, c ∈ piece -> c ∈ s));
    [done|..].
  - intros s _ piece ->%list_elem_of_singleton c Hc. done.
  - intros s a b ->%partition_Some IH piece Hp c Hc.
    apply elem_of_cons in Hp as [->|Hp]; [set_solver|].
    specialize (IH piece Hp c Hc). set_solver.
Qed.

(** ** One-character separators *)

Lemma partition_char_None (c : char) (s : pystr) :
  c ∉ s -> partition [c] s = None.
Proof.
  induction s as [|d s IH]; intros Hc; [done|].
  cbn [partition starts_with].
  destruct (N.eqb_spec c d) as [->|Hne]; [set_solver|].
  cbn [andb]. rewrite IH; [done|set_solver].
Qed.

Lemma partition_char_app (c : char) (a b : pystr) :
  c ∉ a -> partition [c] (a ++ c :: b) = Some (a, b).
Proof.
  induction a as [|d a IH]; intros Hc.
  - cbn. by rewrite N.eqb_refl.
  - cbn [app partition starts_with].
    destruct (N.eqb_spec c d) as [->|Hne]; [set_solver|].
    cbn [andb]. rewrite IH; [done|set_solver].
Qed.

Lemma partition_char_before (c : char) (s a b : pystr) :
  partition [c] s = Some (a, b) -> c ∉ a.
Proof.
  revert a b; induction s as [|d s IH]; intros a b; [done|].
  cbn [partition starts_with].
  destruct (N.eqb_spec c d) as [->|Hne]; cbn [andb].
  - intros [= <- _]. set_solver.
  - destruct (partition [c] s) as [[a' b']|]; [|done].
    intros [= <- <-]. specialize (IH _ _ eq_refl). set_solver.
Qed.

Lemma partition_char_None_inv (c : char) (s : pystr) :
  partition [c] s = None -> c ∉ s.
Proof.
  induction s as [|d s IH]; [set_solver|].
  cbn [partition starts_with].
  destruct (N.eqb_spec c d) as [->|Hne]; cbn [andb]; [done|].
  destruct (partition [c] s) as [[a b]|]; [done|].
  intros _. specialize (IH eq_refl). set_solver.
Qed.

(** No piece of a split on one character holds that character. *)
Lemma split_char_pieces (c : char) (s : pystr) :
  Forall (fun piece => c ∉ piece) (split [c] s).
Proof.
  revert s.
  apply (split_ind [c] (fun _ pieces => Forall (fun piece => c ∉ piece) pieces));
    [done|..].
  - intros s Hs. apply Forall_singleton. by apply partition_char_None_inv.
  - intros s a b E IH. apply Forall_cons. split; [|done].
    by eapply partition_char_before.
Qed.

(** A text without the separator is its own single piece. *)
Lemma split_char_whole (c : char) (s : pystr) :
  c ∉ s -> split [c] s = [s].
Proof.
  intros Hc. rewrite split_unfold by done. by rewrite partition_char_None.
Qed.

(** Splitting what [join] built from pieces free of the separator's first
    character, when the rest [r] of the separator is free of it too. *)
Lemma split_char_join (c : char) (r : pystr) (us : list pystr) (pre : pystr) :
  c ∉ r -> c ∉ pre -> Forall (fun u => c ∉ u) us ->
  split [c] (pre ++ join (c :: r) us)
  = match us with
    | [] => [pre]
    | u :: rest => (pre ++ u) :: map (app r) rest
    end.
Proof.
  intros Hr. revert pre; induction us as [|u us IH]; intros pre Hpre Hus.
  - rewrite app_nil_r. by apply split_char_whole.
  - apply Forall_cons in Hus as [Hu Hus]. destruct us as [|u2 rest].
    + cbn [join map]. apply split_char_whole. set_solver.
    + change (join (c :: r) (u :: u2 :: rest))
        with (u ++ (c :: r) ++ join (c :: r) (u2 :: rest)).
      rewrite app_assoc. cbn [app].
      rewrite split_unfold by done.
      rewrite partition_char_app by set_solver.
      by rewrite (IH r Hr Hus).
Qed.

(** ** Facts about [strip] *)

(** A text made of whitespace only. *)
Definition blank (s : pystr) : bool := forallb is_space s.

(** No whitespace at the front. *)
Definition head_ok (s : pystr) : bool :=
  match s with
  | [] => true
  | c :: _ => negb (is_space c)
  end.

(** No whitespace at either end: what [strip] returns. *)
Definition tight (s : pystr) : bool := head_ok s && head_ok (rev s).

Lemma lstrip_suffix (s : pystr) : exists w, s = w ++ lstrip s /\ blank w = true.
Proof.
  induction s as [|c s (w & Hw & Hb)]; [by exists []|]. simpl.
  destruct (is_space c) eqn:E; [|by exists []].
  exists (c :: w). simpl. rewrite E, Hb. by rewrite <- Hw.
Qed.

Lemma rstrip_prefix (s : pystr) : exists w, s = rstrip s ++ w /\ blank w = true.
Proof.
  unfold rstrip. destruct (lstrip_suffix (rev s)) as (w & Hw & Hb).
  exists (rev w). split.
  - rewrite <- rev_app_distr, <- Hw. by rewrite rev_involutive.
  - unfold blank in *. rewrite forallb_forall in Hb |- *.
    intros c Hc. apply Hb. by apply (proj2 (in_rev w c)).
Qed.

Lemma lstrip_head_ok (s : pystr) : head_ok (lstrip s) = true.
Proof.
  induction s as [|c s IH]; [done|]. simpl.
  destruct (is_space c) eqn:E; [done|]. simpl. by rewrite E.
Qed.

Lemma head_ok_lstrip (s : pystr) : head_ok s = true -> lstrip s = s.
Proof. destruct s as [|c s]; [done|]. simpl. by destruct (is_space c). Qed.

Lemma head_ok_prefix (a w : pystr) : head_ok (a ++ w) = true -> head_ok a = true.
Proof. by destruct a. Qed.

Lemma head_ok_app (a w : pystr) : a <> [] -> head_ok (a ++ w) = head_ok a.
Proof. by destruct a. Qed.

Lemma lstrip_blank (s : pystr) : blank s = true -> lstrip s = [].
Proof.
  induction s as [|c s IH]; [done|]. simpl.
  intros [-> Hs]%andb_true_iff. by apply IH.
Qed.

Lemma lstrip_nil_blank (s : pystr) : lstrip s = [] -> blank s = true.
Proof.
  induction s as [|c s IH]; [done|]. simpl.
  destruct (is_space c); [|done]. intros H. by rewrite IH.
Qed.

Lemma blank_rev (s : pystr) : blank (rev s) = blank s.
Proof.
  unfold blank. apply eq_true_iff_eq. rewrite !forallb_forall.
  split; intros H c Hc; apply H.
  - by apply (proj1 (in_rev s c)).
  - by apply (proj2 (in_rev s c)).
Qed.

Lemma blank_app (a b : pystr) : blank (a ++ b) = blank a && blank b.
Proof. apply forallb_app. Qed.

Lemma strip_blank (s : pystr) : blank s = true -> strip s = [].
Proof.
  intros H. unfold strip, rstrip. by rewrite (lstrip_blank s H).
Qed.

Lemma strip_nil_blank (s : pystr) : strip s = [] -> blank s = true.
Proof.
  unfold strip, rstrip. intros H.
  destruct (lstrip_suffix s) as (w & Hw & Hb).
  assert (blank (lstrip s) = true) as Hl.
  { rewrite <- blank_rev. apply lstrip_nil_blank.
    rewrite <- (rev_involutive (lstrip (rev (lstrip s)))). by rewrite H. }
  rewrite Hw, blank_app. by rewrite Hb, Hl.
Qed.

Lemma strip_tight (s : pystr) : tight (strip s) = true.
Proof.
  unfold tight. apply andb_true_iff. split.
  - unfold strip. destruct (rstrip_prefix (lstrip s)) as (w & Hw & _).
    apply (head_ok_prefix _ w). rewrite <- Hw. apply lstrip_head_ok.
  - unfold strip, rstrip. rewrite rev_involutive. apply lstrip_head_ok.
Qed.

Lemma tight_strip (s : pystr) : tight s = true -> strip s = s.
Proof.
  intros [H1 H2]%andb_true_iff. unfold strip, rstrip.
  rewrite (head_ok_lstrip s H1), (head_ok_lstrip _ H2).
  apply rev_involutive.
Qed.

Lemma strip_chars (s : pystr) (c : char) : c ∈ strip s -> c ∈ s.
Proof.
  unfold strip. intros Hc.
  destruct (lstrip_suffix s) as (w & Hw & _).
  destruct (rstrip_prefix (lstrip s)) as (w' & Hw' & _).
  rewrite Hw, Hw'. set_solver.
Qed.

(** ** Facts about [join] *)

Lemma join_snoc (sep : pystr) (us : list pystr) (u : pystr) :
  join sep (us ++ [u])
  = match us with
    | [] => u
    | _ :: _ => join sep us ++ sep ++ u
    end.
Proof.
  induction us as [|v us IH]; [done|].
  destruct us as [|v2 us]; [done|].
  change (join sep ((v :: v2 :: us) ++ [u]))
    with (v ++ sep ++ join sep ((v2 :: us) ++ [u])).
  rewrite IH. change (join sep (v :: v2 :: us))
    with (v ++ sep ++ join sep (v2 :: us)).
  by rewrite <- !app_assoc.
Qed.

Lemma join_chars (sep : pystr) (us : list pystr) (c : char) :
  c ∈ join sep us -> c ∈ sep \/ exists u, u ∈ us /\ c ∈ u.
Proof.
  induction us as [|u us IH]; [set_solver|].
  destruct us as [|u2 us].
  - intros Hc. right. exists u. set_solver.
  - change (join sep (u :: u2 :: us)) with (u ++ sep ++ join sep (u2 :: us)).
    rewrite !elem_of_app. intros [Hc|[Hc|Hc]].
    + right. exists u. set_solver.
    + by left.
    + destruct (IH Hc) as [?|(v & Hv & Hcv)]; [by left|].
      right. exists v. set_solver.
Qed.

(** Joining non-empty, tight pieces gives a tight text. *)
Lemma join_tight (sep : pystr) (us : list pystr) :
  Forall (fun u => u <> [] /\ tight u = true) us ->
  tight (join sep us) = true.
Proof.
  intros Hus. destruct us as [|u1 rest]; [done|].
  unfold tight. apply andb_true_iff. split.
  - apply Forall_cons in Hus as [[Hne [Hh _]%andb_true_iff] _].
    destruct rest as [|u2 rest]; [done|].
    change (join sep (u1 :: u2 :: rest))
      with (u1 ++ sep ++ join sep (u2 :: rest)).
    by rewrite head_ok_app.
  - destruct (exists_last (l:=u1 :: rest)) as (us & un & E); [done|].
    rewrite E in Hus |- *.
    apply Forall_app in Hus as [_ [[Hne [_ Hh]%andb_true_iff] _]%Forall_cons].
    rewrite join_snoc. destruct us as [|v us]; [done|].
    rewrite !rev_app_distr, <- app_assoc, head_ok_app; [done|].
    intros Hr. apply Hne. by rewrite <- (rev_involutive un), Hr.
Qed.

(** ** More facts about [split], [join], [strip] and [in] *)

Lemma split_nonempty (sep s : pystr) : sep <> [] -> split sep s <> [].
Proof.
  intros Hsep. rewrite split_unfold by done.
  by destruct (partition sep s) as [[a b]|].
Qed.

Lemma join_cons (sep p : pystr) (ps : list pystr) :
  ps <> [] -> join sep (p :: ps) = p ++ sep ++ join sep ps.
Proof. by destruct ps. Qed.

(** [sep.join(s.split(sep)) == s] *)
Lemma join_split (sep s : pystr) : sep <> [] -> join sep (split sep s) = s.
Proof.
  intros Hsep. revert s.
  apply (split_ind sep (fun s pieces => join sep pieces = s)); [done|done|].
  intros s a b ->%partition_Some IH.
  rewrite join_cons by by apply split_nonempty. by rewrite IH.
Qed.

(** Pieces free of a character, joined by it, split back into the pieces. *)
Lemma split_join_char (c : char) (ls : list pystr) :
  ls <> [] -> Forall (fun l => c ∉ l) ls -> split [c] (join [c] ls) = ls.
Proof.
  intros Hne Hls.
  pose proof (split_char_join c [] ls []) as H. rewrite app_nil_l in H.
  rewrite H; [|by intros ?%elem_of_nil..|done].
  destruct ls as [|l rest]; [done|]. cbn [app]. f_equal.
  clear. induction rest as [|r rest IH]; [done|]. cbn. by rewrite IH.
Qed.

Lemma lstrip_keeps (x p : pystr) :
  p <> [] -> head_ok p = true -> exists x', lstrip (x ++ p) = x' ++ p.
Proof.
  intros Hne Hp. induction x as [|c x [x' IH]].
  - exists []. by apply head_ok_lstrip.
  - cbn [app lstrip]. destruct (is_space c); [by exists x'|by exists (c :: x)].
Qed.

Lemma rstrip_keeps (p y : pystr) :
  p <> [] -> head_ok (rev p) = true -> exists y', rstrip (p ++ y) = p ++ y'.
Proof.
  intros Hne Hp. unfold rstrip. rewrite rev_app_distr.
  destruct (lstrip_keeps (rev y) (rev p)) as [x' ->]; [|done|].
  - intros H. apply Hne. by rewrite <- (rev_involutive p), H.
  - exists (rev x'). by rewrite rev_app_distr, rev_involutive.
Qed.

(** [strip] leaves a text that has no whitespace at its ends where it is,
    whatever stands around it. *)
Lemma strip_keeps (x p y : pystr) :
  p <> [] -> tight p = true ->
  exists x' y', strip (x ++ p ++ y) = x' ++ p ++ y'.
Proof.
  intros Hne [Hh Ht]%andb_true_iff. unfold strip.
  destruct (lstrip_keeps x (p ++ y)) as [x' ->].
  { by destruct p. }
  { by rewrite head_ok_app. }
  rewrite app_assoc.
  destruct (rstrip_keeps (x' ++ p) y) as [y' ->].
  { by destruct x'. }
  { rewrite rev_app_distr, head_ok_app; [done|].
    intros H. apply Hne. by rewrite <- (rev_involutive p), H. }
  exists x', y'. by rewrite <- app_assoc.
Qed.

Lemma contains_start (p s : pystr) :
  starts_with p s = true -> contains p s = true.
Proof. intros H. unfold contains. destruct s; cbn [partition]; by rewrite H. Qed.

Lemma contains_middle (p x y : pystr) : contains p (x ++ p ++ y) = true.
Proof.
  induction x as [|c x IH].
  - change ([] ++ p ++ y) with (p ++ y). apply contains_start, starts_with_self.
  - unfold contains in *. cbn [app partition].
    destruct (starts_with p (c :: x ++ p ++ y)); [done|].
    by destruct (partition p (x ++ p ++ y)) as [[a b]|].
Qed.

(** Where a character stands for the first time decides how a text splits
    around it. *)
Lemma cut_at_first (c : char) (a b x y : pystr) :
  c ∉ a -> a ++ c :: b = x ++ c :: y ->
  (x = a /\ y = b) \/ exists x', x = a ++ c :: x' /\ b = x' ++ c :: y.
Proof.
  revert x; induction a as [|d a IH]; intros x Hc E.
  - destruct x as [|e x]; cbn in E.
    + injection E as <-. by left.
    + injection E as <- ->. right. by exists x.
  - destruct x as [|e x]; cbn in E.
    + injection E as -> _. set_solver.
    + injection E as <- E. destruct (IH x) as [[-> ->]|(x' & -> & ->)];
        [set_solver|done|by left|].
      right. by exists x'.
Qed.

(** Splitting on a character goes through a separator. *)
Lemma split_char_app (c : char) (a b : pystr) :
  split [c] (a ++ c :: b) = split [c] a ++ split [c] b.
Proof.
  revert a.
  apply (split_ind [c]
           (fun a pieces => split [c] (a ++ c :: b) = pieces ++ split [c] b));
    [done|..].
  - intros a Ha%partition_char_None_inv.
    rewrite split_unfold by done. by rewrite partition_char_app.
  - intros a a1 a2 E IH. pose proof (partition_char_before _ _ _ _ E) as H1.
    apply partition_Some in E as ->. cbn [length skipn app].
    rewrite <- app_assoc. cbn [app].
    rewrite (split_unfold [c] (a1 ++ c :: a2 ++ c :: b)) by done.
    rewrite partition_char_app by done. by rewrite IH.
Qed.

(** The lines of pieces joined by a character are the lines of the pieces. *)
Lemma split_join_pieces (c : char) (ls : list pystr) :
  ls <> [] -> split [c] (join [c] ls) = flat_map (split [c]) ls.
Proof.
  induction ls as [|l ls IH]; [done|]. intros _.
  destruct ls as [|l2 ls]; [cbn; by rewrite app_nil_r|].
  rewrite join_cons by done. cbn [flat_map app].
  change ([c] ++ ?x) with (c :: x).
  by rewrite split_char_app, IH.
Qed.

End Py.

(* ===================================================================== *)
(** * URL normalisation: [fix_url]                                        *)
(*    extract.py:75, en_extract.py:33, en_hin_extract.py:38 (same text)   *)
(* ===================================================================== *)
Module Url.
Import Py.

Definition doWeb : pystr := Eval vm_compute in lit "doWeb".
Definition do_q_Web : pystr := Eval vm_compute in lit "do?Web".

(** <<
    if "doWeb" in url:
        parts = url.split("doWeb")
        if len(parts) > 1:
            url = parts[0] + "do?Web" + parts[1]
    return url
    >> *)
Definition fix_url (url : pystr) : pystr :=
  if contains doWeb url then
    let parts := split doWeb url in
    if (1 <? length parts)%nat
    then nth 0 parts [] ++ do_q_Web ++ nth 1 parts []
    else url
  else url.

(** The piece of [s] up to its first ["doWeb"], all of [s] when there is
    none: what [s.split("doWeb")[0]] is. *)
Definition first_piece (s : pystr) : pystr :=
  match partition doWeb s with
  | None => s
  | Some (a, _) => a
  end.

Lemma doWeb_nonempty : doWeb <> [].
Proof. discriminate. Qed.

Lemma split_head (s : pystr) : nth 0 (split doWeb s) [] = first_piece s.
Proof.
  rewrite (split_unfold doWeb s doWeb_nonempty). unfold first_piece.
  by destruct (partition doWeb s) as [[a b]|].
Qed.

(** What [fix_url] computes, read off the first two cuts. *)
Lemma fix_url_pieces (u : pystr) :
  fix_url u = match partition doWeb u with
              | None => u
              | Some (a, b) => a ++ do_q_Web ++ first_piece b
              end.
Proof.
  unfold fix_url, contains. rewrite (split_unfold doWeb u doWeb_nonempty).
  destruct (partition doWeb u) as [[a b]|]; [|done].
  rewrite (split_unfold doWeb b doWeb_nonempty). unfold first_piece.
  by destruct (partition doWeb b) as [[b1 b2]|].
Qed.

(** ["doWeb"] has no border with a text that starts with [d]: an occurrence
    cannot begin inside [y] and end inside what follows. *)
Lemma starts_with_border (y t : pystr) :
  y <> [] -> starts_with doWeb y = false ->
  starts_with doWeb (y ++ 100%N :: t) = false.
Proof.
  intros Hy H.
  unfold doWeb in *.
  destruct y as [|c1 [|c2 [|c3 [|c4 [|c5 y]]]]]; [done|..];
    cbn [starts_with app] in H |- *;
    repeat match goal with
    | |- context [N.eqb ?a ?b] =>
        destruct (N.eqb_spec a b); subst;
        cbn [starts_with app andb] in H |- *; try done
    end.
Qed.

Lemma partition_app_border (a t : pystr) :
  partition doWeb a = None ->
  partition doWeb (a ++ 100%N :: t) =
    match partition doWeb (100%N :: t) with
    | Some (x, y) => Some (a ++ x, y)
    | None => None
    end.
Proof.
  remember (partition doWeb (100%N :: t)) as r eqn:Hr.
  induction a as [|c a IH]; intros Ha.
  - simpl app. rewrite <- Hr. by destruct r as [[x y]|].
  - cbn [partition] in Ha.
    destruct (starts_with doWeb (c :: a)) eqn:E; [done|].
    destruct (partition doWeb a) as [[a1 a2]|] eqn:Ea; [done|].
    assert (c :: a <> []) as Hne by done.
    change ((c :: a) ++ 100%N :: t) with (c :: (a ++ 100%N :: t)).
    cbn [partition].
    change (c :: (a ++ 100%N :: t)) with ((c :: a) ++ 100%N :: t).
    rewrite (starts_with_border (c :: a) t Hne E), (IH eq_refl).
    by destruct r as [[x y]|].
Qed.

Lemma first_piece_clean (s : pystr) : partition doWeb (first_piece s) = None.
Proof.
  unfold first_piece. destruct (partition doWeb s) as [[a b]|] eqn:E; [|done].
  eapply partition_before_None; [apply doWeb_nonempty|done].
Qed.

(** The replacement text followed by a piece free of ["doWeb"] is free of it. *)
Lemma replacement_clean (p : pystr) :
  partition doWeb p = None -> partition doWeb (do_q_Web ++ p) = None.
Proof.
  intros Hp. cbn. destruct p as [|c p]; [done|].
  cbn in Hp |- *. by rewrite Hp.
Qed.

(** The normalised URL never contains the malformation pattern. *)
Lemma fix_url_clean (u : pystr) :
  contains doWeb u = true -> contains doWeb (fix_url u) = false.
Proof.
  unfold contains at 1. rewrite fix_url_pieces.
  destruct (partition doWeb u) as [[a b]|] eqn:E; [intros _|done].
  unfold contains.
  change (do_q_Web ++ first_piece b)
    with (100%N :: (skipn 1 do_q_Web ++ first_piece b)).
  rewrite partition_app_border
    by (eapply partition_before_None; [apply doWeb_nonempty|done]).
  change (100%N :: (skipn 1 do_q_Web ++ first_piece b))
    with (do_q_Web ++ first_piece b).
  by rewrite (replacement_clean _ (first_piece_clean b)).
Qed.

(** C5. URL normalisation changes nothing when the pattern ["doWeb"] is
    absent, and is idempotent: normalising a normalised URL is a no-op. *)
Theorem fix_url_idempotent (u : pystr) :
  fix_url (fix_url u) = fix_url u /\
  (contains doWeb u = false -> fix_url u = u).
Proof.
  assert (Hno : forall v, contains doWeb v = false -> fix_url v = v).
  { intros v Hv. unfold fix_url. by rewrite Hv. }
  split; [|apply Hno].
  destruct (contains doWeb u) eqn:E.
  - apply Hno. by apply fix_url_clean.
  - by rewrite !(Hno u E).
Qed.

Definition url_malformed : pystr :=
  lit "https://host/elegalix/WebViewAllTranslatedHCJudgment.doWebDownloadOriginalHCJudgmentDocument.do?translatedJudgmentID=17940".

Definition url_plain : pystr :=
  lit "https://host/elegalix/WebDownloadTranslatedSCJudgmentDocument.do?SCJudgmentID=356".

Lemma fix_url_idempotent_witness :
  (fix_url (fix_url url_malformed) = fix_url url_malformed
   /\ fix_url url_malformed <> url_malformed)
  /\ fix_url url_plain = url_plain.
Proof.
  split; [split|].
  - exact (proj1 (fix_url_idempotent url_malformed)).
  - vm_compute. discriminate.
  - apply (proj2 (fix_url_idempotent url_plain)). vm_compute. reflexivity.
Defined.

(** C10. When ["doWeb"] occurs twice or more, only the text before the first
    occurrence and the text strictly between the first and the second
    survive: everything from the second occurrence on is dropped. *)
Theorem fix_url_drops_after_second (a b c : pystr) :
  contains doWeb a = false -> contains doWeb b = false ->
  fix_url (a ++ doWeb ++ b ++ doWeb ++ c) = a ++ do_q_Web ++ b.
Proof.
  unfold contains. intros Ha Hb.
  destruct (partition doWeb a) as [|] eqn:Ea; [done|].
  destruct (partition doWeb b) as [|] eqn:Eb; [done|].
  assert (Hcut : forall x r, partition doWeb x = None ->
            partition doWeb (x ++ doWeb ++ r) = Some (x, r)).
  { intros x r Hx.
    change (doWeb ++ r) with (100%N :: (skipn 1 doWeb ++ r)).
    rewrite (partition_app_border _ _ Hx).
    change (100%N :: (skipn 1 doWeb ++ r)) with (doWeb ++ r).
    cbn. by rewrite app_nil_r. }
  rewrite fix_url_pieces, (Hcut a _ Ea).
  unfold first_piece. by rewrite (Hcut b _ Eb).
Qed.

Definition url_twice_a : pystr := lit "https://host/View.".
Definition url_twice_b : pystr := lit "Download.".
Definition url_twice_c : pystr := lit "Original.do?id=7".

Lemma fix_url_drops_after_second_witness :
  fix_url (url_twice_a ++ doWeb ++ url_twice_b ++ doWeb ++ url_twice_c)
  = lit "https://host/View.do?WebDownload.".
Proof.
  apply (fix_url_drops_after_second url_twice_a url_twice_b url_twice_c);
    vm_compute; reflexivity.
Defined.

(** A text free of ["doWeb"], then ["doWeb"]: the first occurrence is the
    one written. *)
Lemma partition_at_pattern (x r : pystr) :
  partition doWeb x = None -> partition doWeb (x ++ doWeb ++ r) = Some (x, r).
Proof.
  intros Hx.
  change (doWeb ++ r) with (100%N :: (skipn 1 doWeb ++ r)).
  rewrite (partition_app_border _ _ Hx).
  change (100%N :: (skipn 1 doWeb ++ r)) with (doWeb ++ r).
  cbn. by rewrite app_nil_r.
Qed.

(** The URL [fix_url] returns never holds ["doWeb"], and [fix_url] returns
    its argument exactly when the argument does not hold it. *)
Theorem fix_url_removes_pattern (u : pystr) :
  contains doWeb (fix_url u) = false
  /\ (fix_url u = u <-> contains doWeb u = false).
Proof.
  assert (contains doWeb (fix_url u) = false) as Hclean.
  { destruct (contains doWeb u) eqn:E; [by apply fix_url_clean|].
    unfold fix_url. by rewrite E. }
  split; [done|]. split.
  - intros Heq. by rewrite Heq in Hclean.
  - intros E. unfold fix_url. by rewrite E.
Qed.

(** With a single ["doWeb"], [fix_url] puts the question mark in and loses
    nothing: the URL grows by one character. *)
Theorem fix_url_single_occurrence (a b : pystr) :
  contains doWeb a = false -> contains doWeb b = false ->
  fix_url (a ++ doWeb ++ b) = a ++ do_q_Web ++ b
  /\ length (fix_url (a ++ doWeb ++ b)) = S (length (a ++ doWeb ++ b)).
Proof.
  unfold contains. intros Ha Hb.
  destruct (partition doWeb a) as [|] eqn:Ea; [done|].
  destruct (partition doWeb b) as [|] eqn:Eb; [done|].
  assert (fix_url (a ++ doWeb ++ b) = a ++ do_q_Web ++ b) as ->.
  { rewrite fix_url_pieces, (partition_at_pattern a b Ea).
    unfold first_piece. by rewrite Eb. }
  split; [done|]. rewrite !length_app. simpl. lia.
Qed.

Lemma fix_url_single_occurrence_witness :
  fix_url url_malformed
  = lit "https://host/elegalix/WebViewAllTranslatedHCJudgment.do?WebDownloadOriginalHCJudgmentDocument.do?translatedJudgmentID=17940".
Proof.
  refine (eq_trans _ (proj1 (fix_url_single_occurrence
            (lit "https://host/elegalix/WebViewAllTranslatedHCJudgment.")
            (lit "DownloadOriginalHCJudgmentDocument.do?translatedJudgmentID=17940")
            _ _)) ).
  - vm_compute. reflexivity.
  - vm_compute. reflexivity.
  - vm_compute. reflexivity.
Defined.

End Url.

(* ===================================================================== *)
(** * Exceptions                                                          *)
(* ===================================================================== *)
Module Exn.

(** The outcome of a call that may raise.  The sources only log the
    exception they catch, so [Raised] carries no payload. *)
Inductive result (A : Type) : Type :=
| Ok (a : A)
| Raised.
Arguments Ok {A} a.
Arguments Raised {A}.

#[export] Instance result_ret : MRet result := @Ok.
#[export] Instance result_bind : MBind result :=
  fun A B (k : A -> result B) (m : result A) =>
    match m with
    | Ok a => k a
    | Raised => Raised
    end.

(** [try: body  except Exception: handler] *)
Definition try_except {A} (body handler : result A) : result A :=
  match body with
  | Ok a => Ok a
  | Raised => handler
  end.

(** A [for] loop threading its mutable state; an exception leaves the loop. *)
Fixpoint for_each {A S} (xs : list A) (body : S -> A -> result S) (s : S)
  : result S :=
  match xs with
  | [] => Ok s
  | x :: xs' =>
      match body s x with
      | Ok s' => for_each xs' body s'
      | Raised => Raised
      end
  end.

Definition raises {A} (r : result A) : Prop := r = Raised.

Lemma for_each_app {A S} (xs ys : list A) (body : S -> A -> result S) (s : S) :
  for_each (xs ++ ys) body s = for_each xs body s ≫= for_each ys body.
Proof.
  revert s; induction xs as [|x xs IH]; intros s; simpl; [done|].
  destruct (body s x); [apply IH|done].
Qed.

End Exn.

(* ===================================================================== *)
(** * The objects behind the extractors                                   *)
(* ===================================================================== *)
Module Pdf.
Import Py Exn.

(** A table cell as [table.extract()] reports it: a string, or [None]. *)
Definition cell := option pystr.
Definition row := list cell.

(** A PyMuPDF table: [table.extract()] returns its rows or raises. *)
Record table := { extract : result (list row) }.

(** A PyMuPDF page: [page.find_tables()] and [page.get_text("text")]. *)
Record page := {
  find_tables : result (list table);
  get_text : result pystr;
}.

(** A PIL image of one page: [image.save(path)], pytesseract's
    [image_to_string(image, lang)] and the removal of the temporary file. *)
Record image := {
  save : result ();
  image_to_string : pystr -> result pystr;
  remove_tmp : result ();
}.

(** A PyMuPDF document: [doc.page_count], [doc[page_index]] and
    [doc.close()].  Loading a page and closing the document may raise. *)
Record document := {
  page_count : nat;
  load_page : nat -> result page;
  close : result ();
}.

(** What the extractors see of one path: [os.path.isfile], [fitz.open]
    (the document, or an exception) and pdf2image's [convert_from_path], for
    a page range [(first_page, last_page)] or for the whole file. *)
Record pdf_file := {
  isfile : bool;
  fitz_open : result document;
  convert_from_path : option (Z * Z) -> result (list image);
}.

(** The document with the pages [pages], each of which loads, and which
    closes without an error. *)
Definition document_of (pages : list page) : document :=
  {| page_count := length pages;
     load_page := fun page_index =>
       match pages !! page_index with
       | Some p => Ok p
       | None => Raised
       end;
     close := Ok () |}.

(** [pages] are the pages of [doc], and each of them loads. *)
Definition loads (doc : document) (pages : list page) : Prop :=
  length pages = page_count doc
  /\ forall page_index p,
       pages !! page_index = Some p -> load_page doc page_index = Ok p.

Lemma document_of_loads (pages : list page) : loads (document_of pages) pages.
Proof. split; [done|]. intros i p H. cbn. by rewrite H. Qed.

End Pdf.

(* ===================================================================== *)
(** * concurrent.futures.ThreadPoolExecutor                               *)
(* ===================================================================== *)
Module Pool.

(** Task [i] is the call [f xs[i]], submitted in list order.  The workers
    finish the tasks in an order the program does not control: [order], the
    list of task indices by completion time.  A future is a slot that holds
    the task's result once it has completed. *)
Definition run_pool {A B} (f : A -> B) (xs : list A) (order : list nat)
  : list (option B) :=
  fold_left
    (fun slots i =>
       match xs !! i with
       | Some x => <[i := Some (f x)]> slots
       | None => slots
       end)
    order (replicate (length xs) None).

(** [executor.map(f, xs)]: the results are read future by future in
    submission order. *)
Definition executor_map {A B} (f : A -> B) (xs : list A) (order : list nat)
  : list B :=
  omap id (run_pool f xs order).

(** [for future in as_completed(futures): future.result()]: the results are
    read in completion order. *)
Definition as_completed {A B} (f : A -> B) (xs : list A) (order : list nat)
  : list B :=
  let slots := run_pool f xs order in
  omap (fun i => slots !! i ≫= id) order.

(** Every submitted task completes exactly once. *)
Definition complete {A} (xs : list A) (order : list nat) : Prop :=
  Permutation order (seq 0 (length xs)).

Lemma omap_id_Some {A B} (f : A -> B) (l : list A) :
  omap id (map (fun x => Some (f x)) l) = map f l.
Proof. induction l as [|x l IH]; [done|]. cbn. by f_equal. Qed.

Section Facts.
Context {A B : Type} (f : A -> B) (xs : list A).

Let step (slots : list (option B)) (i : nat) : list (option B) :=
  match xs !! i with
  | Some x => <[i := Some (f x)]> slots
  | None => slots
  end.

Lemma fold_step_length (order : list nat) (slots : list (option B)) :
  length (fold_left step order slots) = length slots.
Proof.
  revert slots; induction order as [|i order IH]; intros slots; simpl; [done|].
  rewrite IH. unfold step. destruct (xs !! i); [apply length_insert|done].
Qed.

Lemma fold_step_lookup (order : list nat) (slots : list (option B)) (i : nat) :
  length slots = length xs ->
  fold_left step order slots !! i =
    if decide (i ∈ order) then (fun x => Some (f x)) <$> xs !! i
    else slots !! i.
Proof.
  revert slots; induction order as [|j order IH]; intros slots Hlen;
    cbn [fold_left].
  - case_decide; [set_solver|done].
  - rewrite IH.
    2:{ unfold step. destruct (xs !! j); [by rewrite length_insert|done]. }
    destruct (decide (i ∈ order)) as [Hin|Hin].
    + destruct (decide (i ∈ j :: order)) as [_|Hout]; [done|set_solver].
    + destruct (decide (i = j)) as [->|Hne].
      * destruct (decide (j ∈ j :: order)) as [_|Hout]; [|set_solver].
        unfold step.
        destruct (xs !! j) as [x|] eqn:Ex; simpl.
        -- apply list_lookup_insert_eq. rewrite Hlen.
           by eapply lookup_lt_Some.
        -- apply lookup_ge_None. rewrite Hlen. by apply lookup_ge_None.
      * destruct (decide (i ∈ j :: order)) as [Hin'|Hout]; [set_solver|].
        unfold step.
        destruct (xs !! j); [|done]. by rewrite list_lookup_insert_ne.
Qed.

Lemma run_pool_complete (order : list nat) :
  complete xs order -> run_pool f xs order = map (fun x => Some (f x)) xs.
Proof.
  intros Hc. apply list_eq; intros i. unfold run_pool.
  fold step. rewrite fold_step_lookup by apply length_replicate.
  rewrite list_lookup_fmap.
  destruct (decide (i ∈ order)) as [Hin|Hin]; [done|].
  destruct (xs !! i) as [x|] eqn:Ex; simpl.
  - exfalso. apply Hin. rewrite Hc. apply elem_of_seq.
    apply lookup_lt_Some in Ex. lia.
  - apply lookup_ge_None. rewrite length_replicate. by apply lookup_ge_None.
Qed.

(** [executor.map] returns the results in the order of its input, whatever
    the order in which the workers finish. *)
Lemma executor_map_in_order (order : list nat) :
  complete xs order -> executor_map f xs order = map f xs.
Proof.
  intros Hc. unfold executor_map. rewrite (run_pool_complete _ Hc).
  apply omap_id_Some.
Qed.

(** [as_completed] returns them in completion order. *)
Lemma as_completed_in_completion_order (order : list nat) :
  complete xs order ->
  as_completed f xs order = omap (fun i => f <$> xs !! i) order.
Proof.
  intros Hc. unfold as_completed. rewrite (run_pool_complete _ Hc).
  apply list_omap_ext, Forall2_same_length_lookup_2; [done|].
  intros i j k Hj Hk. assert (j = k) as -> by congruence.
  rewrite list_lookup_fmap. by destruct (xs !! k).
Qed.

End Facts.

(** The slots only depend on the results of the calls. *)
Lemma run_pool_map {A B} (f : A -> B) (xs : list A) (order : list nat) :
  run_pool f xs order = run_pool id (map f xs) order.
Proof.
  unfold run_pool. rewrite length_map.
  generalize (replicate (length xs) (@None B)).
  induction order as [|i order IH]; intros slots; simpl; [done|].
  change (map f xs) with (f <$> xs). rewrite list_lookup_fmap.
  destruct (xs !! i); simpl; apply IH.
Qed.

Lemma as_completed_map {A B} (f : A -> B) (xs : list A) (order : list nat) :
  as_completed f xs order = as_completed id (map f xs) order.
Proof. unfold as_completed. by rewrite run_pool_map. Qed.

(** Every slot of the pool holds nothing or the result of a submitted call. *)
Lemma run_pool_results {A B} (f : A -> B) (xs : list A) (order : list nat) :
  Forall (fun slot => forall b, slot = Some b -> exists x, b = f x)
         (Pool.run_pool f xs order).
Proof.
  unfold Pool.run_pool.
  assert (Forall (fun slot : option B => forall b, slot = Some b -> exists x, b = f x)
            (replicate (length xs) None)) as Hstart.
  { apply Forall_replicate. by intros b. }
  revert Hstart. generalize (replicate (length xs) (@None B)).
  induction order as [|i order IH]; intros slots Hslots; simpl; [done|].
  apply IH. destruct (xs !! i) as [x|]; [|done].
  apply Forall_insert; [done|]. intros b [= <-]. by exists x.
Qed.

Lemma executor_map_results {A B} (f : A -> B) (xs : list A) (order : list nat) :
  Forall (fun b => exists x, b = f x) (Pool.executor_map f xs order).
Proof.
  unfold Pool.executor_map. apply Forall_forall. intros b Hb.
  apply list_elem_of_omap in Hb as (slot & Hslot & Hid). unfold id in Hid.
  pose proof (run_pool_results f xs order) as H.
  rewrite Forall_forall in H. by apply (H slot).
Qed.

End Pool.

(* ===================================================================== *)
(** * parsingText2.py, part 1: the native extractor                       *)
(* ===================================================================== *)
Module ParsingText2.
Import Py Exn Pdf.

Definition TAB : pystr := [9%N].
Definition NEWLINE : pystr := [10%N].

(** [(cell if cell else "").strip()] *)
Definition cell_text (c : cell) : pystr :=
  strip (match c with
         | Some s => if truthy s then s else []
         | None => []
         end).

(** [row_text = "\t".join(cells)] *)
Definition row_text (r : row) : pystr := join TAB (map cell_text r).

(** The inner loop [for row in rows: ... results.append(row_text)]. *)
Definition append_rows (results : list pystr) (rows : list row) : list pystr :=
  fold_left (fun acc r => acc ++ [row_text r]) rows results.

(** The body of the [try] of [extract_tables_from_page] from the loop over
    the tables on: the list [results] as the block leaves it, and whether it
    left by an exception.  [results] is appended to in place, so what was
    appended before an exception stays. *)
Fixpoint tables_loop (tables : list table) (results : list pystr)
  : list pystr * result () :=
  match tables with
  | [] => (results, Ok ())
  | t :: rest =>
      match extract t with
      | Raised => (results, Raised)
      | Ok rows => tables_loop rest (append_rows results rows)
      end
  end.

(** <<
    results = []
    try:
        tables = page.find_tables()
        for table in tables: ...
    except Exception as e:
        logger.error(...)
    return results
    >> *)
Definition extract_tables_from_page (p : page) : result (list pystr) :=
  let '(results, _) :=
    match find_tables p with
    | Raised => ([], Raised)
    | Ok tables => tables_loop tables []
    end in
  Ok results.

(** <<
    try:
        return page.get_text("text")
    except Exception as e:
        return ""
    >> *)
Definition extract_text_no_tables (p : page) : result pystr :=
  try_except (get_text p) (Ok []).

(** Results of calls that may raise, read one after the other. *)
Fixpoint collect {A} (rs : list (result A)) : result (list A) :=
  match rs with
  | [] => Ok []
  | r :: rs' => a ← r; as' ← collect rs'; mret (a :: as')
  end.

(** One round of the page loop of [extract_pdf_with_pymupdf]. *)
Definition page_round (all_text_chunks : list pystr) (p : page)
  : result (list pystr) :=
  table_lines ← extract_tables_from_page p;
  let all_text_chunks :=
    match table_lines with
    | [] => all_text_chunks
    | _ :: _ => all_text_chunks ++ table_lines
    end in
  normal_text ← extract_text_no_tables p;
  mret (if truthy (strip normal_text)
        then all_text_chunks ++ [strip normal_text]
        else all_text_chunks).

(** <<
    if not os.path.isfile(file_path): return ""
    try: doc = fitz.open(file_path)
    except Exception as e: return ""
    all_text_chunks = []
    for page_index in range(doc.page_count):
        page = doc[page_index]
        ...
    doc.close()
    return "\n".join(all_text_chunks)
    >>
    Neither [doc[page_index]] nor [doc.close()] stands in a [try]. *)
Definition extract_pdf_with_pymupdf (f : pdf_file) : result pystr :=
  if negb (isfile f) then Ok []
  else
    match fitz_open f with
    | Raised => Ok []
    | Ok doc =>
        all_text_chunks ←
          for_each (seq 0 (page_count doc))
            (fun all_text_chunks page_index =>
               page ← load_page doc page_index;
               page_round all_text_chunks page) [];
        _ ← close doc;
        mret (join NEWLINE all_text_chunks)
    end.

(** ** What the loops put out *)

(** The rows the code reads off a page, top to bottom: those of each table
    in turn, up to the first table whose extraction fails; none when
    [find_tables] itself fails. *)
Fixpoint reported_rows (tables : list table) : list row :=
  match tables with
  | [] => []
  | t :: rest =>
      match extract t with
      | Raised => []
      | Ok rows => rows ++ reported_rows rest
      end
  end.

Definition page_rows (p : page) : list row :=
  match find_tables p with
  | Raised => []
  | Ok tables => reported_rows tables
  end.

(** The pieces a page adds to [all_text_chunks]: one piece per row read, the
    trimmed cells joined by tabs, ... *)
Definition page_table_lines (p : page) : list pystr :=
  map row_text (page_rows p).

(** ... then the text layer, trimmed; no piece when the text layer is blank
    or cannot be read. *)
Definition page_prose (p : page) : list pystr :=
  match get_text p with
  | Ok t => if truthy (strip t) then [strip t] else []
  | Raised => []
  end.

Definition page_pieces (p : page) : list pystr :=
  page_table_lines p ++ page_prose p.

(** The page objects the loop loads, in page order; an exception when one of
    them cannot be loaded. *)
Definition pages_in_order (doc : document) : result (list page) :=
  collect (map (load_page doc) (seq 0 (page_count doc))).

Lemma append_rows_map (results : list pystr) (rows : list row) :
  append_rows results rows = results ++ map row_text rows.
Proof.
  unfold append_rows. revert results.
  induction rows as [|r rows IH]; intros results; simpl.
  - by rewrite app_nil_r.
  - by rewrite IH, <- app_assoc.
Qed.

Lemma tables_loop_rows (tables : list table) (results : list pystr) :
  fst (tables_loop tables results)
  = results ++ map row_text (reported_rows tables).
Proof.
  revert results; induction tables as [|t rest IH]; intros results; simpl.
  - by rewrite app_nil_r.
  - destruct (extract t) as [rows|]; simpl.
    + by rewrite IH, append_rows_map, map_app, app_assoc.
    + by rewrite app_nil_r.
Qed.

Lemma extract_tables_from_page_lines (p : page) :
  extract_tables_from_page p = Ok (page_table_lines p).
Proof.
  unfold extract_tables_from_page, page_table_lines, page_rows.
  destruct (find_tables p) as [tables|]; [|done].
  pose proof (tables_loop_rows tables []) as H.
  destruct (tables_loop tables []) as [results r]. simpl in H. by subst.
Qed.

Lemma page_round_pieces (chunks : list pystr) (p : page) :
  page_round chunks p = Ok (chunks ++ page_pieces p).
Proof.
  unfold page_round, page_pieces. rewrite extract_tables_from_page_lines. cbn.
  unfold extract_text_no_tables, page_prose.
  destruct (get_text p) as [t|]; cbn.
  - destruct (page_table_lines p) as [|l ls] eqn:El;
      destruct (truthy (strip t)); cbn;
      by rewrite ?app_nil_r, <- ?app_assoc.
  - destruct (page_table_lines p) as [|l ls]; by rewrite ?app_nil_r.
Qed.

(** The page loop, whatever the page objects do: it raises when a page
    cannot be loaded, and else adds the pieces of the pages in order. *)
Lemma page_loop_pieces (doc : document) (indices : list nat)
    (chunks : list pystr) :
  for_each indices
    (fun all_text_chunks page_index =>
       page ← load_page doc page_index;
       page_round all_text_chunks page) chunks
  = pages ← collect (map (load_page doc) indices);
    mret (chunks ++ flat_map page_pieces pages).
Proof.
  revert chunks; induction indices as [|i indices IH]; intros chunks;
    cbn [for_each map collect].
  - cbn. by rewrite app_nil_r.
  - destruct (load_page doc i) as [p|]; [|done]. cbn.
    rewrite page_round_pieces, IH.
    destruct (collect (map (load_page doc) indices)) as [pages|]; [|done].
    cbn. by rewrite <- app_assoc.
Qed.

(** The native extractor on a file that is there and opens. *)
Lemma extract_pdf_with_pymupdf_opened (f : pdf_file) (doc : document) :
  isfile f = true -> fitz_open f = Ok doc ->
  extract_pdf_with_pymupdf f
  = pages ← pages_in_order doc;
    _ ← close doc;
    mret (join NEWLINE (flat_map page_pieces pages)).
Proof.
  intros Hfile Hopen. unfold extract_pdf_with_pymupdf, pages_in_order.
  rewrite Hfile, Hopen. cbn [negb]. rewrite page_loop_pieces.
  by destruct (collect _).
Qed.

Lemma collect_lookups (pages pre : list page) (doc : document) :
  (forall page_index p,
     (pre ++ pages) !! page_index = Some p -> load_page doc page_index = Ok p) ->
  collect (map (load_page doc) (seq (length pre) (length pages))) = Ok pages.
Proof.
  revert pre; induction pages as [|p pages IH]; intros pre Hload; [done|].
  cbn [length seq map collect].
  rewrite (Hload (length pre) p) by by rewrite list_lookup_middle.
  cbn. specialize (IH (pre ++ [p])).
  rewrite length_app, Nat.add_1_r in IH. rewrite IH; [done|].
  intros i q. rewrite <- app_assoc. apply Hload.
Qed.

Lemma loads_in_order (doc : document) (pages : list page) :
  loads doc pages -> pages_in_order doc = Ok pages.
Proof.
  intros [Hlen Hload]. unfold pages_in_order. rewrite <- Hlen.
  by apply (collect_lookups pages []).
Qed.

Lemma extract_pdf_with_pymupdf_pieces (f : pdf_file) (doc : document)
    (pages : list page) :
  isfile f = true -> fitz_open f = Ok doc -> loads doc pages ->
  close doc = Ok () ->
  extract_pdf_with_pymupdf f = Ok (join NEWLINE (flat_map page_pieces pages)).
Proof.
  intros Hfile Hopen Hloads Hclose.
  rewrite (extract_pdf_with_pymupdf_opened f doc Hfile Hopen).
  by rewrite (loads_in_order doc pages Hloads), Hclose.
Qed.

Lemma reported_rows_all (tables : list table) (rows : list (list row)) :
  Forall2 (fun t rs => extract t = Ok rs) tables rows ->
  reported_rows tables = concat rows.
Proof.
  induction 1 as [|t rs tables rows Ht _ IH]; [done|].
  cbn [reported_rows concat]. by rewrite Ht, IH.
Qed.

(** ** The layout in the specification's words *)

(** What a page holds: the rows of its tables as the detector reports them,
    top to bottom, and its prose text. *)
Record page_content := {
  table_rows : list row;
  prose : pystr;
}.

(** A row as a line of tab-separated cell strings, an empty cell rendered as
    the empty string. *)
Definition spec_cell (c : cell) : pystr :=
  match c with
  | Some s => s
  | None => []
  end.

Definition spec_row_line (r : row) : pystr := join TAB (map spec_cell r).

(** In page order: all table-row lines of a page, then the page's prose
    block, the pieces joined by newlines. *)
Definition spec_layout (contents : list page_content) : pystr :=
  join NEWLINE
    (flat_map (fun c => map spec_row_line (table_rows c) ++ [prose c])
              contents).

(** The page object [p] holds [c]: the detector and every table extraction
    succeed and report the rows of [c], and the text layer is the prose of
    [c]. *)
Definition holds (p : page) (c : page_content) : Prop :=
  exists tables rows,
    find_tables p = Ok tables
    /\ Forall2 (fun t rs => extract t = Ok rs) tables rows
    /\ table_rows c = concat rows
    /\ get_text p = Ok (prose c).

(** Content the code passes on as it is: no cell has whitespace at either
    end, and the prose is not blank and has no whitespace at either end. *)
Definition trimmed (c : page_content) : Prop :=
  Forall (Forall (fun cl => tight (spec_cell cl) = true)) (table_rows c)
  /\ prose c <> [] /\ tight (prose c) = true.

(** The lines of a text. *)
Definition lines_of (text : pystr) : list pystr := split NEWLINE text.

(** No cell of a row read off the page holds the character [ch] once it is
    trimmed. *)
Definition cells_free_of (ch : char) (p : page) : Prop :=
  Forall (Forall (fun cl => ch ∉ cell_text cl)) (page_rows p).

Lemma cell_text_tight (cl : cell) :
  tight (spec_cell cl) = true -> cell_text cl = spec_cell cl.
Proof.
  intros Ht. unfold cell_text.
  destruct cl as [s|]; [|done]. cbn [spec_cell] in *.
  destruct s as [|c s]; [done|]. cbn [truthy]. by apply tight_strip.
Qed.

Lemma holds_pieces (p : page) (c : page_content) :
  holds p c -> trimmed c ->
  page_pieces p = map spec_row_line (table_rows c) ++ [prose c].
Proof.
  intros (tables & rows & Hfind & Hrows & Hc & Htext) (Hcells & Hne & Ht).
  unfold page_pieces, page_table_lines, page_rows, page_prose.
  rewrite Hfind, Htext, (reported_rows_all _ _ Hrows), <- Hc.
  rewrite (tight_strip _ Ht). destruct (prose c) as [|ch t]; [done|].
  cbn [truthy]. f_equal. apply map_ext_Forall.
  eapply Forall_impl; [exact Hcells|]. intros r Hr.
  unfold row_text, spec_row_line. f_equal. apply map_ext_Forall.
  eapply Forall_impl; [exact Hr|]. intros cl. apply cell_text_tight.
Qed.

Lemma row_text_one_line (r : row) :
  Forall (fun cl => 10%N ∉ cell_text cl) r -> 10%N ∉ row_text r.
Proof.
  intros Hr [Hc|(u & Hu & Hc)]%join_chars.
  - by apply list_elem_of_singleton in Hc.
  - apply list_elem_of_In, in_map_iff in Hu as (cl & <- & Hcl).
    apply list_elem_of_In in Hcl. rewrite Forall_forall in Hr.
    by apply (Hr cl Hcl).
Qed.

(** Two sample pages: a table with an empty cell, then prose; prose only. *)
Definition sample_page1 : page :=
  {| find_tables :=
       Ok [ {| extract := Ok [ [Some (lit "Case No"); Some (lit " 12 ")];
                               [Some (lit "Bench"); None] ] |} ];
     get_text := Ok (lit "JUDGMENT of the court" ++ NEWLINE) |}.

Definition sample_page2 : page :=
  {| find_tables := Ok []; get_text := Ok (lit " The appeal is allowed. ") |}.

Definition sample_file : pdf_file :=
  {| isfile := true;
     fitz_open := Ok (document_of [sample_page1; sample_page2]);
     convert_from_path := fun _ => Raised |}.

(** A page whose table has one row, with a cell that runs over two lines and
    a cell with blanks around its text; the text layer is blank. *)
Definition address_page : page :=
  {| find_tables :=
       Ok [ {| extract := Ok [ [Some (lit "Flat 4" ++ NEWLINE ++ lit "Delhi");
                                Some (lit " 12 ")] ] |} ];
     get_text := Ok (lit "  ") |}.

Definition address_content : page_content :=
  {| table_rows := [ [Some (lit "Flat 4" ++ NEWLINE ++ lit "Delhi");
                      Some (lit " 12 ")] ];
     prose := lit "  " |}.

Definition address_file : pdf_file :=
  {| isfile := true;
     fitz_open := Ok (document_of [address_page]);
     convert_from_path := fun _ => Raised |}.

(** C4 (as stated) fails.  The page [address_page] holds one table row and a
    blank text layer.  The output has two lines for the one row, because the
    line feed inside the cell is kept; the blanks around the second cell are
    gone; and the blank prose block adds nothing, where the layout of the
    specification ends with it. *)
Lemma native_layout_claim_fails :
  holds address_page address_content
  /\ extract_pdf_with_pymupdf address_file
     = Ok (lit "Flat 4" ++ NEWLINE ++ lit "Delhi" ++ TAB ++ lit "12")
  /\ lines_of (lit "Flat 4" ++ NEWLINE ++ lit "Delhi" ++ TAB ++ lit "12")
     = [lit "Flat 4"; lit "Delhi" ++ TAB ++ lit "12"]
  /\ spec_layout [address_content]
     = lit "Flat 4" ++ NEWLINE ++ lit "Delhi" ++ TAB ++ lit " 12 "
       ++ NEWLINE ++ lit "  ".
Proof.
  split; [|by vm_compute].
  exists [ {| extract := Ok [ [Some (lit "Flat 4" ++ NEWLINE ++ lit "Delhi");
                               Some (lit " 12 ")] ] |} ],
         [ [ [Some (lit "Flat 4" ++ NEWLINE ++ lit "Delhi");
              Some (lit " 12 ")] ] ].
  repeat split. by repeat constructor.
Qed.

(** C4 (amended).  For a PDF the native extractor opens, each of whose page
    objects loads and which closes, the output is, page by page in page
    order, the page's table rows (the trimmed cells of a row joined by tabs, a
    cell without text rendered as the empty string, rows in the order they are
    reported, up to the first table whose extraction fails) followed by the
    page's trimmed prose block (left out when blank), all pieces joined by
    newlines.  When no trimmed cell holds a line feed, every row is one line of
    the output, and the lines of a page's rows stand before the lines of its
    prose block; a row whose trimmed cells hold no tab splits back into its
    cells.  For pages that hold trimmed content this is the layout of the
    specification. *)
Theorem native_extractor_layout (f : pdf_file) (doc : document)
    (pages : list page) :
  isfile f = true -> fitz_open f = Ok doc -> loads doc pages ->
  close doc = Ok () ->
  extract_pdf_with_pymupdf f
  = Ok (join NEWLINE
          (flat_map (fun p => map row_text (page_rows p) ++ page_prose p)
                    pages))
  /\ (Forall (cells_free_of 10) pages ->
      flat_map page_pieces pages <> [] ->
      exists text,
        extract_pdf_with_pymupdf f = Ok text
        /\ lines_of text
           = flat_map (fun p => map row_text (page_rows p)
                                ++ flat_map lines_of (page_prose p)) pages)
  /\ (forall p r, p ∈ pages -> r ∈ page_rows p -> r <> [] ->
        Forall (fun cl => 9%N ∉ cell_text cl) r ->
        split TAB (row_text r) = map cell_text r)
  /\ (forall contents,
        Forall2 holds pages contents -> Forall trimmed contents ->
        extract_pdf_with_pymupdf f = Ok (spec_layout contents))
  /\ cell_text None = [].
Proof.
  intros Hfile Hopen Hloads Hclose.
  pose proof (extract_pdf_with_pymupdf_pieces f doc pages Hfile Hopen Hloads
                Hclose) as Hout.
  split; [exact Hout|]. split; [|split; [|split; [|done]]].
  - intros Hfree Hne. eexists. split; [exact Hout|].
    unfold lines_of, NEWLINE. rewrite split_join_pieces by done.
    clear -Hfree. induction Hfree as [|p pages Hp _ IH]; [done|].
    cbn [flat_map]. rewrite flat_map_app, IH. f_equal.
    unfold page_pieces, page_table_lines. rewrite flat_map_app. f_equal.
    clear -Hp. unfold cells_free_of in Hp.
    induction Hp as [|r rows Hr _ IH]; [done|].
    cbn [map flat_map]. rewrite IH.
    by rewrite (split_char_whole _ _ (row_text_one_line r Hr)).
  - intros p r _ _ Hne Hr. unfold row_text, TAB.
    apply split_join_char; [by destruct r|]. by apply Forall_map.
  - intros contents Hholds Htrim. rewrite Hout. unfold spec_layout.
    do 2 f_equal. clear -Hholds Htrim.
    induction Hholds as [|p c pages contents Hp _ IH]; [done|].
    apply Forall_cons in Htrim as [Hc Htrim]. cbn [flat_map].
    by rewrite (holds_pieces p c Hp Hc), IH.
Qed.

Lemma native_extractor_layout_witness :
  extract_pdf_with_pymupdf sample_file
  = Ok (lit "Case No" ++ TAB ++ lit "12" ++ NEWLINE
        ++ lit "Bench" ++ TAB ++ NEWLINE
        ++ lit "JUDGMENT of the court" ++ NEWLINE
        ++ lit "The appeal is allowed.")
  /\ exists text,
       extract_pdf_with_pymupdf sample_file = Ok text
       /\ lines_of text
          = [lit "Case No" ++ TAB ++ lit "12"; lit "Bench" ++ TAB;
             lit "JUDGMENT of the court"; lit "The appeal is allowed."].
Proof.
  destruct (native_extractor_layout sample_file
              (document_of [sample_page1; sample_page2])
              [sample_page1; sample_page2] eq_refl eq_refl
              (document_of_loads _) eq_refl) as (Hout & Hlines & _).
  split; [rewrite Hout; vm_compute; reflexivity|].
  destruct Hlines as (text & Htext & Hl).
  - repeat constructor; vm_compute;
      intros H; repeat (apply elem_of_cons in H as [H|H]; [discriminate|]);
      inversion H.
  - vm_compute. discriminate.
  - exists text. split; [exact Htext|]. rewrite Hl. vm_compute. reflexivity.
Defined.

(* --------------------------------------------------------------------- *)
(** ** parsingText2.py, part 2: the OCR fallback extractor                 *)
(* --------------------------------------------------------------------- *)

(** [range(start, stop, step)] as the list it iterates over; a zero step
    raises [ValueError].  The length is CPython's. *)
Definition py_range (start stop step : Z) : result (list Z) :=
  if (step =? 0)%Z then Raised
  else
    let n :=
      if (0 <? step)%Z
      then (if (start <? stop)%Z then (stop - start - 1) / step + 1 else 0)%Z
      else (if (stop <? start)%Z then (start - stop - 1) / (- step) + 1 else 0)%Z
    in
    Ok (map (fun i => (start + Z.of_nat i * step)%Z) (seq 0 (Z.to_nat n))).

(** The pages [first_page .. last_page] (1-based, both ends included). *)
Definition page_span (first_page last_page : Z) : list Z :=
  map (fun i => (first_page + Z.of_nat i)%Z)
      (seq 0 (Z.to_nat (last_page - first_page + 1))).

(** <<
    try:
        return convert_from_path(file_path, dpi=dpi, thread_count=4,
                                 grayscale=True, first_page=first_page,
                                 last_page=last_page)
    except Exception as e:
        return None
    >> *)
Definition convert_pdf_to_images (f : pdf_file) (first_page last_page : Z)
  : option (list image) :=
  match convert_from_path f (Some (first_page, last_page)) with
  | Ok images => Some images
  | Raised => None
  end.

Definition OCR_LANG : pystr := lit "eng+hin".

(** <<
    try:
        text = image_to_string(image, lang='eng+hin', config="--psm 1 --oem 1")
        return text if text else ""
    except Exception as e:
        return ""
    >> *)
Definition ocr_image (img : image) : result pystr :=
  try_except
    (text ← image_to_string img OCR_LANG;
     mret (if truthy text then text else []))
    (Ok []).

(** [chunk_end = min(chunk_start + max_pages_per_chunk - 1, total_pages)] *)
Definition chunk_bounds (total_pages max_pages_per_chunk chunk_start : Z)
  : Z * Z :=
  (chunk_start, Z.min (chunk_start + max_pages_per_chunk - 1) total_pages).

(** One round of the chunk loop.  [order chunk_start] is the order in which
    the pool's workers finish the OCR calls of that chunk. *)
Definition chunk_round (f : pdf_file) (total_pages max_pages_per_chunk : Z)
    (order : Z -> list nat) (all_text : list pystr) (chunk_start : Z)
  : result (list pystr) :=
  let '(chunk_start, chunk_end) :=
    chunk_bounds total_pages max_pages_per_chunk chunk_start in
  match convert_pdf_to_images f chunk_start chunk_end with
  | None | Some [] => Ok all_text
  | Some images =>
      results ← collect (Pool.executor_map ocr_image images (order chunk_start));
      mret (all_text ++ results)
  end.

(** <<
    doc = fitz.open(file_path)
    total_pages = doc.page_count
    doc.close()
    >>
    as the [try] of [extract_pdf_with_ocr] runs it: the page count, or the
    exception the handler catches. *)
Definition count_pages (f : pdf_file) : result Z :=
  doc ← fitz_open f;
  let total_pages := Z.of_nat (page_count doc) in
  _ ← close doc;
  mret total_pages.

(** <<
    if not os.path.isfile(file_path): return ""
    try:
        doc = fitz.open(file_path); total_pages = doc.page_count; doc.close()
    except Exception as e: return ""
    all_text = []
    with ThreadPoolExecutor(max_workers=4) as executor:
        for chunk_start in range(1, total_pages + 1, max_pages_per_chunk): ...
    return "\n".join(all_text)
    >> *)
Definition extract_pdf_with_ocr (f : pdf_file) (max_pages_per_chunk : Z)
    (order : Z -> list nat) : result pystr :=
  if negb (isfile f) then Ok []
  else
    match count_pages f with
    | Raised => Ok []
    | Ok total_pages =>
        starts ← py_range 1 (total_pages + 1) max_pages_per_chunk;
        all_text ←
          for_each starts
            (chunk_round f total_pages max_pages_per_chunk order) [];
        mret (join NEWLINE all_text)
    end.

(** The chunks the loop visits, as page ranges. *)
Definition chunks (total_pages max_pages_per_chunk : Z) : result (list (Z * Z)) :=
  starts ← py_range 1 (total_pages + 1) max_pages_per_chunk;
  mret (map (chunk_bounds total_pages max_pages_per_chunk) starts).

(** The text [ocr_image] returns for an image: it never raises. *)
Definition ocr_text (img : image) : pystr :=
  match image_to_string img OCR_LANG with
  | Ok text => if truthy text then text else []
  | Raised => []
  end.

Lemma ocr_image_total (img : image) : ocr_image img = Ok (ocr_text img).
Proof.
  unfold ocr_image, ocr_text. by destruct (image_to_string img OCR_LANG).
Qed.

Lemma collect_Ok {A} (l : list A) : collect (map Ok l) = Ok l.
Proof. induction l as [|a l IH]; [done|]. simpl. by rewrite IH. Qed.

Lemma page_span_nil (a b : Z) : (b < a)%Z -> page_span a b = [].
Proof. intros H. unfold page_span. by replace (Z.to_nat (b - a + 1)) with 0 by lia. Qed.

Lemma page_span_app (a m b : Z) :
  (a <= m + 1)%Z -> (m <= b)%Z ->
  page_span a m ++ page_span (m + 1) b = page_span a b.
Proof.
  intros H1 H2. unfold page_span.
  replace (Z.to_nat (b - a + 1))
    with (Z.to_nat (m - a + 1) + Z.to_nat (b - (m + 1) + 1)) by lia.
  rewrite seq_app, map_app. f_equal. cbn [Nat.add].
  set (n := Z.to_nat (m - a + 1)).
  replace (seq n (Z.to_nat (b - (m + 1) + 1)))
    with ((fun x => n + x) <$> seq 0 (Z.to_nat (b - (m + 1) + 1)))
    by (rewrite fmap_add_seq; f_equal; lia).
  rewrite <- list_fmap_compose. apply map_ext. intros i. simpl. lia.
Qed.

Lemma page_span_length (a b : Z) :
  length (page_span a b) = Z.to_nat (b - a + 1).
Proof. unfold page_span. by rewrite length_map, length_seq. Qed.

(** The page ranges of [n] consecutive chunks of [C] pages from [start] on
    add up to the pages [start .. P], when [n] is the number of rounds
    [range] makes from [start]. *)
Lemma chunk_spans_cover (P C : Z) (n : nat) (start : Z) :
  (1 <= C)%Z ->
  ((start <= P)%Z -> Z.of_nat n = ((P - start) / C + 1)%Z) ->
  ((P < start)%Z -> n = 0) ->
  flat_map (fun s => page_span s (Z.min (s + C - 1) P))
           (map (fun i => (start + Z.of_nat i * C)%Z) (seq 0 n))
  = page_span start P.
Proof.
  intros HC. revert start; induction n as [|n IH]; intros start Hn H0.
  - simpl. rewrite page_span_nil; [done|].
    destruct (Z.lt_ge_cases P start) as [|Hle]; [done|].
    specialize (Hn Hle). pose proof (Z.div_pos (P - start) C). lia.
  - assert (start <= P)%Z as Hle.
    { destruct (Z.lt_ge_cases P start) as [Hlt|]; [|done].
      by specialize (H0 Hlt). }
    specialize (Hn Hle).
    rewrite <- cons_seq, <- fmap_S_seq. cbn [map flat_map].
    replace (start + Z.of_nat 0 * C)%Z with start by lia.
    change (map ?g (S <$> ?l)) with (g <$> (S <$> l)).
    rewrite <- list_fmap_compose.
    rewrite (list_fmap_ext _ (fun i => ((start + C) + Z.of_nat i * C)%Z) (seq 0 n))
      by (intros i x _; simpl; lia).
    change (?g <$> ?l) with (map g l). rewrite IH.
    + destruct (Z.le_gt_cases (start + C - 1) P) as [Hfit|Hlast].
      * rewrite Z.min_l by done.
        rewrite <- (page_span_app start (start + C - 1) P) by lia.
        do 2 f_equal. lia.
      * rewrite Z.min_r by lia.
        rewrite (page_span_nil (start + C)) by lia. apply app_nil_r.
    + intros Hle'.
      replace (P - (start + C))%Z with ((P - start) + (-1) * C)%Z by lia.
      rewrite Z.div_add by lia. lia.
    + intros Hlt.
      assert ((P - start) / C = 0)%Z as Hq by (apply Z.div_small; lia). lia.
Qed.

(** The starts [range(1, P + 1, C)] visits, for a positive chunk size. *)
Lemma chunk_starts (P C : Z) :
  (1 <= C)%Z -> (0 <= P)%Z ->
  py_range 1 (P + 1) C
  = Ok (map (fun i => (1 + Z.of_nat i * C)%Z)
            (seq 0 (Z.to_nat (if (1 <=? P)%Z then (P - 1) / C + 1 else 0)%Z))).
Proof.
  intros HC HP. unfold py_range.
  destruct (Z.eqb_spec C 0) as [|_]; [lia|].
  destruct (Z.ltb_spec 0 C) as [_|]; [|lia].
  destruct (Z.ltb_spec 1 (P + 1)), (Z.leb_spec 1 P); try lia; [|done].
  by replace (P + 1 - 1 - 1)%Z with (P - 1)%Z by lia.
Qed.

Lemma chunks_cover (P C : Z) :
  (1 <= C)%Z -> (0 <= P)%Z ->
  exists starts,
    py_range 1 (P + 1) C = Ok starts
    /\ flat_map (fun s => page_span s (Z.min (s + C - 1) P)) starts
       = page_span 1 P
    /\ Forall (fun s => 1 <= s <= P)%Z starts.
Proof.
  intros HC HP. eexists. split; [by apply chunk_starts|]. split.
  - apply chunk_spans_cover; [done| |].
    + intros H1. destruct (Z.leb_spec 1 P); [|lia].
      pose proof (Z.div_pos (P - 1) C). lia.
    + intros H1. destruct (Z.leb_spec 1 P); [lia|done].
  - apply Forall_forall. intros s [i [<- Hi]]%list_elem_of_In%in_map_iff.
    apply in_seq in Hi. destruct (Z.leb_spec 1 P) as [H1|]; [|simpl in Hi; lia].
    assert (Z.of_nat i <= (P - 1) / C)%Z as Hq.
    { pose proof (Z.div_pos (P - 1) C). lia. }
    pose proof (Z.mul_div_le (P - 1) C ltac:(lia)). nia.
Qed.

Lemma map_flat_map_spans {A B C} (g : B -> C) (h : A -> list B) (l : list A) :
  flat_map (fun x => map g (h x)) l = map g (flat_map h l).
Proof.
  induction l as [|x l IH]; simpl; [done|]. by rewrite IH, map_app.
Qed.

(** The texts of the pages of one chunk: what OCR reads on the images the
    rasteriser returns for the page range of the chunk; none when the
    rasteriser fails on that range. *)
Definition chunk_texts (f : pdf_file) (c : Z * Z) : list pystr :=
  match convert_pdf_to_images f c.1 c.2 with
  | Some images => map ocr_text images
  | None => []
  end.

Section OcrLoop.
Context (f : pdf_file) (P C : Z) (order : Z -> list nat).

(** In every chunk, each submitted OCR call completes exactly once. *)
Hypothesis Hsched : forall a images,
  convert_pdf_to_images f a (Z.min (a + C - 1) P) = Some images ->
  Pool.complete images (order a).

Lemma chunk_round_texts (acc : list pystr) (s : Z) :
  chunk_round f P C order acc s
  = Ok (acc ++ chunk_texts f (chunk_bounds P C s)).
Proof.
  unfold chunk_round, chunk_texts, chunk_bounds. cbn [fst snd].
  pose proof (Hsched s) as Hs.
  destruct (convert_pdf_to_images f s (Z.min (s + C - 1) P))
    as [[|i images]|]; [by rewrite app_nil_r| |by rewrite app_nil_r].
  specialize (Hs _ eq_refl).
  rewrite (Pool.executor_map_in_order _ _ _ Hs).
  rewrite (map_ext _ (fun x => Ok (ocr_text x)) ocr_image_total).
  by rewrite <- (map_map ocr_text Ok), collect_Ok.
Qed.

Lemma chunk_loop_texts (starts : list Z) (acc : list pystr) :
  for_each starts (chunk_round f P C order) acc
  = Ok (acc ++ flat_map (chunk_texts f) (map (chunk_bounds P C) starts)).
Proof.
  revert acc; induction starts as [|s starts IH]; intros acc; simpl.
  - by rewrite app_nil_r.
  - rewrite chunk_round_texts, IH. by rewrite app_assoc.
Qed.

End OcrLoop.

Lemma count_pages_opened (f : pdf_file) (doc : document) :
  fitz_open f = Ok doc -> close doc = Ok () ->
  count_pages f = Ok (Z.of_nat (page_count doc)).
Proof.
  intros Hopen Hclose. unfold count_pages. rewrite Hopen. cbn.
  by rewrite Hclose.
Qed.

(** A three-page file whose rasteriser and OCR behave; the pool finishes the
    OCR calls of every chunk last page first. *)
Definition ocr_sample_image (n : Z) : image :=
  {| save := Ok ();
     image_to_string := fun _ => Ok (lit "page " ++ [(48 + Z.to_N n)%N]);
     remove_tmp := Ok () |}.

Definition ocr_sample_file : pdf_file :=
  {| isfile := true;
     fitz_open := Ok (document_of [sample_page1; sample_page2; sample_page2]);
     convert_from_path := fun r =>
       match r with
       | Some (a, b) => Ok (map ocr_sample_image (page_span a b))
       | None => Raised
       end |}.

Definition last_first (a : Z) : list nat :=
  rev (seq 0 (length (page_span a (Z.min (a + 2 - 1) 3)))).

(** C7. With [P] pages and a chunk size [C >= 1], the OCR fallback asks the
    rasteriser for contiguous page ranges of at most [C] pages that cover the
    pages [1 .. P], each page once and in order, one call per range: whatever
    the rasteriser does, the text is what OCR reads on the images of these
    calls, range after range, whatever the order in which the pool completes
    the OCR calls.  With 120 pages and a chunk size of 50 the ranges are
    1-50, 51-100 and 101-120.  When the rasteriser returns one image per
    requested page, the text is the pages' OCR results in page order. *)
Theorem ocr_chunks_partition (f : pdf_file) (doc : document) (C : Z)
    (order : Z -> list nat) :
  (1 <= C)%Z ->
  isfile f = true -> fitz_open f = Ok doc -> close doc = Ok () ->
  (forall a images,
     convert_pdf_to_images f a (Z.min (a + C - 1) (Z.of_nat (page_count doc)))
       = Some images ->
     Pool.complete images (order a)) ->
  exists cs,
    chunks (Z.of_nat (page_count doc)) C = Ok cs
    /\ flat_map (fun c => page_span c.1 c.2) cs
       = page_span 1 (Z.of_nat (page_count doc))
    /\ Forall (fun c => 1 <= c.2 - c.1 + 1 <= C)%Z cs
    /\ extract_pdf_with_ocr f C order
       = Ok (join NEWLINE (flat_map (chunk_texts f) cs))
    /\ (page_count doc = 120 -> C = 50%Z ->
        cs = [(1, 50); (51, 100); (101, 120)]%Z)
    /\ (forall img,
          (forall a b, convert_from_path f (Some (a, b))
                       = Ok (map img (page_span a b))) ->
          extract_pdf_with_ocr f C order
          = Ok (join NEWLINE (map (fun n => ocr_text (img n))
                                  (page_span 1 (Z.of_nat (page_count doc)))))).
Proof.
  intros HC Hfile Hopen Hclose Hsched.
  destruct (chunks_cover (Z.of_nat (page_count doc)) C HC (Nat2Z.is_nonneg _))
    as (starts & Hrange & Hcover & Hin).
  set (P := Z.of_nat (page_count doc)) in *.
  assert (flat_map (fun c => page_span c.1 c.2) (map (chunk_bounds P C) starts)
          = page_span 1 P) as Hspans.
  { rewrite <- Hcover. clear. induction starts as [|s l IH]; [done|].
    simpl. by rewrite IH. }
  assert (extract_pdf_with_ocr f C order
          = Ok (join NEWLINE
                  (flat_map (chunk_texts f) (map (chunk_bounds P C) starts))))
    as Hout.
  { unfold extract_pdf_with_ocr.
    rewrite Hfile, (count_pages_opened f doc Hopen Hclose). cbn [negb].
    fold P. rewrite Hrange. cbn.
    by rewrite (chunk_loop_texts f P C order Hsched). }
  exists (map (chunk_bounds P C) starts).
  split; [unfold chunks; by rewrite Hrange|].
  split; [exact Hspans|]. split; [|split; [exact Hout|split]].
  - apply Forall_map. eapply Forall_impl; [apply Hin|].
    intros s Hs. unfold chunk_bounds. cbv beta in Hs. cbn [fst snd]. lia.
  - intros HP ->. unfold P in Hrange |- *. rewrite HP in Hrange |- *.
    vm_compute in Hrange. injection Hrange as <-. by vm_compute.
  - intros img Hraster. rewrite Hout. do 2 f_equal.
    rewrite <- Hspans. clear -Hraster.
    induction (map (chunk_bounds P C) starts) as [|c cs IH]; [done|].
    cbn [flat_map]. rewrite map_app, IH. f_equal.
    unfold chunk_texts, convert_pdf_to_images. rewrite Hraster.
    by rewrite map_map.
Qed.

Lemma ocr_chunks_partition_witness :
  extract_pdf_with_ocr ocr_sample_file 2 last_first
  = Ok (lit "page 1" ++ NEWLINE ++ lit "page 2" ++ NEWLINE ++ lit "page 3")
  /\ chunks 3 2 = Ok [(1, 2); (3, 3)]%Z.
Proof.
  destruct (ocr_chunks_partition ocr_sample_file
              (document_of [sample_page1; sample_page2; sample_page2]) 2
              last_first) as (cs & Hcs & _ & _ & H & _).
  - lia.
  - reflexivity.
  - reflexivity.
  - reflexivity.
  - intros a images [= <-]. unfold Pool.complete, last_first.
    rewrite length_map. symmetry. apply Permutation_rev.
  - split; [|by vm_compute]. rewrite H.
    vm_compute in Hcs. injection Hcs as <-. vm_compute. reflexivity.
Defined.

(* --------------------------------------------------------------------- *)
(** ** parsingText2.py, part 3: the language filter                        *)
(* --------------------------------------------------------------------- *)

(** The library behaviour the filter depends on and the repository does not
    hold: langdetect's [detect] (a language code; [None] stands for
    [LangDetectException]), and two tables of the Unicode database, the full
    upper-case mapping of a code point ([str.upper]) and the decimal digits
    (what [\d] matches in a [str] pattern). *)
Record libs := {
  detect : pystr -> option pystr;
  upper_char : char -> pystr;
  is_decimal : char -> bool;
}.

Definition ascii_upper (c : char) : char :=
  if ((97 <=? c) && (c <=? 122))%N then (c - 32)%N else c.

Definition ascii_digit (c : char) : bool := ((48 <=? c) && (c <=? 57))%N.

(** On ASCII the two tables are the familiar ones. *)
Definition ascii_faithful (L : libs) : Prop :=
  forall c, (c < 128)%N ->
    upper_char L c = [ascii_upper c] /\ is_decimal L c = ascii_digit c.

Definition GAZETTE_OF_INDIA : pystr := Eval vm_compute in lit "GAZETTE OF INDIA".
Definition EXTRAORDINARY : pystr := Eval vm_compute in lit "EXTRAORDINARY".
Definition PERIOD : pystr := [46%N].
Definition PERIOD_SPACE : pystr := [46%N; 32%N].
Definition MIN_LENGTH : nat := 50.

Section Filter.
Context (L : libs).

(** [line.upper()] *)
Definition upper (s : pystr) : pystr := flat_map (upper_char L) s.

(** [re.match(r'^\s*\d+\]\s*$', s)]: whitespace, at least one digit, a
    closing bracket, whitespace up to the end.  The three classes are
    disjoint, so the greedy scan decides the match. *)
Fixpoint skip_digits (s : pystr) : pystr :=
  match s with
  | [] => []
  | c :: s' => if is_decimal L c then skip_digits s' else s
  end.

Definition is_page_marker (s : pystr) : bool :=
  match lstrip s with
  | [] => false
  | c :: rest =>
      is_decimal L c &&
      match skip_digits rest with
      | 93%N :: tail => blank tail
      | _ => false
      end
  end.

(** The three tests of the loop of [remove_unwanted_headers] on one line. *)
Definition unwanted_line (line : pystr) : bool :=
  let line_upper := strip (upper line) in
  contains GAZETTE_OF_INDIA line_upper
  || contains EXTRAORDINARY line_upper
  || is_page_marker line_upper.

(** <<
    lines = text.split("\n")
    cleaned_lines = []
    for line in lines:
        line_upper = line.upper().strip()
        if "GAZETTE OF INDIA" in line_upper: continue
        if "EXTRAORDINARY" in line_upper: continue
        if re.match(r'^\s*\d+\]\s*$', line_upper): continue
        cleaned_lines.append(line)
    return "\n".join(cleaned_lines)
    >> *)
Definition remove_unwanted_headers (text : pystr) : pystr :=
  join NEWLINE
    (List.filter (fun line => negb (unwanted_line line)) (split NEWLINE text)).

(** <<
    try:
        lang = detect(sentence)
        return (lang == 'en' or lang == 'hi')
    except LangDetectException:
        return False
    >> *)
Definition is_english_or_hindi_sentence (sentence : pystr) : bool :=
  match detect L sentence with
  | Some lang => eqb lang (lit "en") || eqb lang (lit "hi")
  | None => false
  end.

(** [text.split(".")] *)
Definition split_into_sentences (text : pystr) : list pystr := split PERIOD text.

(** The characters the substitution of the sentence loop leaves in place:
    ASCII letters and digits, whitespace, and the punctuation
    . , ; : - ( ) [ ] ' / & together with the double quote (34) and the
    bullet U+2022 (8226). *)
Definition allowed (c : char) : bool :=
  ((97 <=? c) && (c <=? 122) || (65 <=? c) && (c <=? 90)
   || (48 <=? c) && (c <=? 57))%N
  || is_space c
  || existsb (N.eqb c) [46; 44; 59; 58; 45; 40; 41; 91; 93; 39; 34; 47; 38; 8226]%N.

(** [re.sub(r"\s+", " ", s)]: every maximal run of whitespace becomes one
    space; [in_run] tells that the previous character was whitespace. *)
Fixpoint collapse_ws (in_run : bool) (s : pystr) : pystr :=
  match s with
  | [] => []
  | c :: s' =>
      if is_space c
      then (if in_run then collapse_ws true s' else 32%N :: collapse_ws true s')
      else c :: collapse_ws false s'
  end.

(** One round of the sentence loop: the sentence it appends, if any. *)
Definition clean_sentence (s : pystr) : option pystr :=
  let s := strip s in
  if negb (truthy s) then None
  else if negb (is_english_or_hindi_sentence s) then None
  else
    let s := List.filter allowed s in
    let s := strip (collapse_ws false s) in
    if (0 <? length s)%nat then Some s else None.

(** The list [valid_sentences] at the end of the loop. *)
Definition valid_sentences (text : pystr) : list pystr :=
  omap clean_sentence (split_into_sentences (remove_unwanted_headers text)).

(** [clean_and_keep_only_english(text, min_length)] *)
Definition clean_and_keep_only_english (text : pystr) (min_length : nat)
  : pystr :=
  let final_text := strip (join PERIOD_SPACE (valid_sentences text)) in
  if (length final_text <? min_length)%nat then [] else final_text.

End Filter.

(** ** What the sentence loop leaves behind *)

(** Every whitespace character is a single space, never next to another;
    [after_space] tells that the previous character was one. *)
Fixpoint spaced_ok (after_space : bool) (s : pystr) : bool :=
  match s with
  | [] => true
  | c :: s' =>
      if is_space c
      then (c =? 32)%N && negb after_space && spaced_ok true s'
      else spaced_ok false s'
  end.

Lemma spaced_ok_weaken (b : bool) (s : pystr) :
  spaced_ok b s = true -> spaced_ok false s = true.
Proof.
  destruct s as [|c s]; [done|]. simpl. destruct (is_space c); [|done].
  intros [[-> _]%andb_true_iff ->]%andb_true_iff. done.
Qed.

Lemma spaced_ok_collapse (b : bool) (s : pystr) :
  spaced_ok b (collapse_ws b s) = true.
Proof.
  revert b; induction s as [|c s IH]; intros b; [done|]. simpl.
  destruct (is_space c) eqn:E.
  - destruct b; [apply IH|]. simpl. by rewrite IH.
  - simpl. rewrite E. apply IH.
Qed.

Lemma collapse_spaced_ok (b : bool) (s : pystr) :
  spaced_ok b s = true -> collapse_ws b s = s.
Proof.
  revert b; induction s as [|c s IH]; intros b; [done|]. simpl.
  destruct (is_space c) eqn:E.
  - intros [[->%N.eqb_eq Hb%negb_true_iff]%andb_true_iff Hs]%andb_true_iff.
    subst b. by rewrite (IH true Hs).
  - intros Hs. by rewrite (IH false Hs).
Qed.

Lemma spaced_ok_prefix (b : bool) (a w : pystr) :
  spaced_ok b (a ++ w) = true -> spaced_ok b a = true.
Proof.
  revert b; induction a as [|c a IH]; intros b; [done|]. simpl.
  destruct (is_space c).
  - intros [-> Hs]%andb_true_iff. by rewrite (IH true Hs).
  - apply IH.
Qed.

Lemma spaced_ok_lstrip (s : pystr) :
  spaced_ok false s = true -> spaced_ok false (lstrip s) = true.
Proof.
  induction s as [|c s IH]; [done|]. simpl.
  destruct (is_space c) eqn:E.
  - intros [_ Hs]%andb_true_iff. by apply IH, (spaced_ok_weaken true).
  - intros Hs. simpl. by rewrite E.
Qed.

Lemma spaced_ok_strip (s : pystr) :
  spaced_ok false s = true -> spaced_ok false (strip s) = true.
Proof.
  intros Hs%spaced_ok_lstrip. unfold strip.
  destruct (rstrip_prefix (lstrip s)) as (w & Hw & _).
  apply (spaced_ok_prefix _ _ w). by rewrite <- Hw.
Qed.

(** In such a text the only whitespace character is the space. *)
Lemma spaced_ok_space (b : bool) (s : pystr) (c : char) :
  spaced_ok b s = true -> c ∈ s -> is_space c = true -> c = 32%N.
Proof.
  revert b; induction s as [|d s IH]; intros b Hs Hc Hsp; [by inversion Hc|].
  simpl in Hs. apply elem_of_cons in Hc as [->|Hc].
  - rewrite Hsp in Hs. apply andb_true_iff in Hs as [[H _]%andb_true_iff _].
    by apply N.eqb_eq.
  - destruct (is_space d).
    + apply andb_true_iff in Hs as [_ Hs]. by apply (IH true).
    + by apply (IH false).
Qed.

Lemma collapse_chars (b : bool) (s : pystr) (c : char) :
  c ∈ collapse_ws b s -> c = 32%N \/ c ∈ s.
Proof.
  revert b; induction s as [|d s IH]; intros b; [set_solver|]. simpl.
  destruct (is_space d); [destruct b|].
  - intros [?|?]%IH; set_solver.
  - intros [->|[?|?]%IH]%elem_of_cons; set_solver.
  - intros [->|[?|?]%IH]%elem_of_cons; set_solver.
Qed.

Lemma filter_allowed_fixed (s : pystr) :
  Forall (fun c => allowed c = true) s -> List.filter allowed s = s.
Proof.
  induction 1 as [|c s Hc _ IH]; [done|]. simpl. by rewrite Hc, IH.
Qed.

Section FilterFacts.
Context (L : libs).

(** What every kept sentence looks like. *)
Definition unit_ok (u : pystr) : Prop :=
  u <> [] /\ tight u = true /\ Forall (fun c => allowed c = true) u
  /\ spaced_ok false u = true /\ 46%N ∉ u.

Lemma clean_sentence_ok (s u : pystr) :
  46%N ∉ s -> clean_sentence L s = Some u -> unit_ok u.
Proof.
  intros Hdot. unfold clean_sentence.
  destruct (negb (truthy (strip s))); [done|].
  destruct (negb (is_english_or_hindi_sentence L (strip s))); [done|].
  set (y := List.filter allowed (strip s)).
  destruct (0 <? length (strip (collapse_ws false y)))%nat eqn:Hlen; [|done].
  intros [= <-]. repeat split.
  - intros E. rewrite E in Hlen. done.
  - apply strip_tight.
  - apply Forall_forall. intros c [->|Hc]%strip_chars%collapse_chars; [done|].
    apply list_elem_of_In, filter_In in Hc. tauto.
  - apply spaced_ok_strip, spaced_ok_collapse.
  - intros [?|Hc]%strip_chars%collapse_chars; [done|].
    apply list_elem_of_In, filter_In in Hc as [Hc%list_elem_of_In _].
    by apply strip_chars in Hc.
Qed.

(** A kept sentence the detector accepts again is kept as it is. *)
Lemma clean_sentence_stable (u : pystr) :
  unit_ok u -> is_english_or_hindi_sentence L u = true ->
  clean_sentence L u = Some u.
Proof.
  intros (Hne & Ht & Hal & Hsp & _) Hacc. unfold clean_sentence.
  rewrite (tight_strip u Ht), Hacc.
  destruct u as [|c u]; [done|]. cbn [truthy negb].
  rewrite (filter_allowed_fixed _ Hal), (collapse_spaced_ok _ _ Hsp).
  by rewrite (tight_strip _ Ht).
Qed.

(** The space [". ".join] puts before a sentence is stripped again. *)
Lemma clean_sentence_after_space (u : pystr) :
  clean_sentence L (32%N :: u) = clean_sentence L u.
Proof. reflexivity. Qed.

Lemma kept_sentences_ok (pieces : list pystr) :
  Forall (fun piece => 46%N ∉ piece) pieces ->
  Forall unit_ok (omap (clean_sentence L) pieces).
Proof.
  induction pieces as [|s l IH]; intros H; [constructor|].
  apply Forall_cons in H as [Hs Hl]. cbn.
  destruct (clean_sentence L s) as [u|] eqn:E; [|by apply IH].
  constructor; [by eapply clean_sentence_ok|by apply IH].
Qed.

Lemma valid_sentences_ok (text : pystr) :
  Forall unit_ok (valid_sentences L text).
Proof. apply kept_sentences_ok, split_char_pieces. Qed.

End FilterFacts.

Section FilterIdempotence.
Context (L : libs).

Lemma clean_empty (min_length : nat) :
  clean_and_keep_only_english L [] min_length = [].
Proof. by destruct min_length. Qed.

Lemma join_units_tight (us : list pystr) :
  Forall unit_ok us ->
  strip (join PERIOD_SPACE us) = join PERIOD_SPACE us.
Proof.
  intros Hus. apply tight_strip, join_tight.
  eapply Forall_impl; [apply Hus|]. by intros u (? & ? & _).
Qed.

Lemma join_units_one_line (us : list pystr) :
  Forall unit_ok us -> 10%N ∉ join PERIOD_SPACE us.
Proof.
  intros Hus [Hc|(u & Hu & Hc)]%join_chars.
  - by repeat (apply elem_of_cons in Hc as [Hc|Hc]; [done|]); inversion Hc.
  - rewrite Forall_forall in Hus. destruct (Hus u Hu) as (_ & _ & _ & Hsp & _).
    by pose proof (spaced_ok_space _ _ _ Hsp Hc eq_refl).
Qed.

(** The sentences of a text the filter produced are the kept sentences. *)
Lemma resplit_units (us : list pystr) :
  Forall unit_ok us ->
  Forall (fun u => is_english_or_hindi_sentence L u = true) us ->
  omap (clean_sentence L) (split_into_sentences (join PERIOD_SPACE us)) = us.
Proof.
  intros Hok Hacc. unfold split_into_sentences, PERIOD, PERIOD_SPACE.
  pose proof (split_char_join 46%N [32%N] us []) as Hsplit.
  rewrite app_nil_l in Hsplit. rewrite Hsplit; clear Hsplit.
  - destruct us as [|u rest]; [done|].
    apply Forall_cons in Hok as [Hu Hok]. apply Forall_cons in Hacc as [Hau Hacc].
    cbn [omap list_omap app]. rewrite (clean_sentence_stable L u Hu Hau).
    f_equal. induction rest as [|v rest IH]; [done|].
    apply Forall_cons in Hok as [Hv Hok]. apply Forall_cons in Hacc as [Hav Hacc].
    cbn [map omap list_omap app].
    rewrite clean_sentence_after_space, (clean_sentence_stable L v Hv Hav).
    f_equal. by apply IH.
  - by intros [?|H]%elem_of_cons; [|inversion H].
  - by intros H; inversion H.
  - eapply Forall_impl; [apply Hok|]. by intros u (_ & _ & _ & _ & ?).
Qed.

Lemma remove_unwanted_headers_one_line (f : pystr) :
  10%N ∉ f -> unwanted_line L f = false -> remove_unwanted_headers L f = f.
Proof.
  intros Hnl Hf. unfold remove_unwanted_headers, NEWLINE.
  rewrite (split_char_whole 10%N f Hnl). cbn. by rewrite Hf.
Qed.

End FilterIdempotence.

(** C6 (amended). Filtering already-filtered text yields the same text
    whenever the filtered text is not itself a boilerplate line (it holds no
    gazette header pattern and is not a bracketed number) and the language
    detector accepts every kept, cleaned sentence once more. *)
Theorem filter_idempotent_when_stable (L : libs) (text : pystr)
    (min_length : nat) :
  unwanted_line L (clean_and_keep_only_english L text min_length) = false ->
  Forall (fun u => is_english_or_hindi_sentence L u = true)
         (valid_sentences L text) ->
  clean_and_keep_only_english L
    (clean_and_keep_only_english L text min_length) min_length
  = clean_and_keep_only_english L text min_length.
Proof.
  intros Hline Hacc.
  pose proof (valid_sentences_ok L text) as Hok.
  set (us := valid_sentences L text) in *.
  assert (clean_and_keep_only_english L text min_length
          = if (length (join PERIOD_SPACE us) <? min_length)%nat
            then [] else join PERIOD_SPACE us) as Hf.
  { unfold clean_and_keep_only_english. fold us.
    by rewrite (join_units_tight _ Hok). }
  rewrite Hf in Hline |- *.
  destruct (length (join PERIOD_SPACE us) <? min_length)%nat eqn:Hlen;
    [apply clean_empty|].
  unfold clean_and_keep_only_english, valid_sentences.
  rewrite (remove_unwanted_headers_one_line L _ (join_units_one_line _ Hok) Hline).
  rewrite (resplit_units L _ Hok Hacc), (join_units_tight _ Hok).
  by rewrite Hlen.
Qed.

(** The Unicode tables restricted to ASCII (other code points have no case
    and are no digits), around a given detector. *)
Definition ascii_tables (d : pystr -> option pystr) : libs :=
  {| detect := d;
     upper_char := fun c => [ascii_upper c];
     is_decimal := ascii_digit |}.

Lemma ascii_tables_faithful (d : pystr -> option pystr) :
  ascii_faithful (ascii_tables d).
Proof. by intros c _. Qed.

(** A stand-in detector: English when the text holds an ASCII letter, no
    features otherwise. *)
Definition letters_detector (s : pystr) : option pystr :=
  if existsb (fun c => (97 <=? c) && (c <=? 122) || (65 <=? c) && (c <=? 90))%N s
  then Some (lit "en") else None.

Definition order_text : pystr :=
  lit "The appeal is allowed. The order of the High Court is set aside.".

Lemma filter_idempotent_when_stable_witness :
  clean_and_keep_only_english (ascii_tables letters_detector)
    (clean_and_keep_only_english (ascii_tables letters_detector)
       order_text MIN_LENGTH) MIN_LENGTH
  = lit "The appeal is allowed. The order of the High Court is set aside".
Proof.
  rewrite (filter_idempotent_when_stable (ascii_tables letters_detector)
             order_text MIN_LENGTH).
  - vm_compute. reflexivity.
  - vm_compute. reflexivity.
  - vm_compute. repeat constructor.
Defined.

(** A header broken over two lines: no line holds the pattern, the filtered
    text does. *)
Definition header_text : pystr :=
  Eval vm_compute in
    lit "THE GAZETTE" ++ NEWLINE
    ++ lit "OF INDIA publishes the notification of the appointment".

(** A Hindi line of dates and numbers ("dinank" in Devanagari before each):
    the allow-list leaves the digits and the punctuation. *)
Definition dinank : pystr := [2342; 2367; 2344; 2366; 2306; 2325]%N.

Definition hindi_text : pystr :=
  Eval vm_compute in
    dinank ++ lit " 2023/10/15 " ++ dinank ++ lit " 15-10-2023 "
    ++ dinank ++ lit " 123456789 " ++ dinank ++ lit " 987654321 "
    ++ dinank ++ lit " 5555555555".

Definition digits_left : pystr :=
  Eval vm_compute in
    lit "2023/10/15 15-10-2023 123456789 987654321 5555555555".

(** C6 (as stated) fails.  Whatever the detector, as long as it takes the
    English notice for English, a second pass drops the whole text as a
    gazette header; as long as it takes the Hindi line for Hindi and finds no
    language in the digits the first pass left, a second pass drops them. *)
Lemma filter_not_idempotent :
  (forall d, d header_text = Some (lit "en") ->
     clean_and_keep_only_english (ascii_tables d)
       (clean_and_keep_only_english (ascii_tables d) header_text MIN_LENGTH)
       MIN_LENGTH
     <> clean_and_keep_only_english (ascii_tables d) header_text MIN_LENGTH)
  /\ (forall d, d hindi_text = Some (lit "hi") -> d digits_left = None ->
     clean_and_keep_only_english (ascii_tables d)
       (clean_and_keep_only_english (ascii_tables d) hindi_text MIN_LENGTH)
       MIN_LENGTH
     <> clean_and_keep_only_english (ascii_tables d) hindi_text MIN_LENGTH)
  /\ ~ (forall L text,
         clean_and_keep_only_english L
           (clean_and_keep_only_english L text MIN_LENGTH) MIN_LENGTH
         = clean_and_keep_only_english L text MIN_LENGTH).
Proof.
  assert (forall d s u lang,
            strip s = u -> u <> [] -> d u = Some lang ->
            eqb lang (lit "en") || eqb lang (lit "hi") = true ->
            clean_sentence (ascii_tables d) s
            = (let y := strip (collapse_ws false (List.filter allowed u)) in
               if (0 <? length y)%nat then Some y else None)) as Hkeep.
  { intros d s u lang <- Hne Hd Hlang. unfold clean_sentence.
    destruct (strip s) as [|c u] eqn:E; [done|]. cbn [truthy negb].
    unfold is_english_or_hindi_sentence. cbn [detect ascii_tables].
    by rewrite Hd, Hlang. }
  assert (forall d s u, strip s = u -> d u = None ->
            clean_sentence (ascii_tables d) s = None) as Hdrop.
  { intros d s u <- Hd. unfold clean_sentence, is_english_or_hindi_sentence.
    cbn [detect ascii_tables]. rewrite Hd. by destruct (negb _). }
  assert (forall d, d header_text = Some (lit "en") ->
     clean_and_keep_only_english (ascii_tables d)
       (clean_and_keep_only_english (ascii_tables d) header_text MIN_LENGTH)
       MIN_LENGTH
     <> clean_and_keep_only_english (ascii_tables d) header_text MIN_LENGTH)
    as Hheader.
  { intros d Hd.
    assert (clean_and_keep_only_english (ascii_tables d) header_text MIN_LENGTH
            = lit "THE GAZETTE OF INDIA publishes the notification of the appointment")
      as ->.
    { unfold clean_and_keep_only_english, valid_sentences.
      replace (split_into_sentences
                 (remove_unwanted_headers (ascii_tables d) header_text))
        with [header_text] by (vm_compute; reflexivity).
      cbn [omap list_omap].
      rewrite (Hkeep d header_text header_text (lit "en"));
        [|by vm_compute..|done|by vm_compute].
      vm_compute. reflexivity. }
    vm_compute. discriminate. }
  split; [exact Hheader|split].
  - intros d Hd Hn.
    assert (clean_and_keep_only_english (ascii_tables d) hindi_text MIN_LENGTH
            = digits_left) as ->.
    { unfold clean_and_keep_only_english, valid_sentences.
      replace (split_into_sentences
                 (remove_unwanted_headers (ascii_tables d) hindi_text))
        with [hindi_text] by (vm_compute; reflexivity).
      cbn [omap list_omap].
      rewrite (Hkeep d hindi_text hindi_text (lit "hi"));
        [|by vm_compute..|done|by vm_compute].
      vm_compute. reflexivity. }
    unfold clean_and_keep_only_english, valid_sentences.
    replace (split_into_sentences
               (remove_unwanted_headers (ascii_tables d) digits_left))
      with [digits_left] by (vm_compute; reflexivity).
    cbn [omap list_omap].
    rewrite (Hdrop d digits_left digits_left); [|by vm_compute|done].
    vm_compute. discriminate.
  - intros H. apply (Hheader letters_detector); [by vm_compute|].
    apply H.
Qed.

(* --------------------------------------------------------------------- *)
(** ** parsingText2.py, part 4: the extraction orchestrator                *)
(* --------------------------------------------------------------------- *)

(** The two extraction strategies, as the orchestrator calls them. *)
Inductive event := NativeExtraction | OcrFallback.

Definition DEFAULT_CHUNK : Z := 50.

(** The part of [extract_text_from_pdf] after the log line
    "Falling back to OCR": <<
    ocr_text = extract_pdf_with_ocr(file_path)
    if not ocr_text.strip(): return None
    cleaned_ocr = clean_and_keep_only_english(ocr_text)
    return cleaned_ocr if cleaned_ocr else None
    >> *)
Definition ocr_fallback (L : libs) (f : pdf_file) (order : Z -> list nat)
  : list event * result (option pystr) :=
  ([OcrFallback],
   ocr_text ← extract_pdf_with_ocr f DEFAULT_CHUNK order;
   if negb (truthy (strip ocr_text)) then mret None
   else
     let cleaned_ocr := clean_and_keep_only_english L ocr_text MIN_LENGTH in
     mret (if truthy cleaned_ocr then Some cleaned_ocr else None)).

(** <<
    if not os.path.isfile(file_path): return None
    native_text = extract_pdf_with_pymupdf(file_path)
    if native_text.strip():
        cleaned = clean_and_keep_only_english(native_text)
        if cleaned: return cleaned
    logger.info(f"Falling back to OCR for '{file_path}' ...")
    ...
    >>
    The result comes with the strategies that were run, in order. *)
Definition extract_text_from_pdf (L : libs) (f : pdf_file)
    (order : Z -> list nat) : list event * result (option pystr) :=
  if negb (isfile f) then ([], Ok None)
  else
    match extract_pdf_with_pymupdf f with
    | Raised => ([NativeExtraction], Raised)
    | Ok native_text =>
        let cleaned :=
          if truthy (strip native_text)
          then clean_and_keep_only_english L native_text MIN_LENGTH
          else [] in
        if truthy cleaned then ([NativeExtraction], Ok (Some cleaned))
        else
          let '(events, r) := ocr_fallback L f order in
          (NativeExtraction :: events, r)
    end.

Lemma blank_spec (s : pystr) :
  blank s = true <-> forall c, c ∈ s -> is_space c = true.
Proof.
  unfold blank. rewrite forallb_forall. split; intros H c Hc; apply H.
  - by apply list_elem_of_In.
  - by apply list_elem_of_In.
Qed.

(** A blank text has nothing the filter keeps. *)
Lemma clean_blank (L : libs) (text : pystr) (min_length : nat) :
  blank text = true -> clean_and_keep_only_english L text min_length = [].
Proof.
  intros Hb. rewrite blank_spec in Hb.
  assert (blank (remove_unwanted_headers L text) = true) as Hh.
  { apply blank_spec. intros c Hc. unfold remove_unwanted_headers in Hc.
    apply join_chars in Hc as [Hc|(line & Hline & Hc)].
    - by apply list_elem_of_singleton in Hc as ->.
    - apply list_elem_of_In, filter_In in Hline as [Hline%list_elem_of_In _].
      apply Hb. by eapply (split_pieces_chars NEWLINE). }
  unfold clean_and_keep_only_english, valid_sentences, split_into_sentences, PERIOD.
  rewrite split_char_whole.
  2:{ intros Hdot. rewrite blank_spec in Hh. by specialize (Hh _ Hdot). }
  cbn [omap list_omap]. unfold clean_sentence.
  rewrite (strip_blank _ Hh). cbn. by destruct min_length.
Qed.

(** C2. When the filtered native text is longer than 50 characters, the
    orchestrator returns it after the native extraction alone: the OCR
    fallback is not run. *)
Theorem native_short_circuit (L : libs) (f : pdf_file) (order : Z -> list nat)
    (native_text : pystr) :
  extract_pdf_with_pymupdf f = Ok native_text ->
  50 < length (clean_and_keep_only_english L native_text MIN_LENGTH) ->
  extract_text_from_pdf L f order
  = ([NativeExtraction],
     Ok (Some (clean_and_keep_only_english L native_text MIN_LENGTH)))
  /\ OcrFallback ∉ (extract_text_from_pdf L f order).1.
Proof.
  intros Hnative Hlong.
  assert (extract_text_from_pdf L f order
          = ([NativeExtraction],
             Ok (Some (clean_and_keep_only_english L native_text MIN_LENGTH))))
    as ->.
  { unfold extract_text_from_pdf.
    destruct (isfile f) eqn:Hfile; cbn [negb].
    - rewrite Hnative.
      destruct (truthy (strip native_text)) eqn:Hstrip.
      + destruct (clean_and_keep_only_english L native_text MIN_LENGTH);
          [simpl in Hlong; lia|done].
      + rewrite clean_blank in Hlong; [simpl in Hlong; lia|].
        apply strip_nil_blank. by destruct (strip native_text).
    - unfold extract_pdf_with_pymupdf in Hnative. rewrite Hfile in Hnative.
      injection Hnative as <-. rewrite clean_empty in Hlong. simpl in Hlong. lia. }
  split; [done|]. cbn. by intros [=]%list_elem_of_singleton.
Qed.

(** A one-page judgment with a text layer. *)
Definition typed_page : page :=
  {| find_tables := Ok [];
     get_text := Ok (lit "The appeal is allowed. The order of the High Court is set aside.") |}.

Definition typed_file : pdf_file :=
  {| isfile := true; fitz_open := Ok (document_of [typed_page]);
     convert_from_path := fun _ => Raised |}.

Lemma native_short_circuit_witness :
  extract_text_from_pdf (ascii_tables letters_detector) typed_file (fun _ => [])
  = ([NativeExtraction],
     Ok (Some (lit "The appeal is allowed. The order of the High Court is set aside"))).
Proof.
  refine (eq_trans
            (proj1 (native_short_circuit (ascii_tables letters_detector)
                      typed_file (fun _ => []) order_text _ _)) _).
  - vm_compute. reflexivity.
  - vm_compute. lia.
  - vm_compute. reflexivity.
Defined.

(* --------------------------------------------------------------------- *)
(** ** More on the native extractor                                        *)
(* --------------------------------------------------------------------- *)

Lemma reported_rows_until_failure (good rest : list table) (bad : table)
    (rows : list (list row)) :
  Forall2 (fun t rs => extract t = Ok rs) good rows ->
  extract bad = Raised ->
  reported_rows (good ++ bad :: rest) = concat rows.
Proof.
  intros Hgood Hbad. induction Hgood as [|t rs good rows Ht _ IH]; simpl.
  - by rewrite Hbad.
  - by rewrite Ht, IH.
Qed.

(** When [table.extract()] fails on one table of a page, the rows of the
    tables before it are kept and the tables after it are not looked at. *)
Theorem rows_before_a_failing_table_are_kept (p : page)
    (good rest : list table) (bad : table) (rows : list (list row)) :
  find_tables p = Ok (good ++ bad :: rest) ->
  Forall2 (fun t rs => extract t = Ok rs) good rows ->
  extract bad = Raised ->
  extract_tables_from_page p = Ok (map row_text (concat rows)).
Proof.
  intros Hp Hgood Hbad. rewrite extract_tables_from_page_lines.
  unfold page_table_lines, page_rows. rewrite Hp.
  by rewrite (reported_rows_until_failure _ _ _ _ Hgood Hbad).
Qed.

Definition parties_table : table :=
  {| extract := Ok [ [Some (lit "Appellant"); Some (lit "State")] ] |}.

Definition broken_table : table := {| extract := Raised |}.

Definition three_table_page : page :=
  {| find_tables := Ok [parties_table; broken_table; parties_table];
     get_text := Ok (lit "ORDER") |}.

Lemma rows_before_a_failing_table_are_kept_witness :
  extract_tables_from_page three_table_page
  = Ok [lit "Appellant" ++ TAB ++ lit "State"].
Proof.
  refine (eq_trans
    (rows_before_a_failing_table_are_kept three_table_page
       [parties_table] [parties_table] broken_table
       [[ [Some (lit "Appellant"); Some (lit "State")] ]] eq_refl _ eq_refl) _).
  - repeat constructor.
  - vm_compute. reflexivity.
Defined.

(* --------------------------------------------------------------------- *)
(** ** More on the OCR fallback extractor                                  *)
(* --------------------------------------------------------------------- *)

Lemma collect_total {A} (rs : list (result A)) :
  Forall (fun r => exists a, r = Ok a) rs -> exists l, collect rs = Ok l.
Proof.
  induction 1 as [|r rs [a ->] _ [l IH]]; [by exists []|].
  exists (a :: l). simpl. by rewrite IH.
Qed.

Lemma chunk_round_total (f : pdf_file) (P C : Z) (order : Z -> list nat)
    (acc : list pystr) (s : Z) :
  exists acc', chunk_round f P C order acc s = Ok acc'.
Proof.
  unfold chunk_round, chunk_bounds.
  destruct (convert_pdf_to_images f s (Z.min (s + C - 1) P)) as [[|i images]|];
    [by eexists| |by eexists].
  destruct (collect_total (Pool.executor_map ocr_image (i :: images) (order s)))
    as [l Hl].
  { eapply Forall_impl; [apply Pool.executor_map_results|].
    intros r [x ->]. rewrite ocr_image_total. by eexists. }
  rewrite Hl. by eexists.
Qed.

Lemma chunk_loop_total (f : pdf_file) (P C : Z) (order : Z -> list nat)
    (starts : list Z) (acc : list pystr) :
  exists acc', for_each starts (chunk_round f P C order) acc = Ok acc'.
Proof.
  revert acc; induction starts as [|s starts IH]; intros acc; simpl;
    [by eexists|].
  destruct (chunk_round_total f P C order acc s) as [acc' ->]. apply IH.
Qed.

Lemma py_range_total (start stop step : Z) :
  step <> 0%Z -> exists l, py_range start stop step = Ok l.
Proof.
  intros H. unfold py_range. destruct (Z.eqb_spec step 0); [done|by eexists].
Qed.

(** For a chunk size other than zero the OCR extractor returns a text,
    whatever the file, the rasteriser, the OCR engine and the pool do. *)
Lemma extract_pdf_with_ocr_total (f : pdf_file) (C : Z) (order : Z -> list nat) :
  C <> 0%Z -> exists text, extract_pdf_with_ocr f C order = Ok text.
Proof.
  intros HC. unfold extract_pdf_with_ocr.
  destruct (isfile f); cbn [negb]; [|by eexists].
  destruct (count_pages f) as [total_pages|]; [|by eexists].
  destruct (py_range_total 1 (total_pages + 1) C HC) as [starts ->].
  cbn.
  destruct (chunk_loop_total f total_pages C order starts []) as [acc ->].
  by eexists.
Qed.

(** The chunk size at its edges.  A chunk size of zero makes [range] raise
    [ValueError], which nothing catches, as soon as the page count of the file
    could be read; a negative chunk size makes the loop visit no chunk, and the
    text is empty; any other chunk size yields a text.  A file that is missing,
    cannot be opened or cannot be closed after the page count was read yields
    the empty text before the chunk size is looked at. *)
Theorem ocr_chunk_size_edges (f : pdf_file) (order : Z -> list nat) :
  (forall doc, isfile f = true -> fitz_open f = Ok doc -> close doc = Ok () ->
     extract_pdf_with_ocr f 0 order = Raised
     /\ forall C, (C < 0)%Z -> extract_pdf_with_ocr f C order = Ok [])
  /\ (forall C, C <> 0%Z -> exists text, extract_pdf_with_ocr f C order = Ok text)
  /\ (forall C,
        isfile f = false \/ fitz_open f = Raised
        \/ (exists doc, fitz_open f = Ok doc /\ close doc = Raised) ->
        extract_pdf_with_ocr f C order = Ok []).
Proof.
  split; [|split].
  - intros doc Hfile Hopen Hclose. unfold extract_pdf_with_ocr.
    rewrite Hfile, (count_pages_opened f doc Hopen Hclose). cbn [negb].
    split; [done|].
    intros C HC. unfold py_range.
    destruct (Z.eqb_spec C 0); [lia|].
    destruct (Z.ltb_spec 0 C); [lia|].
    destruct (Z.ltb_spec (Z.of_nat (page_count doc) + 1) 1); [lia|]. done.
  - intros C HC. by apply extract_pdf_with_ocr_total.
  - intros C [Hf|[Ho|(doc & Ho & Hc)]]; unfold extract_pdf_with_ocr, count_pages.
    + by rewrite Hf.
    + rewrite Ho. by destruct (isfile f).
    + rewrite Ho. cbn. rewrite Hc. by destruct (isfile f).
Qed.

Lemma ocr_chunk_size_edges_witness :
  extract_pdf_with_ocr ocr_sample_file 0 last_first = Raised
  /\ extract_pdf_with_ocr ocr_sample_file (-2) last_first = Ok [].
Proof.
  destruct (proj1 (ocr_chunk_size_edges ocr_sample_file last_first)
              (document_of [sample_page1; sample_page2; sample_page2])
              eq_refl eq_refl eq_refl)
    as [H0 Hneg].
  split; [exact H0|]. apply Hneg. lia.
Defined.

Section OcrChunkFaults.
Context (f : pdf_file) (P C : Z) (order : Z -> list nat) (img : Z -> image).
Context (fails : Z -> bool).

(** The rasteriser fails on the chunks [fails] tells, and returns one image
    per requested page, in page order, on the others. *)
Hypothesis Hraster : forall a b,
  convert_from_path f (Some (a, b))
  = if fails a then Raised else Ok (map img (page_span a b)).

Hypothesis Hsched : forall a images,
  convert_pdf_to_images f a (Z.min (a + C - 1) P) = Some images ->
  Pool.complete images (order a).

Lemma chunk_round_faulty (acc : list pystr) (s : Z) :
  chunk_round f P C order acc s
  = Ok (acc ++ map (fun n => ocr_text (img n))
                   (if fails s then [] else page_span s (Z.min (s + C - 1) P))).
Proof.
  unfold chunk_round, chunk_bounds.
  pose proof (Hsched s) as Hs. unfold convert_pdf_to_images in Hs |- *.
  rewrite Hraster in Hs |- *.
  destruct (fails s); [by rewrite app_nil_r|].
  specialize (Hs _ eq_refl).
  destruct (map img (page_span s (Z.min (s + C - 1) P))) as [|i images] eqn:E.
  - apply map_eq_nil in E. rewrite E. simpl. by rewrite app_nil_r.
  - rewrite (Pool.executor_map_in_order _ _ _ Hs).
    rewrite (map_ext _ (fun x => Ok (ocr_text x)) ocr_image_total).
    rewrite <- (map_map ocr_text Ok), collect_Ok.
    rewrite <- E, map_map. reflexivity.
Qed.

Lemma chunk_loop_faulty (starts : list Z) (acc : list pystr) :
  for_each starts (chunk_round f P C order) acc
  = Ok (acc ++ map (fun n => ocr_text (img n))
          (flat_map (fun s => if fails s then []
                              else page_span s (Z.min (s + C - 1) P)) starts)).
Proof.
  revert acc; induction starts as [|s starts IH]; intros acc; simpl.
  - by rewrite app_nil_r.
  - rewrite chunk_round_faulty, IH. by rewrite map_app, app_assoc.
Qed.

End OcrChunkFaults.

(** A chunk the rasteriser fails on is skipped: its pages contribute nothing,
    and the pages of every other chunk contribute their OCR text, in page
    order. *)
Theorem ocr_skips_failed_chunks (f : pdf_file) (doc : document) (C : Z)
    (img : Z -> image) (order : Z -> list nat) (fails : Z -> bool) :
  (1 <= C)%Z ->
  isfile f = true -> fitz_open f = Ok doc -> close doc = Ok () ->
  (forall a b, convert_from_path f (Some (a, b))
               = if fails a then Raised else Ok (map img (page_span a b))) ->
  (forall a images,
     convert_pdf_to_images f a (Z.min (a + C - 1) (Z.of_nat (page_count doc)))
       = Some images ->
     Pool.complete images (order a)) ->
  exists cs,
    chunks (Z.of_nat (page_count doc)) C = Ok cs
    /\ extract_pdf_with_ocr f C order
       = Ok (join NEWLINE
               (map (fun n => ocr_text (img n))
                  (flat_map (fun c => if fails c.1 then []
                                      else page_span c.1 c.2) cs))).
Proof.
  intros HC Hfile Hopen Hclose Hraster Hsched.
  destruct (chunks_cover (Z.of_nat (page_count doc)) C HC (Nat2Z.is_nonneg _))
    as (starts & Hrange & _ & _).
  exists (map (chunk_bounds (Z.of_nat (page_count doc)) C) starts).
  split; [unfold chunks; by rewrite Hrange|].
  unfold extract_pdf_with_ocr.
  rewrite Hfile, (count_pages_opened f doc Hopen Hclose), Hrange. cbn.
  rewrite (chunk_loop_faulty f _ C order img fails Hraster Hsched). cbn.
  do 3 f_equal. clear. induction starts as [|s l IH]; [done|].
  simpl. by rewrite IH.
Qed.

(** Five pages in chunks of two; the rasteriser fails on the chunk that
    starts at page 3, and the pool finishes every chunk last page first. *)
Definition five_page_file : pdf_file :=
  {| isfile := true;
     fitz_open := Ok (document_of (replicate 5 sample_page2));
     convert_from_path := fun r =>
       match r with
       | Some (a, b) =>
           if (a =? 3)%Z then Raised else Ok (map ocr_sample_image (page_span a b))
       | None => Raised
       end |}.

Definition last_first_of_five (a : Z) : list nat :=
  rev (seq 0 (length (page_span a (Z.min (a + 2 - 1) 5)))).

Lemma ocr_skips_failed_chunks_witness :
  extract_pdf_with_ocr five_page_file 2 last_first_of_five
  = Ok (lit "page 1" ++ NEWLINE ++ lit "page 2" ++ NEWLINE ++ lit "page 5").
Proof.
  destruct (ocr_skips_failed_chunks five_page_file
              (document_of (replicate 5 sample_page2)) 2
              ocr_sample_image last_first_of_five (fun a => (a =? 3)%Z))
    as (cs & Hcs & H).
  - lia.
  - reflexivity.
  - reflexivity.
  - reflexivity.
  - intros a b. reflexivity.
  - intros a images. unfold convert_pdf_to_images.
    cbn [convert_from_path five_page_file].
    destruct (a =? 3)%Z; [done|]. intros [= <-].
    unfold Pool.complete, last_first_of_five.
    rewrite length_map. symmetry. apply Permutation_rev.
  - rewrite H. injection Hcs as <-. vm_compute. reflexivity.
Defined.

(* --------------------------------------------------------------------- *)
(** ** More on the language filter                                         *)
(* --------------------------------------------------------------------- *)

(** Lines joined by line feeds split back into the lines. *)
Lemma split_join_lines (ls : list pystr) :
  ls <> [] -> Forall (fun l => 10%N ∉ l) ls ->
  split NEWLINE (join NEWLINE ls) = ls.
Proof. apply split_join_char. Qed.

Section Headers.
Context (L : libs).

Lemma unwanted_line_empty : unwanted_line L [] = false.
Proof. reflexivity. Qed.

Let wanted (line : pystr) : bool := negb (unwanted_line L line).

(** The lines of the text [remove_unwanted_headers] returns. *)
Lemma remove_unwanted_headers_lines (text : pystr) :
  split NEWLINE (remove_unwanted_headers L text)
  = match List.filter wanted (split NEWLINE text) with
    | [] => [[]]
    | kept => kept
    end.
Proof.
  unfold remove_unwanted_headers. fold wanted.
  destruct (List.filter wanted (split NEWLINE text)) as [|l kept] eqn:E;
    [done|].
  apply split_join_lines; [done|]. rewrite <- E.
  apply Forall_forall. intros line [Hline%list_elem_of_In _]%list_elem_of_In%filter_In.
  pose proof (split_char_pieces 10%N text) as H. rewrite Forall_forall in H.
  by apply H.
Qed.

Lemma filter_kept (kept : list pystr) :
  Forall (fun l => wanted l = true) kept -> List.filter wanted kept = kept.
Proof. induction 1 as [|l kept Hl _ IH]; [done|]. simpl. by rewrite Hl, IH. Qed.

Lemma remove_unwanted_headers_again (text : pystr) :
  remove_unwanted_headers L (remove_unwanted_headers L text)
  = remove_unwanted_headers L text.
Proof.
  unfold remove_unwanted_headers at 1. fold wanted.
  rewrite remove_unwanted_headers_lines.
  unfold remove_unwanted_headers. fold wanted.
  destruct (List.filter wanted (split NEWLINE text)) as [|l kept] eqn:E;
    [done|].
  rewrite filter_kept; [done|]. rewrite <- E.
  apply Forall_forall. intros line Hline%list_elem_of_In%filter_In. tauto.
Qed.

End Headers.

(** Removing the header lines is idempotent, and the filter sees its input
    only through the text that is left: filtering a text and filtering the
    same text with its header lines already removed give the same result. *)
Theorem remove_unwanted_headers_idempotent (L : libs) (text : pystr) :
  remove_unwanted_headers L (remove_unwanted_headers L text)
  = remove_unwanted_headers L text
  /\ forall min_length,
       clean_and_keep_only_english L (remove_unwanted_headers L text) min_length
       = clean_and_keep_only_english L text min_length.
Proof.
  split; [apply remove_unwanted_headers_again|]. intros min_length.
  unfold clean_and_keep_only_english, valid_sentences.
  by rewrite remove_unwanted_headers_again.
Qed.

(** A text none of whose lines is a header line comes back unchanged. *)
Theorem remove_unwanted_headers_keeps_clean_text (L : libs) (text : pystr) :
  Forall (fun line => unwanted_line L line = false) (split NEWLINE text) ->
  remove_unwanted_headers L text = text.
Proof.
  intros H. unfold remove_unwanted_headers.
  rewrite (filter_kept L); [by apply join_split|].
  eapply Forall_impl; [exact H|]. by intros line ->.
Qed.

Definition two_line_order : pystr :=
  lit "The appeal is allowed." ++ NEWLINE ++ lit "No order as to costs.".

Lemma remove_unwanted_headers_keeps_clean_text_witness :
  remove_unwanted_headers (ascii_tables letters_detector) two_line_order
  = two_line_order.
Proof.
  apply (remove_unwanted_headers_keeps_clean_text
           (ascii_tables letters_detector) two_line_order).
  vm_compute. repeat constructor.
Defined.

(** ** Header lines are matched whatever their case *)

Lemma ascii_upper_ascii (c : char) : (ascii_upper c < 128)%N -> (c < 128)%N.
Proof.
  unfold ascii_upper.
  destruct (N.leb_spec 97 c), (N.leb_spec c 122); cbn [andb]; lia.
Qed.

Section HeaderCase.
Context (L : libs).
Hypothesis Hfaithful : ascii_faithful L.

Lemma upper_ascii (w : pystr) :
  Forall (fun c => (c < 128)%N) w -> upper L w = map ascii_upper w.
Proof.
  induction 1 as [|c w Hc _ IH]; [done|].
  unfold upper in *. cbn [flat_map map].
  by rewrite (proj1 (Hfaithful c Hc)), IH.
Qed.

Lemma upper_of_pattern (w pattern : pystr) :
  Forall (fun c => (c < 128)%N) pattern ->
  map ascii_upper w = pattern -> upper L w = pattern.
Proof.
  intros Hp E. rewrite upper_ascii; [done|].
  subst pattern. apply Forall_map in Hp.
  eapply Forall_impl; [exact Hp|]. intros c. apply ascii_upper_ascii.
Qed.

Lemma unwanted_line_header (pre w post : pystr) :
  map ascii_upper w = GAZETTE_OF_INDIA \/ map ascii_upper w = EXTRAORDINARY ->
  unwanted_line L (pre ++ w ++ post) = true.
Proof.
  intros Hw. unfold unwanted_line, upper. rewrite !flat_map_app.
  fold (upper L pre) (upper L w) (upper L post).
  destruct Hw as [Hw|Hw].
  - rewrite (upper_of_pattern w GAZETTE_OF_INDIA); [|by vm_compute; repeat constructor|done].
    destruct (strip_keeps (upper L pre) GAZETTE_OF_INDIA (upper L post))
      as (x' & y' & ->); [done|done|].
    by rewrite contains_middle.
  - rewrite (upper_of_pattern w EXTRAORDINARY); [|by vm_compute; repeat constructor|done].
    destruct (strip_keeps (upper L pre) EXTRAORDINARY (upper L post))
      as (x' & y' & ->); [done|done|].
    rewrite contains_middle. by rewrite orb_true_r.
Qed.

End HeaderCase.

(** A line that holds the words "gazette of india" or "extraordinary", in
    any mix of upper and lower case and with anything around them, is dropped
    as a whole: the text is treated as if the line were not there. *)
Theorem header_lines_are_dropped_whole (L : libs) (before after : list pystr)
    (pre w post : pystr) :
  ascii_faithful L ->
  map ascii_upper w = GAZETTE_OF_INDIA \/ map ascii_upper w = EXTRAORDINARY ->
  Forall (fun l => 10%N ∉ l) (before ++ (pre ++ w ++ post) :: after) ->
  remove_unwanted_headers L
    (join NEWLINE (before ++ (pre ++ w ++ post) :: after))
  = remove_unwanted_headers L (join NEWLINE (before ++ after)).
Proof.
  intros HL Hw Hlines.
  pose proof (unwanted_line_header L HL pre w post Hw) as Hline.
  unfold remove_unwanted_headers at 1.
  rewrite split_join_lines; [|by destruct before|done].
  rewrite List.filter_app. cbn [List.filter]. rewrite Hline. cbn [negb].
  rewrite <- List.filter_app.
  destruct (before ++ after) as [|l rest] eqn:E; [done|].
  unfold remove_unwanted_headers. rewrite split_join_lines; [done|done|].
  rewrite <- E. apply Forall_app in Hlines as [Hb [_ Ha]%Forall_cons].
  by apply Forall_app.
Qed.

Lemma header_lines_are_dropped_whole_witness :
  remove_unwanted_headers (ascii_tables letters_detector)
    (lit "REGISTERED NO. DL-33004/99" ++ NEWLINE
     ++ lit "The Gazette of India : Part II" ++ NEWLINE
     ++ lit "The appeal is allowed.")
  = lit "REGISTERED NO. DL-33004/99" ++ NEWLINE ++ lit "The appeal is allowed.".
Proof.
  refine (eq_trans
    (header_lines_are_dropped_whole (ascii_tables letters_detector)
       [lit "REGISTERED NO. DL-33004/99"] [lit "The appeal is allowed."]
       (lit "The ") (lit "Gazette of India") (lit " : Part II")
       (ascii_tables_faithful letters_detector) _ _) _).
  - left. vm_compute. reflexivity.
  - vm_compute. repeat constructor;
      intros H; repeat (apply elem_of_cons in H as [H|H]; [discriminate|]);
      inversion H.
  - vm_compute. reflexivity.
Defined.

(** ** The shape of the filter's output *)

Lemma spaced_ok_head (b : bool) (s : pystr) :
  head_ok s = true -> spaced_ok b s = spaced_ok false s.
Proof. destruct s as [|c s]; [done|]. simpl. by destruct (is_space c). Qed.

Lemma spaced_ok_app (b : bool) (a w : pystr) :
  a <> [] -> head_ok (rev a) = true ->
  spaced_ok b a = true -> spaced_ok false w = true ->
  spaced_ok b (a ++ w) = true.
Proof.
  intros Hne Hlast Ha Hw. revert b Ha.
  induction a as [|c a IH]; intros b Ha; [done|].
  destruct a as [|d a].
  - cbn [rev app head_ok] in Hlast. apply negb_true_iff in Hlast.
    cbn [app spaced_ok]. rewrite Hlast. exact Hw.
  - assert (head_ok (rev (d :: a)) = true) as Hlast'.
    { cbn [rev] in Hlast |- *.
      rewrite head_ok_app in Hlast; [done|]. by destruct (rev a). }
    change ((c :: d :: a) ++ w) with (c :: ((d :: a) ++ w)).
    cbn [spaced_ok] in Ha |- *. destruct (is_space c).
    + apply andb_true_iff in Ha as [-> Ha]. by apply IH.
    + by apply IH.
Qed.

Lemma join_units_spaced (us : list pystr) :
  Forall unit_ok us -> spaced_ok false (join PERIOD_SPACE us) = true.
Proof.
  induction 1 as [|u us Hu Hus IH]; [done|].
  destruct us as [|u2 rest]; [by destruct Hu as (_ & _ & _ & ? & _)|].
  change (join PERIOD_SPACE (u :: u2 :: rest))
    with (u ++ PERIOD_SPACE ++ join PERIOD_SPACE (u2 :: rest)).
  destruct Hu as (Hne & [_ Hlast]%andb_true_iff & _ & Hsp & _).
  apply spaced_ok_app; [done..|].
  unfold PERIOD_SPACE. cbn [app spaced_ok is_space]. cbn.
  rewrite spaced_ok_head; [done|].
  assert (tight (join PERIOD_SPACE (u2 :: rest)) = true) as [H _]%andb_true_iff;
    [|done].
  apply join_tight. eapply Forall_impl; [exact Hus|]. by intros v (? & ? & _).
Qed.

Lemma join_units_allowed (us : list pystr) :
  Forall unit_ok us ->
  Forall (fun c => allowed c = true) (join PERIOD_SPACE us).
Proof.
  intros Hus. apply Forall_forall. intros c [Hc|(u & Hu & Hc)]%join_chars.
  - by repeat (apply elem_of_cons in Hc as [->|Hc]; [done|]); inversion Hc.
  - rewrite Forall_forall in Hus. destruct (Hus u Hu) as (_ & _ & Hal & _).
    rewrite Forall_forall in Hal. by apply Hal.
Qed.

(** What the filter returns is empty or at least [min_length] characters
    long; it holds allow-listed characters only; it has no whitespace at
    either end, and its only whitespace is the single space, never two in a
    row. *)
Theorem filter_output_shape (L : libs) (text : pystr) (min_length : nat) :
  let out := clean_and_keep_only_english L text min_length in
  (out = [] \/ min_length <= length out)
  /\ Forall (fun c => allowed c = true) out
  /\ tight out = true
  /\ spaced_ok false out = true.
Proof.
  pose proof (valid_sentences_ok L text) as Hok.
  unfold clean_and_keep_only_english. rewrite (join_units_tight _ Hok).
  cbv zeta.
  destruct (Nat.ltb_spec (length (join PERIOD_SPACE (valid_sentences L text)))
              min_length) as [Hlt|Hge].
  - repeat split; [by left|constructor].
  - split; [by right|]. split; [by apply join_units_allowed|].
    split; [|by apply join_units_spaced].
    apply join_tight. eapply Forall_impl; [exact Hok|]. by intros v (? & ? & _).
Qed.

Lemma join_units_full_stops (us : list pystr) (x y : pystr) :
  Forall unit_ok us -> join PERIOD_SPACE us = x ++ 46%N :: y ->
  exists y', y = 32%N :: y'.
Proof.
  intros Hus. revert x. induction Hus as [|u us Hu Hus IH]; intros x E.
  - by destruct x.
  - destruct Hu as (_ & _ & _ & _ & Hdot).
    destruct us as [|u2 rest].
    + exfalso. apply Hdot. cbn in E. rewrite E. set_solver.
    + change (join PERIOD_SPACE (u :: u2 :: rest))
        with (u ++ 46%N :: 32%N :: join PERIOD_SPACE (u2 :: rest)) in E.
      apply cut_at_first in E as [[_ ->]|(x' & _ & E)]; [by eexists| |done].
      destruct x' as [|e x']; [discriminate|]. injection E as _ E.
      by apply (IH x').
Qed.

(** Every full stop of the filter's output is followed by a space: the
    output never ends with a full stop, whatever the input ends with. *)
Theorem filter_output_full_stops (L : libs) (text : pystr) (min_length : nat)
    (x y : pystr) :
  clean_and_keep_only_english L text min_length = x ++ 46%N :: y ->
  exists y', y = 32%N :: y'.
Proof.
  pose proof (valid_sentences_ok L text) as Hok.
  unfold clean_and_keep_only_english. rewrite (join_units_tight _ Hok).
  destruct (_ <? _)%nat; [by destruct x|].
  by apply join_units_full_stops.
Qed.

Lemma filter_output_full_stops_witness :
  clean_and_keep_only_english (ascii_tables letters_detector) order_text MIN_LENGTH
  = lit "The appeal is allowed. The order of the High Court is set aside"
  /\ exists y', lit " The order of the High Court is set aside" = 32%N :: y'.
Proof.
  split; [vm_compute; reflexivity|].
  apply (filter_output_full_stops (ascii_tables letters_detector) order_text
           MIN_LENGTH (lit "The appeal is allowed")).
  vm_compute. reflexivity.
Defined.

(* --------------------------------------------------------------------- *)
(** ** More on the orchestrator                                            *)
(* --------------------------------------------------------------------- *)

(** The test [if native_text.strip()] before the filter changes nothing:
    the filter returns the empty string on a blank text. *)
Lemma clean_guarded (L : libs) (text : pystr) :
  (if truthy (strip text)
   then clean_and_keep_only_english L text MIN_LENGTH else [])
  = clean_and_keep_only_english L text MIN_LENGTH.
Proof.
  destruct (strip text) as [|c s] eqn:E; [|done]. cbn [truthy].
  symmetry. by apply clean_blank, strip_nil_blank.
Qed.

Lemma truthy_nonempty (s : pystr) : truthy s = true <-> s <> [].
Proof. by destruct s. Qed.

(** The orchestrator in terms of the two filtered texts. *)
Lemma extract_text_from_pdf_cases (L : libs) (f : pdf_file)
    (order : Z -> list nat) (native_text ocr_text : pystr) :
  isfile f = true ->
  extract_pdf_with_pymupdf f = Ok native_text ->
  extract_pdf_with_ocr f DEFAULT_CHUNK order = Ok ocr_text ->
  extract_text_from_pdf L f order
  = let cleaned := clean_and_keep_only_english L native_text MIN_LENGTH in
    let cleaned_ocr := clean_and_keep_only_english L ocr_text MIN_LENGTH in
    if truthy cleaned then ([NativeExtraction], Ok (Some cleaned))
    else ([NativeExtraction; OcrFallback],
          Ok (if truthy cleaned_ocr then Some cleaned_ocr else None)).
Proof.
  intros Hfile Hnative Hocr. unfold extract_text_from_pdf, ocr_fallback.
  rewrite Hfile, Hnative, Hocr. cbn [negb]. rewrite clean_guarded. cbv zeta.
  destruct (truthy (clean_and_keep_only_english L native_text MIN_LENGTH));
    [done|].
  cbn. destruct (truthy (strip ocr_text)) eqn:E; cbn [negb]; [done|].
  rewrite (clean_blank L ocr_text); [done|].
  apply strip_nil_blank. by destruct (strip ocr_text).
Qed.

(** The OCR fallback runs exactly when the file is there and nothing is left
    of the native text after filtering; the result then is the filtered OCR
    text, or [None] when nothing is left of that either.  Otherwise the result
    is the filtered native text. *)
Theorem ocr_fallback_exactly_when_native_is_empty (L : libs) (f : pdf_file)
    (order : Z -> list nat) (native_text : pystr) :
  isfile f = true ->
  extract_pdf_with_pymupdf f = Ok native_text ->
  let cleaned := clean_and_keep_only_english L native_text MIN_LENGTH in
  (cleaned <> [] ->
     extract_text_from_pdf L f order = ([NativeExtraction], Ok (Some cleaned)))
  /\ (cleaned = [] ->
      exists ocr_text,
        extract_pdf_with_ocr f DEFAULT_CHUNK order = Ok ocr_text
        /\ extract_text_from_pdf L f order
           = ([NativeExtraction; OcrFallback],
              Ok (let cleaned_ocr :=
                    clean_and_keep_only_english L ocr_text MIN_LENGTH in
                  if truthy cleaned_ocr then Some cleaned_ocr else None)))
  /\ (OcrFallback ∈ (extract_text_from_pdf L f order).1 <-> cleaned = []).
Proof.
  intros Hfile Hnative cleaned.
  destruct (extract_pdf_with_ocr_total f DEFAULT_CHUNK order) as [ocr_text Hocr];
    [done|].
  rewrite (extract_text_from_pdf_cases L f order _ _ Hfile Hnative Hocr).
  cbv zeta. fold cleaned.
  destruct cleaned as [|c s] eqn:E; cbn [truthy].
  - split; [done|]. split; [intros _; by exists ocr_text|].
    split; [done|]. intros _. cbn. set_solver.
  - split; [done|]. split; [done|]. cbn. split; [|done].
    by intros [=]%list_elem_of_singleton.
Qed.

(** A scanned one-page judgment: no text layer, and an OCR engine that reads
    the page. *)
Definition scanned_order_page : page :=
  {| find_tables := Ok []; get_text := Ok [] |}.

Definition scanned_order_image : image :=
  {| save := Ok (); image_to_string := fun _ => Ok order_text;
     remove_tmp := Ok () |}.

Definition scanned_order_file : pdf_file :=
  {| isfile := true; fitz_open := Ok (document_of [scanned_order_page]);
     convert_from_path := fun r =>
       match r with
       | Some (a, b) => Ok (map (fun _ => scanned_order_image) (page_span a b))
       | None => Raised
       end |}.

Lemma ocr_fallback_exactly_when_native_is_empty_witness :
  extract_text_from_pdf (ascii_tables letters_detector) scanned_order_file
    (fun _ => [0])
  = ([NativeExtraction; OcrFallback],
     Ok (Some (lit "The appeal is allowed. The order of the High Court is set aside"))).
Proof.
  destruct (ocr_fallback_exactly_when_native_is_empty
              (ascii_tables letters_detector) scanned_order_file
              (fun _ => [0]) [] eq_refl eq_refl) as (_ & H & _).
  destruct (H eq_refl) as (ocr_text & Hocr & ->).
  assert (ocr_text = order_text) as ->.
  { vm_compute in Hocr. by injection Hocr as <-. }
  vm_compute. reflexivity.
Defined.

(** What the filter leaves of a text, as the orchestrator passes it on. *)
Definition presentable (r : option pystr) : Prop :=
  match r with
  | None => True
  | Some text =>
      MIN_LENGTH <= length text /\ tight text = true
      /\ Forall (fun c => allowed c = true) text
  end.

Lemma presentable_clean (L : libs) (text : pystr) :
  presentable (let cleaned := clean_and_keep_only_english L text MIN_LENGTH in
               if truthy cleaned then Some cleaned else None).
Proof.
  cbv zeta.
  destruct (filter_output_shape L text MIN_LENGTH) as (Hlen & Hal & Ht & _).
  destruct (clean_and_keep_only_english L text MIN_LENGTH) as [|c s] eqn:E;
    [done|].
  cbn [truthy presentable]. by destruct Hlen.
Qed.

Lemma collect_Raised {A} (rs : list (result A)) :
  collect rs = Raised <-> Raised ∈ rs.
Proof.
  induction rs as [|r rs IH]; cbn [collect].
  - split; [done|by intros ?%elem_of_nil].
  - rewrite elem_of_cons. destruct r as [a|]; cbn.
    + destruct (collect rs) as [l|]; cbn.
      * split; [done|]. intros [?|H]; [done|]. by apply IH in H.
      * split; [|done]. intros _. right. by apply IH.
    + split; [by left|done].
Qed.

(** The page loop fails to load a page exactly when one of the page objects
    of the document cannot be loaded. *)
Lemma pages_in_order_Raised (doc : document) :
  pages_in_order doc = Raised
  <-> exists page_index,
        page_index < page_count doc /\ load_page doc page_index = Raised.
Proof.
  unfold pages_in_order. rewrite collect_Raised. split.
  - intros (i & Hi & Hin)%list_elem_of_In%in_map_iff.
    apply in_seq in Hin. exists i. split; [lia|done].
  - intros (i & Hlt & Hi). apply list_elem_of_In, in_map_iff.
    exists i. split; [done|]. apply in_seq. lia.
Qed.

(** A file whose second page object cannot be loaded. *)
Definition torn_document : document :=
  {| page_count := 2;
     load_page := fun page_index =>
       match page_index with
       | 0 => Ok sample_page2
       | _ => Raised
       end;
     close := Ok () |}.

Definition torn_file : pdf_file :=
  {| isfile := true; fitz_open := Ok torn_document;
     convert_from_path := fun _ => Raised |}.

(** The native extractor returns the empty text for a path that is no file
    or that PyMuPDF cannot open.  Once the file is open it raises exactly when
    a page object cannot be loaded or the document cannot be closed: neither
    [doc[page_index]] nor [doc.close()] stands in a [try], and the text of the
    pages read before is lost. *)
Theorem native_extractor_failures (f : pdf_file) :
  (isfile f = false \/ fitz_open f = Raised ->
   extract_pdf_with_pymupdf f = Ok [])
  /\ (forall doc, isfile f = true -> fitz_open f = Ok doc ->
        (extract_pdf_with_pymupdf f = Raised
         <-> (exists page_index,
                page_index < page_count doc
                /\ load_page doc page_index = Raised)
             \/ close doc = Raised)).
Proof.
  split.
  - intros [Hf|Ho]; unfold extract_pdf_with_pymupdf.
    + by rewrite Hf.
    + rewrite Ho. by destruct (isfile f).
  - intros doc Hfile Hopen.
    rewrite (extract_pdf_with_pymupdf_opened f doc Hfile Hopen).
    rewrite <- pages_in_order_Raised.
    destruct (pages_in_order doc) as [pages|]; cbn.
    + destruct (close doc) as [[]|]; cbn.
      * split; [done|]. by intros [?|?].
      * split; [by right|done].
    + split; [by left|done].
Qed.

Lemma native_extractor_failures_witness :
  extract_pdf_with_pymupdf torn_file = Raised.
Proof.
  apply (proj2 (native_extractor_failures torn_file) torn_document
           eq_refl eq_refl).
  left. exists 1. split; [cbn; lia|reflexivity].
Defined.

(** What the orchestrator does, whatever the file: it raises when the native
    extractor raises, and else returns what the filter leaves. *)
Lemma extract_text_from_pdf_result (L : libs) (f : pdf_file)
    (order : Z -> list nat) :
  exists events res,
    extract_text_from_pdf L f order = (events, res)
    /\ (res = Raised /\ extract_pdf_with_pymupdf f = Raised
        \/ exists r, res = Ok r /\ presentable r
                     /\ extract_pdf_with_pymupdf f <> Raised).
Proof.
  destruct (isfile f) eqn:Hfile.
  - destruct (extract_pdf_with_pymupdf f) as [native|] eqn:Hnative.
    + destruct (extract_pdf_with_ocr_total f DEFAULT_CHUNK order)
        as [ocr Hocr]; [done|].
      rewrite (extract_text_from_pdf_cases L f order _ _ Hfile Hnative Hocr).
      cbv zeta.
      pose proof (presentable_clean L native) as Hn.
      pose proof (presentable_clean L ocr) as Ho.
      cbv zeta in Hn, Ho.
      destruct (truthy (clean_and_keep_only_english L native MIN_LENGTH));
        eexists _, _; (split; [reflexivity|]); right; by eexists.
    + unfold extract_text_from_pdf. rewrite Hfile, Hnative. cbn [negb].
      eexists _, _. split; [reflexivity|]. by left.
  - unfold extract_text_from_pdf, extract_pdf_with_pymupdf. rewrite Hfile.
    cbn [negb]. eexists _, _. split; [reflexivity|]. right. by eexists.
Qed.

(** The orchestrator never returns a text shorter than 50 characters:
    whenever it returns, its result is [None], or a text of at least 50
    allow-listed characters without whitespace at either end.  It raises
    exactly when the native extractor raises, so it returns for every file
    whose page objects load and which closes.  For a path that is no file it
    returns [None], and no extraction is attempted. *)
Theorem extract_text_from_pdf_never_empty (L : libs) (f : pdf_file)
    (order : Z -> list nat) :
  (forall r, (extract_text_from_pdf L f order).2 = Ok r ->
     match r with
     | None => True
     | Some text =>
         50 <= length text /\ tight text = true
         /\ Forall (fun c => allowed c = true) text
     end)
  /\ ((extract_text_from_pdf L f order).2 = Raised
      <-> extract_pdf_with_pymupdf f = Raised)
  /\ (forall doc pages,
        isfile f = true -> fitz_open f = Ok doc -> loads doc pages ->
        close doc = Ok () ->
        exists r, (extract_text_from_pdf L f order).2 = Ok r)
  /\ (isfile f = false -> extract_text_from_pdf L f order = ([], Ok None)).
Proof.
  destruct (extract_text_from_pdf_result L f order)
    as (events & res & E & Hres).
  rewrite E. cbn [snd]. split; [|split; [|split]].
  - intros r ->. destruct Hres as [[? _]|(r' & [= <-] & Hr & _)]; done.
  - destruct Hres as [[-> Hn]|(r & -> & _ & Hn)]; [done|]. by split.
  - intros doc pages Hfile Hopen Hloads Hclose.
    destruct Hres as [[_ Hn]|(r & -> & _)]; [|by eexists].
    by rewrite (extract_pdf_with_pymupdf_pieces f doc pages Hfile Hopen Hloads
                  Hclose) in Hn.
  - intros Hfile. rewrite <- E. unfold extract_text_from_pdf. by rewrite Hfile.
Qed.

Lemma extract_text_from_pdf_never_empty_witness :
  exists text,
    (extract_text_from_pdf (ascii_tables letters_detector) typed_file
       (fun _ => [])).2 = Ok (Some text)
    /\ 50 <= length text.
Proof.
  destruct (extract_text_from_pdf_never_empty (ascii_tables letters_detector)
              typed_file (fun _ => [])) as (Hshape & _ & Hreturns & _).
  destruct (Hreturns (document_of [typed_page]) [typed_page] eq_refl eq_refl
              (document_of_loads _) eq_refl) as [r Hr].
  pose proof (Hshape r Hr) as Hfit.
  assert ((extract_text_from_pdf (ascii_tables letters_detector) typed_file
             (fun _ => [])).2
          = Ok (Some (lit "The appeal is allowed. The order of the High Court is set aside")))
    as E by (vm_compute; reflexivity).
  rewrite E in Hr. injection Hr as <-.
  eexists. split; [exact E|]. by destruct Hfit.
Defined.

(* --------------------------------------------------------------------- *)
(** ** parsingText2.py, part 5: remote files and the entry point           *)
(* --------------------------------------------------------------------- *)

(** What [extract_text_from_pdf_url] sees of the network and of its scratch
    file: the answer to [session.head] (the status code and the URL after
    redirects), the file "temp.pdf" as the extractors find it once
    [session.get] has succeeded and its body has been written, and the
    removal of that file.  Each of the three may raise. *)
Record web := {
  session_head : pystr -> result (Z * pystr);
  session_get : pystr -> result pdf_file;
  remove_temp_pdf : result ();
}.

(** <<
    try:
        head_response = session.head(url, ...)
        if head_response.status_code == 200: final_url = head_response.url
        else: final_url = url
        response = session.get(final_url, ...); response.raise_for_status()
        with open("temp.pdf", "wb") as f: f.write(response.content)
        text = extract_text_from_pdf("temp.pdf")
        if os.path.exists("temp.pdf"): os.remove("temp.pdf")
        return text
    except requests.exceptions.RequestException as e: return None
    except Exception as e: return None
    >> *)
Definition extract_text_from_pdf_url (L : libs) (net : web) (url : pystr)
    (order : Z -> list nat) : list event * result (option pystr) :=
  match session_head net url with
  | Raised => ([], Ok None)
  | Ok (status_code, head_url) =>
      let final_url := if (status_code =? 200)%Z then head_url else url in
      match session_get net final_url with
      | Raised => ([], Ok None)
      | Ok temp_pdf =>
          let '(events, r) := extract_text_from_pdf L temp_pdf order in
          (events,
           try_except (text ← r; _ ← remove_temp_pdf net; mret text) (Ok None))
      end
  end.

Definition HTTP : pystr := Eval vm_compute in lit "http://".
Definition HTTPS : pystr := Eval vm_compute in lit "https://".

(** <<
    try:
        if url_or_path.startswith(('http://', 'https://')):
            result = extract_text_from_pdf_url(url_or_path)
        else:
            result = extract_text_from_pdf(url_or_path)
        ...
        return result
    except Exception as e:
        return None
    >>
    [local] gives the file behind a local path. *)
Definition process_pdf (L : libs) (net : web) (local : pystr -> pdf_file)
    (url_or_path : pystr) (order : Z -> list nat)
  : list event * result (option pystr) :=
  let '(events, result) :=
    if starts_with HTTP url_or_path || starts_with HTTPS url_or_path
    then extract_text_from_pdf_url L net url_or_path order
    else extract_text_from_pdf L (local url_or_path) order in
  (events, try_except result (Ok None)).

Lemma extract_text_from_pdf_url_total (L : libs) (net : web) (url : pystr)
    (order : Z -> list nat) :
  exists events r,
    extract_text_from_pdf_url L net url order = (events, Ok r) /\ presentable r.
Proof.
  unfold extract_text_from_pdf_url.
  destruct (session_head net url) as [[status_code head_url]|];
    [|by eexists _, _].
  destruct (session_get net _) as [temp_pdf|]; [|by eexists _, _].
  destruct (extract_text_from_pdf_result L temp_pdf order)
    as (events & res & -> & [[-> _]|(r & -> & Hr & _)]).
  - by eexists _, _.
  - cbn. destruct (remove_temp_pdf net) as [[]|]; by eexists _, _.
Qed.

(** The entry point never raises, and like the orchestrator it returns
    [None] or a text of at least 50 characters.  A path that does not start
    with "http://" or "https://" (in lower case) is read as a local file: the
    result is the orchestrator's, and [None] when the orchestrator raises; for
    a URL, nothing is extracted when the HEAD or the GET request fails, and a
    text that was extracted is given up when "temp.pdf" cannot be removed. *)
Theorem process_pdf_never_raises (L : libs) (net : web)
    (local : pystr -> pdf_file) (url_or_path : pystr) (order : Z -> list nat) :
  (exists events r,
     process_pdf L net local url_or_path order = (events, Ok r)
     /\ match r with
        | None => True
        | Some text =>
            50 <= length text /\ tight text = true
            /\ Forall (fun c => allowed c = true) text
        end)
  /\ (starts_with HTTP url_or_path = false ->
      starts_with HTTPS url_or_path = false ->
      (process_pdf L net local url_or_path order).1
      = (extract_text_from_pdf L (local url_or_path) order).1
      /\ (forall r,
            (extract_text_from_pdf L (local url_or_path) order).2 = Ok r ->
            (process_pdf L net local url_or_path order).2 = Ok r)
      /\ ((extract_text_from_pdf L (local url_or_path) order).2 = Raised ->
          (process_pdf L net local url_or_path order).2 = Ok None))
  /\ (starts_with HTTP url_or_path = true
      \/ starts_with HTTPS url_or_path = true ->
      (session_head net url_or_path = Raised ->
       process_pdf L net local url_or_path order = ([], Ok None))
      /\ (forall status_code head_url,
            session_head net url_or_path = Ok (status_code, head_url) ->
            session_get net (if (status_code =? 200)%Z then head_url
                             else url_or_path) = Raised ->
            process_pdf L net local url_or_path order = ([], Ok None))
      /\ (forall status_code head_url temp_pdf,
            session_head net url_or_path = Ok (status_code, head_url) ->
            session_get net (if (status_code =? 200)%Z then head_url
                             else url_or_path) = Ok temp_pdf ->
            remove_temp_pdf net = Raised ->
            (process_pdf L net local url_or_path order).2 = Ok None)).
Proof.
  split; [|split].
  - unfold process_pdf.
    destruct (starts_with HTTP url_or_path || starts_with HTTPS url_or_path).
    + destruct (extract_text_from_pdf_url_total L net url_or_path order)
        as (events & r & -> & Hr). by eexists _, _.
    + destruct (extract_text_from_pdf_result L (local url_or_path) order)
        as (events & res & -> & [[-> _]|(r & -> & Hr & _)]);
        by eexists _, _.
  - intros H1 H2. unfold process_pdf. rewrite H1, H2. cbn [orb].
    destruct (extract_text_from_pdf L (local url_or_path) order)
      as [events res]. cbn [fst snd].
    split; [done|]. split; [by intros r ->|by intros ->].
  - intros Hurl.
    assert (starts_with HTTP url_or_path || starts_with HTTPS url_or_path = true)
      as Hweb by (destruct Hurl as [-> | ->]; [done|apply orb_true_r]).
    unfold process_pdf, extract_text_from_pdf_url. rewrite Hweb.
    split; [|split].
    + intros H. by rewrite H.
    + intros status_code head_url H1 H2. by rewrite H1, H2.
    + intros status_code head_url temp_pdf H1 H2 H3. rewrite H1, H2, H3.
      destruct (extract_text_from_pdf L temp_pdf order) as [events [[r|]|]];
        done.
Qed.

(** The sample judgment behind a URL that redirects, and on disk. *)
Definition court_url : pystr := lit "https://host/judgment?id=7".

Definition redirecting_web : web :=
  {| session_head := fun _ => Ok (200%Z, lit "https://mirror/judgment-7.pdf");
     session_get := fun url =>
       if eqb url (lit "https://mirror/judgment-7.pdf") then Ok typed_file
       else Raised;
     remove_temp_pdf := Ok () |}.

Lemma process_pdf_never_raises_witness :
  process_pdf (ascii_tables letters_detector) redirecting_web
    (fun _ => typed_file) (lit "HTTPS://host/judgment.pdf") (fun _ => [])
  = ([NativeExtraction],
     Ok (Some (lit "The appeal is allowed. The order of the High Court is set aside")))
  /\ process_pdf (ascii_tables letters_detector) redirecting_web
       (fun _ => typed_file) court_url (fun _ => [])
     = ([NativeExtraction],
        Ok (Some (lit "The appeal is allowed. The order of the High Court is set aside"))).
Proof.
  split; [|vm_compute; reflexivity].
  destruct (process_pdf_never_raises (ascii_tables letters_detector)
              redirecting_web (fun _ => typed_file)
              (lit "HTTPS://host/judgment.pdf") (fun _ => [])) as (_ & H & _).
  destruct H as (H1 & H2 & _); [vm_compute; reflexivity..|].
  specialize (H2 (Some (lit "The appeal is allowed. The order of the High Court is set aside"))).
  rewrite (surjective_pairing (process_pdf _ _ _ _ _)).
  rewrite H1, H2; vm_compute; reflexivity.
Defined.

(* --------------------------------------------------------------------- *)
(** ** Page markers                                                       *)
(* --------------------------------------------------------------------- *)

(** A line that fails a header test is dropped: the text is treated as if
    the line were not there. *)
Lemma unwanted_line_is_dropped (L : libs) (before after : list pystr)
    (line : pystr) :
  unwanted_line L line = true ->
  Forall (fun l => 10%N ∉ l) (before ++ line :: after) ->
  remove_unwanted_headers L (join NEWLINE (before ++ line :: after))
  = remove_unwanted_headers L (join NEWLINE (before ++ after)).
Proof.
  intros Hline Hlines.
  unfold remove_unwanted_headers at 1.
  rewrite split_join_lines; [|by destruct before|done].
  rewrite List.filter_app. cbn [List.filter]. rewrite Hline. cbn [negb].
  rewrite <- List.filter_app.
  destruct (before ++ after) as [|l rest] eqn:E; [done|].
  unfold remove_unwanted_headers. rewrite split_join_lines; [done|done|].
  rewrite <- E. apply Forall_app in Hlines as [Hb [_ Ha]%Forall_cons].
  by apply Forall_app.
Qed.

Lemma lstrip_app_blank (ws s : pystr) :
  blank ws = true -> lstrip (ws ++ s) = lstrip s.
Proof.
  induction ws as [|c ws IH]; [done|]. cbn.
  intros [-> H]%andb_true_iff. by apply IH.
Qed.

(** [strip] takes off the whitespace around a text that has none at its
    ends. *)
Lemma strip_blank_around (ws s ws' : pystr) :
  blank ws = true -> blank ws' = true -> tight s = true ->
  strip (ws ++ s ++ ws') = s.
Proof.
  intros Hws Hws' [Hh Ht]%andb_true_iff. unfold strip, rstrip.
  rewrite (lstrip_app_blank ws _ Hws).
  destruct s as [|c s]; [by rewrite app_nil_l, (lstrip_blank ws' Hws')|].
  rewrite (head_ok_lstrip ((c :: s) ++ ws')) by done.
  rewrite rev_app_distr, lstrip_app_blank by by rewrite blank_rev.
  rewrite (head_ok_lstrip _ Ht). apply rev_involutive.
Qed.

Section PageMarkers.
Context (L : libs).
Hypothesis Hfaithful : ascii_faithful L.

Lemma skip_digits_all (digits rest : pystr) :
  Forall (fun c => ascii_digit c = true) digits ->
  skip_digits L (digits ++ 93%N :: rest) = 93%N :: rest.
Proof.
  induction 1 as [|c digits Hc _ IH]; cbn [app skip_digits].
  - by rewrite (proj2 (Hfaithful 93%N eq_refl)).
  - assert (c < 128)%N as Hlt.
    { unfold ascii_digit in Hc. apply andb_true_iff in Hc as [_ Hc%N.leb_le]. lia. }
    by rewrite (proj2 (Hfaithful c Hlt)), Hc.
Qed.

Lemma digit_not_space (c : char) : ascii_digit c = true -> is_space c = false.
Proof.
  unfold ascii_digit. intros [H1%N.leb_le H2%N.leb_le]%andb_true_iff.
  unfold is_space.
  repeat match goal with
  | |- context [N.leb ?a ?b] => destruct (N.leb_spec a b); try lia
  | |- context [N.eqb ?a ?b] => destruct (N.eqb_spec a b); try lia
  end; done.
Qed.

Lemma unwanted_line_page_marker (ws digits ws' : pystr) :
  digits <> [] ->
  Forall (fun c => ascii_digit c = true) digits ->
  Forall (fun c => is_space c = true /\ (c < 128)%N) (ws ++ ws') ->
  unwanted_line L (ws ++ digits ++ [93%N] ++ ws') = true.
Proof.
  intros Hne Hd [Hws Hws']%Forall_app.
  assert (forall s, Forall (fun c => is_space c = true /\ (c < 128)%N) s ->
            blank s = true /\ Forall (fun c => (c < 128)%N) s
            /\ map ascii_upper s = s) as Hspaces.
  { induction 1 as [|c s [Hc Hlt] _ (IH1 & IH2 & IH3)]; [done|].
    repeat split.
    - unfold blank in *. cbn [forallb]. by rewrite Hc, IH1.
    - by constructor.
    - cbn [map]. rewrite IH3. f_equal. unfold ascii_upper.
      destruct (N.leb_spec 97 c), (N.leb_spec c 122); cbn [andb]; try done.
      exfalso. revert Hc. unfold is_space.
      repeat match goal with
      | |- context [N.leb ?a ?b] => destruct (N.leb_spec a b); try lia
      | |- context [N.eqb ?a ?b] => destruct (N.eqb_spec a b); try lia
      end; done. }
  destruct (Hspaces ws Hws) as (Bws & Aws & Uws).
  destruct (Hspaces ws' Hws') as (Bws' & Aws' & Uws').
  assert (Forall (fun c => (c < 128)%N) digits /\ map ascii_upper digits = digits)
    as [Ad Ud].
  { clear Hne. induction Hd as [|c s Hc _ [IH1 IH2]]; [done|].
    unfold ascii_digit in Hc.
    apply andb_true_iff in Hc as [H1%N.leb_le H2%N.leb_le].
    split; [constructor; [lia|done]|]. cbn. rewrite IH2. f_equal.
    unfold ascii_upper. destruct (N.leb_spec 97 c); [lia|done]. }
  unfold unwanted_line.
  rewrite (upper_ascii L Hfaithful).
  2:{ repeat (apply Forall_app; split); try done. by repeat constructor. }
  rewrite !map_app, Uws, Ud, Uws'. cbn [map].
  change (ascii_upper 93) with 93%N.
  rewrite (app_assoc digits), strip_blank_around; [|done|done|].
  - unfold is_page_marker.
    destruct digits as [|d ds]; [done|].
    apply Forall_cons in Hd as [Hd Hds].
    cbn [app lstrip]. rewrite (digit_not_space d Hd).
    destruct (Forall_cons_1 _ _ _ Ad) as [Hlt _].
    rewrite (proj2 (Hfaithful d Hlt)), Hd. cbn [andb].
    rewrite (skip_digits_all ds [] Hds). by rewrite !orb_true_r.
  - unfold tight. rewrite rev_app_distr. cbn [rev app head_ok is_space].
    destruct digits as [|d ds]; [done|].
    apply Forall_cons in Hd as [Hd _].
    cbn [app head_ok]. by rewrite (digit_not_space d Hd).
Qed.

End PageMarkers.

(** A line that holds nothing but a number followed by a closing bracket,
    with ASCII whitespace around it at most, is dropped as a page marker. *)
Theorem page_marker_lines_are_dropped (L : libs) (before after : list pystr)
    (ws digits ws' : pystr) :
  ascii_faithful L ->
  digits <> [] ->
  Forall (fun c => ascii_digit c = true) digits ->
  Forall (fun c => is_space c = true /\ (c < 128)%N) (ws ++ ws') ->
  Forall (fun l => 10%N ∉ l)
         (before ++ (ws ++ digits ++ [93%N] ++ ws') :: after) ->
  remove_unwanted_headers L
    (join NEWLINE (before ++ (ws ++ digits ++ [93%N] ++ ws') :: after))
  = remove_unwanted_headers L (join NEWLINE (before ++ after)).
Proof.
  intros HL Hne Hd Hws Hlines.
  apply unwanted_line_is_dropped; [|done].
  by apply unwanted_line_page_marker.
Qed.

Lemma page_marker_lines_are_dropped_witness :
  remove_unwanted_headers (ascii_tables letters_detector)
    (lit "The appeal is allowed." ++ NEWLINE
     ++ lit "  12] " ++ NEWLINE
     ++ lit "No order as to costs.")
  = lit "The appeal is allowed." ++ NEWLINE ++ lit "No order as to costs.".
Proof.
  refine (eq_trans
    (page_marker_lines_are_dropped (ascii_tables letters_detector)
       [lit "The appeal is allowed."] [lit "No order as to costs."]
       (lit "  ") (lit "12") (lit " ")
       (ascii_tables_faithful letters_detector) _ _ _ _) _).
  - discriminate.
  - by repeat constructor.
  - vm_compute. by repeat constructor.
  - vm_compute. repeat constructor;
      intros H; repeat (apply elem_of_cons in H as [H|H]; [discriminate|]);
      inversion H.
  - vm_compute. reflexivity.
Defined.

End ParsingText2.

(* ===================================================================== *)
(** * OCR_parsing_hin.py                                                  *)
(* ===================================================================== *)
Module OcrParsingHin.
Import Py Exn Pdf.

Definition NEWLINE : pystr := [10%N].

(** The scratch area [pdf_to_text] writes to: [os.makedirs], the write of the
    output text file and the final [os.listdir] of the image directory. *)
Record scratch := {
  makedirs : result ();
  write_text : pystr -> result ();
  listdir : result ();
}.

(** <<
    image, lang, index = args
    try:
        image.save(image_path, 'PNG')
        text = pytesseract.image_to_string(image_path, lang=lang)
        try: os.remove(image_path)
        except Exception as e: logger.warning(...)
        return text
    except Exception as e:
        return ""
    >> *)
Definition process_image (args : image * pystr * nat) : result pystr :=
  let '(image, lang, index) := args in
  try_except
    (_ ← save image;
     text ← image_to_string image lang;
     _ ← try_except (remove_tmp image) (Ok ());
     mret text)
    (Ok []).

(** The body of the loop over [as_completed(futures)]: a text is kept when
    it is non-empty and not blank; an exception of [future.result()] is
    logged and the loop goes on. *)
Definition keep_text (extracted_text : list pystr) (r : result pystr)
  : list pystr :=
  match r with
  | Ok text =>
      if truthy text && truthy (strip text)
      then extracted_text ++ [text]
      else extracted_text
  | Raised => extracted_text
  end.

(** [pdf_to_text(pdf_path, output_txt_path, max_workers, lang)]; [order] is
    the order in which the pool's workers finish the submitted calls. *)
Definition pdf_to_text (fs : scratch) (f : pdf_file) (lang : pystr)
    (order : list nat) : result pystr :=
  try_except
    (_ ← makedirs fs;
     pages ← convert_from_path f None;
     let process_args := imap (fun i page => (page, lang, i)) pages in
     let extracted_text :=
       fold_left keep_text
         (Pool.as_completed process_image process_args order) [] in
     _ ← write_text fs (join NEWLINE extracted_text);
     _ ← listdir fs;
     mret (join NEWLINE extracted_text))
    (Ok []).

(** The text [process_image] returns for an image: it never raises. *)
Definition image_text (lang : pystr) (img : image) : pystr :=
  match save img with
  | Raised => []
  | Ok _ =>
      match image_to_string img lang with
      | Ok text => text
      | Raised => []
      end
  end.

Definition nonblank (text : pystr) : bool :=
  truthy text && truthy (strip text).

Lemma process_image_total (img : image) (lang : pystr) (i : nat) :
  process_image (img, lang, i) = Ok (image_text lang img).
Proof.
  unfold process_image, image_text.
  destruct (save img) as [[]|]; [|done]. cbn.
  destruct (image_to_string img lang) as [text|]; [|done]. cbn.
  by destruct (remove_tmp img).
Qed.

Lemma fold_keep_text (texts : list pystr) (acc : list pystr) :
  fold_left keep_text (map Ok texts) acc = acc ++ List.filter nonblank texts.
Proof.
  revert acc; induction texts as [|t texts IH]; intros acc; simpl.
  - by rewrite app_nil_r.
  - rewrite IH. unfold nonblank at 2.
    destruct (truthy t && truthy (strip t)); [|done].
    by rewrite <- app_assoc.
Qed.

(** With a scratch area that works, the text of [pdf_to_text] is made of the
    non-blank page texts in the order the workers finished them. *)
Lemma pdf_to_text_completion_order (fs : scratch) (f : pdf_file)
    (lang : pystr) (order : list nat) (pages : list image) :
  makedirs fs = Ok () -> (forall t, write_text fs t = Ok ()) ->
  listdir fs = Ok () ->
  convert_from_path f None = Ok pages ->
  Pool.complete pages order ->
  pdf_to_text fs f lang order
  = Ok (join NEWLINE
          (List.filter nonblank
             (omap (fun i => image_text lang <$> pages !! i) order))).
Proof.
  intros Hmk Hwr Hls Hconv Hc. unfold pdf_to_text.
  rewrite Hmk, Hconv. cbn.
  rewrite Pool.as_completed_in_completion_order
    by (unfold Pool.complete; by rewrite length_imap).
  set (texts := omap (fun i => image_text lang <$> pages !! i) order).
  assert (omap (fun i => process_image <$>
                  imap (fun i page => (page, lang, i)) pages !! i) order
          = map Ok texts) as ->.
  { unfold texts. change (map Ok ?l) with (Ok <$> l).
    rewrite list_fmap_omap.
    apply list_omap_ext, Forall2_same_length_lookup_2; [done|].
    intros i j k Hj Hk. assert (j = k) as -> by congruence.
    rewrite list_lookup_imap. destruct (pages !! k) as [img|]; [|done].
    cbn [fmap option_fmap option_map]. by rewrite process_image_total. }
  rewrite fold_keep_text. cbn. by rewrite Hwr, Hls.
Qed.

Lemma process_image_calls (lang : pystr) (pages : list image) :
  map process_image (imap (fun i page => (page, lang, i)) pages)
  = map (fun img => Ok (image_text lang img)) pages.
Proof.
  apply list_eq; intros i.
  change (map ?g ?l) with (g <$> l).
  rewrite !list_lookup_fmap, list_lookup_imap.
  destruct (pages !! i) as [img|]; [|done].
  cbn [fmap option_fmap option_map]. by rewrite process_image_total.
Qed.

(** [pdf_to_text] sees its page images only through the text each OCR call
    returns. *)
Lemma pdf_to_text_texts (fs : scratch) (f g : pdf_file) (lang : pystr)
    (order : list nat) (pages pages' : list image) :
  convert_from_path f None = Ok pages ->
  convert_from_path g None = Ok pages' ->
  map (image_text lang) pages = map (image_text lang) pages' ->
  pdf_to_text fs f lang order = pdf_to_text fs g lang order.
Proof.
  intros Hf Hg Heq. unfold pdf_to_text. rewrite Hf, Hg.
  destruct (makedirs fs) as [[]|]; [|done]. cbn.
  rewrite !(Pool.as_completed_map process_image), !process_image_calls.
  rewrite <- !(map_map (image_text lang) Ok). by rewrite Heq.
Qed.

(** A scanned two-page judgment and a scratch area that works. *)
Definition scanned_page (text : pystr) : image :=
  {| save := Ok (); image_to_string := fun _ => Ok text; remove_tmp := Ok () |}.

Definition scan (pages : list image) : pdf_file :=
  {| isfile := true; fitz_open := Raised;
     convert_from_path := fun _ => Ok pages |}.

Definition working_scratch : scratch :=
  {| makedirs := Ok (); write_text := fun _ => Ok (); listdir := Ok () |}.

Definition two_page_scan : pdf_file :=
  scan [scanned_page (lit "first page"); scanned_page (lit "second page")].

(** C1 (as the code has it). [pdf_to_text] gathers the page texts with
    [as_completed] and never puts them back in page order: on a two-page scan
    whose second page finishes first, the text starts with the second page.
    The same scan yields the page order only when the pages happen to finish
    in page order. *)
Theorem pdf_to_text_follows_completion_order :
  Pool.complete [scanned_page (lit "first page");
                 scanned_page (lit "second page")] [1; 0]
  /\ pdf_to_text working_scratch two_page_scan (lit "hin") [0; 1]
     = Ok (lit "first page" ++ NEWLINE ++ lit "second page")
  /\ pdf_to_text working_scratch two_page_scan (lit "hin") [1; 0]
     = Ok (lit "second page" ++ NEWLINE ++ lit "first page").
Proof.
  split; [apply perm_swap|]. split; vm_compute; reflexivity.
Qed.

(** ** Which page texts [pdf_to_text] returns *)

Lemma lookup_all {A B} (h : A -> B) (pre l : list A) :
  omap (fun i => h <$> (pre ++ l) !! i) (seq (length pre) (length l))
  = map h l.
Proof.
  revert pre; induction l as [|x l IH]; intros pre; [done|].
  cbn [length seq omap list_omap map].
  rewrite list_lookup_middle by done. cbn. f_equal.
  specialize (IH (pre ++ [x])). rewrite <- app_assoc, length_app in IH.
  cbn [length app] in IH. by rewrite Nat.add_1_r in IH.
Qed.

Lemma filter_Permutation {A} (p : A -> bool) (l1 l2 : list A) :
  Permutation l1 l2 -> Permutation (List.filter p l1) (List.filter p l2).
Proof.
  induction 1 as [|x l1 l2 _ IH|x y l|l1 l2 l3 _ IH1 _ IH2]; simpl.
  - done.
  - destruct (p x); [by constructor|done].
  - destruct (p x), (p y); try done. apply perm_swap.
  - by etrans.
Qed.

(** With a scratch area that works, [pdf_to_text] returns every page text
    that is not blank, each once, joined by line feeds; blank page texts are
    left out.  The order is the order in which the pool finished the pages:
    it is the page order when the pages finish in page order. *)
Theorem pdf_to_text_keeps_every_nonblank_page (fs : scratch) (f : pdf_file)
    (lang : pystr) (order : list nat) (pages : list image) :
  makedirs fs = Ok () -> (forall t, write_text fs t = Ok ()) ->
  listdir fs = Ok () ->
  convert_from_path f None = Ok pages ->
  Pool.complete pages order ->
  exists pieces,
    pdf_to_text fs f lang order = Ok (join NEWLINE pieces)
    /\ Permutation pieces
         (List.filter nonblank (map (image_text lang) pages))
    /\ (order = seq 0 (length pages) ->
        pieces = List.filter nonblank (map (image_text lang) pages)).
Proof.
  intros Hmk Hwr Hls Hconv Hc.
  exists (List.filter nonblank
            (omap (fun i => image_text lang <$> pages !! i) order)).
  split; [by apply pdf_to_text_completion_order|].
  pose proof (lookup_all (image_text lang) [] pages) as Hall.
  cbn [app length] in Hall. split.
  - apply filter_Permutation. rewrite <- Hall.
    apply omap_Permutation, Hc.
  - intros ->. by rewrite Hall.
Qed.

(** Three scanned pages, the second one empty; the pool finishes them last
    page first. *)
Definition three_page_scan : pdf_file :=
  scan [scanned_page (lit "first page"); scanned_page (lit "  ");
        scanned_page (lit "third page")].

Lemma pdf_to_text_keeps_every_nonblank_page_witness :
  exists pieces,
    pdf_to_text working_scratch three_page_scan (lit "hin") [2; 1; 0]
    = Ok (join NEWLINE pieces)
    /\ Permutation pieces [lit "first page"; lit "third page"].
Proof.
  destruct (pdf_to_text_keeps_every_nonblank_page working_scratch
              three_page_scan (lit "hin") [2; 1; 0]
              [scanned_page (lit "first page"); scanned_page (lit "  ");
               scanned_page (lit "third page")])
    as (pieces & H & Hperm & _); try reflexivity.
  - unfold Pool.complete. cbn [length seq].
    symmetry. apply (Permutation_rev [0; 1; 2]).
  - exists pieces. split; [exact H|exact Hperm].
Defined.

(** [pdf_to_text] returns the empty string, and does not raise, when the
    image directory cannot be made, when the PDF cannot be turned into images,
    when the output file cannot be written, and when the image directory
    cannot be listed afterwards; in the last two cases the page texts that
    were read are given up. *)
Theorem pdf_to_text_gives_up_on_document_failure (fs : scratch)
    (f : pdf_file) (lang : pystr) (order : list nat) :
  makedirs fs = Raised \/ convert_from_path f None = Raised
  \/ (forall t, write_text fs t = Raised) \/ listdir fs = Raised ->
  pdf_to_text fs f lang order = Ok [].
Proof.
  intros H. unfold pdf_to_text.
  destruct (makedirs fs) as [[]|] eqn:Hmk; [|done].
  destruct (convert_from_path f None) as [pages|] eqn:Hconv; [|done].
  destruct H as [H|[H|[H|H]]]; [done|done| |].
  - cbn. by rewrite H.
  - cbn. rewrite H. by destruct (write_text fs _) as [[]|].
Qed.

(** The scratch area of [working_scratch], but the image directory cannot
    be listed once the text has been written. *)
Definition unlistable_scratch : scratch :=
  {| makedirs := Ok (); write_text := fun _ => Ok (); listdir := Raised |}.

Lemma pdf_to_text_gives_up_on_document_failure_witness :
  pdf_to_text unlistable_scratch two_page_scan (lit "hin") [0; 1] = Ok [].
Proof.
  apply pdf_to_text_gives_up_on_document_failure. right. right. right.
  reflexivity.
Defined.

End OcrParsingHin.

(* ===================================================================== *)
(** * Page-local faults (parsingText2.py and OCR_parsing_hin.py)          *)
(* ===================================================================== *)
Module PageFaults.
Import Py Exn Pdf.
Import ParsingText2 OcrParsingHin.

(** A file PyMuPDF opens as a document with the pages [pages], each of which
    loads. *)
Definition opened (pages : list page) : pdf_file :=
  {| isfile := true; fitz_open := Ok (document_of pages);
     convert_from_path := fun _ => Raised |}.

(** The page [p] with a table detector that finds nothing. *)
Definition without_tables (p : page) : page :=
  {| find_tables := Ok []; get_text := get_text p |}.

(** A page image on which OCR reads nothing. *)
Definition blank_image : image :=
  {| save := Ok (); image_to_string := fun _ => Ok []; remove_tmp := Ok () |}.

(** What a page adds to the output of the native extractor, in terms of the
    two per-page functions: the table lines, then the trimmed text unless it
    is blank. *)
Definition page_yield (p : page) : list pystr :=
  match extract_tables_from_page p, extract_text_no_tables p with
  | Ok table_lines, Ok normal_text =>
      table_lines
      ++ (if truthy (strip normal_text) then [strip normal_text] else [])
  | _, _ => []
  end.

Lemma page_yield_pieces (p : page) : page_yield p = page_pieces p.
Proof.
  unfold page_yield, page_pieces, page_prose, extract_text_no_tables.
  rewrite extract_tables_from_page_lines.
  by destruct (get_text p) as [t|].
Qed.

Lemma pdf_to_text_total (fs : scratch) (f : pdf_file) (lang : pystr)
    (order : list nat) :
  exists text, pdf_to_text fs f lang order = Ok text.
Proof.
  unfold pdf_to_text, try_except.
  match goal with |- context [match ?b with Ok _ => _ | Raised => _ end] =>
    destruct b; by eexists end.
Qed.

(** A page with a table that reads and a table whose extraction fails. *)
Definition half_read_page : page :=
  {| find_tables := Ok [parties_table; broken_table];
     get_text := Ok (lit "ORDER") |}.

(** C3 (as stated) fails.  On [half_read_page] the extraction of the second
    table raises inside [extract_tables_from_page]; the page does not
    contribute zero table lines: the row of the first table stays, and the
    document differs from the one in which the page has no table.  And a
    page object that cannot be loaded is no isolated fault: the exception
    leaves [extract_pdf_with_pymupdf]. *)
Lemma table_fault_keeps_rows :
  extract broken_table = Raised
  /\ extract_tables_from_page half_read_page
     = Ok [lit "Appellant" ++ TAB ++ lit "State"]
  /\ extract_pdf_with_pymupdf (opened [half_read_page])
     = Ok (lit "Appellant" ++ TAB ++ lit "State" ++ ParsingText2.NEWLINE
           ++ lit "ORDER")
  /\ extract_pdf_with_pymupdf (opened [without_tables half_read_page])
     = Ok (lit "ORDER")
  /\ load_page torn_document 1 = Raised
  /\ extract_pdf_with_pymupdf torn_file = Raised.
Proof. vm_compute. repeat split. Qed.

(** C3 (amended).  A failure inside one of the per-page functions stays
    there.  When [find_tables] fails the page has no table line; when the
    extraction of a table fails the rows of the tables before it are kept and
    the later tables are dropped; a page without a failure has all its rows.
    A text layer or an OCR call that fails gives the empty string, one that
    works gives its text.  For a document whose page objects load and which
    closes, the native extractor returns what the per-page functions give for
    each page, in page order, so that no page changes what another page
    contributes; [pdf_to_text] always returns, with a failing page image
    counting as an image without text. *)
Theorem page_faults_are_isolated :
  (forall p, find_tables p = Raised -> extract_tables_from_page p = Ok [])
  /\ (forall p good bad rest rows,
        find_tables p = Ok (good ++ bad :: rest) ->
        Forall2 (fun t rs => extract t = Ok rs) good rows ->
        extract bad = Raised ->
        extract_tables_from_page p = Ok (map row_text (concat rows)))
  /\ (forall p tables rows,
        find_tables p = Ok tables ->
        Forall2 (fun t rs => extract t = Ok rs) tables rows ->
        extract_tables_from_page p = Ok (map row_text (concat rows)))
  /\ (forall p, get_text p = Raised -> extract_text_no_tables p = Ok [])
  /\ (forall p t, get_text p = Ok t -> extract_text_no_tables p = Ok t)
  /\ (forall img, image_to_string img OCR_LANG = Raised -> ocr_image img = Ok [])
  /\ (forall img t, image_to_string img OCR_LANG = Ok t -> ocr_image img = Ok t)
  /\ (forall img lang i,
        save img = Raised \/ image_to_string img lang = Raised ->
        process_image (img, lang, i) = Ok [])
  /\ (forall img lang i t,
        save img = Ok () -> image_to_string img lang = Ok t ->
        process_image (img, lang, i) = Ok t)
  /\ (forall f doc pages,
        isfile f = true -> fitz_open f = Ok doc -> loads doc pages ->
        close doc = Ok () ->
        extract_pdf_with_pymupdf f
        = Ok (join ParsingText2.NEWLINE (flat_map page_yield pages)))
  /\ (forall fs f lang order, exists text, pdf_to_text fs f lang order = Ok text)
  /\ (forall fs lang order before img after,
        save img = Raised \/ image_to_string img lang = Raised ->
        pdf_to_text fs (scan (before ++ img :: after)) lang order
        = pdf_to_text fs (scan (before ++ blank_image :: after)) lang order).
Proof.
  repeat apply conj.
  - intros p Hp. unfold extract_tables_from_page. by rewrite Hp.
  - intros p good bad rest rows Hp Hgood Hbad.
    rewrite extract_tables_from_page_lines.
    unfold page_table_lines, page_rows. rewrite Hp.
    by rewrite (reported_rows_until_failure _ _ _ _ Hgood Hbad).
  - intros p tables rows Hp Hrows.
    rewrite extract_tables_from_page_lines.
    unfold page_table_lines, page_rows. rewrite Hp.
    by rewrite (reported_rows_all _ _ Hrows).
  - intros p Hp. unfold extract_text_no_tables. by rewrite Hp.
  - intros p t Hp. unfold extract_text_no_tables. by rewrite Hp.
  - intros img Hi. unfold ocr_image. by rewrite Hi.
  - intros img t Hi. unfold ocr_image. rewrite Hi. by destruct t.
  - intros img lang i Hi. rewrite process_image_total. unfold image_text.
    destruct Hi as [-> | Hi]; [done|]. rewrite Hi. by destruct (save img).
  - intros img lang i t Hs Hi. rewrite process_image_total. unfold image_text.
    by rewrite Hs, Hi.
  - intros f doc pages Hfile Hopen Hloads Hclose.
    rewrite (extract_pdf_with_pymupdf_pieces f doc pages Hfile Hopen Hloads
               Hclose).
    do 2 f_equal. clear. induction pages as [|p pages IH]; [done|].
    cbn [flat_map]. by rewrite page_yield_pieces, IH.
  - apply pdf_to_text_total.
  - intros fs lang order before img after Hi.
    eapply pdf_to_text_texts; [reflexivity..|].
    rewrite !map_app. cbn [map]. do 2 f_equal. unfold image_text.
    destruct Hi as [-> | Hi]; [done|]. rewrite Hi. by destruct (save img).
Qed.

(** A three-page file whose second page makes the table detector fail and
    whose third page has a table that cannot be extracted. *)
Definition faulty_page : page :=
  {| find_tables := Raised; get_text := Ok (lit "page two prose") |}.

Lemma page_faults_are_isolated_witness :
  extract_pdf_with_pymupdf (opened [sample_page2; faulty_page; half_read_page])
  = Ok (lit "The appeal is allowed." ++ ParsingText2.NEWLINE
        ++ lit "page two prose" ++ ParsingText2.NEWLINE
        ++ lit "Appellant" ++ TAB ++ lit "State" ++ ParsingText2.NEWLINE
        ++ lit "ORDER").
Proof.
  destruct page_faults_are_isolated
    as (_ & _ & _ & _ & _ & _ & _ & _ & _ & H & _).
  rewrite (H (opened [sample_page2; faulty_page; half_read_page])
             (document_of [sample_page2; faulty_page; half_read_page])
             [sample_page2; faulty_page; half_read_page]
             eq_refl eq_refl (document_of_loads _) eq_refl).
  vm_compute. reflexivity.
Defined.

End PageFaults.

(* ===================================================================== *)
(** * extract.py and en_hin_extract.py: the processing pass               *)
(* ===================================================================== *)
Module Pipeline.
Import Py.

(** A stored document: field name to value.  The fields the pass reads and
    writes hold strings. *)
Abbreviation document := (gmap string (list N)) (only parsing).

(** The collection, keyed by [_id]. *)
Abbreviation collection :=
  (gmap string (gmap string (list N))) (only parsing).

Definition ENGLISH_URL_FIELD : string := "Original English Version".
Definition HINDI_URL_FIELD : string := "Translated Hindi Version".
Definition ENGLISH_CONTENT_FIELD : string := "Original_Content".
Definition HINDI_CONTENT_FIELD : string := "Translated_Content".

Inductive lang := English | Hindi.

(** What a pass does outside the store: download attempts and extractions,
    each for one language of one document. *)
Inductive event :=
| Download (l : lang) (id : string) (attempt : nat)
| Extract (l : lang) (id : string).

(** The world outside: the size of the file the [attempt]-th download of a
    URL leaves behind (0 when the download failed), and the text the
    extractor of a language returns for the file downloaded from a URL (the
    empty string when it fails). *)
Record world := {
  fetch : pystr -> nat -> Z;
  text_of : lang -> pystr -> pystr;
}.

(** [doc.get(field, "")]; a missing URL ([doc.get(field)] is [None]) is as
    falsy as the empty string. *)
Definition get (doc : document) (field : string) : pystr :=
  default [] (doc !! field).

(** [collection.update_one({"_id": id}, {"$set": fields})] *)
Definition update_one (id : string) (fields : document) (c : collection)
  : collection :=
  match c !! id with
  | Some doc => <[id := fields ∪ doc]> c
  | None => c
  end.

(** The retry loop: <<
    for attempt in range(max_retries):
        path = download(url)
        if os.path.getsize(path) > 1000: break
    >>
    with the test that follows it ([getsize(path) > 1000]): the attempts
    made, and whether the file left by the last one is large enough. *)
Fixpoint retry_download (w : world) (l : lang) (id : string) (url : pystr)
    (attempt remaining : nat) : list event * bool :=
  match remaining with
  | O => ([], false)
  | S remaining' =>
      if (1000 <? fetch w url attempt)%Z
      then ([Download l id attempt], true)
      else
        let '(events, ok) := retry_download w l id url (S attempt) remaining' in
        (Download l id attempt :: events, ok)
  end.

Definition MAX_RETRIES : nat := 3.

(** Download and extract one language of one document; [content] is the
    value kept when the download does not succeed. *)
Definition download_and_extract (w : world) (l : lang) (id : string)
    (url content : pystr) : list event * pystr :=
  let '(events, ok) := retry_download w l id (Url.fix_url url) 0 MAX_RETRIES in
  if ok then (events ++ [Extract l id], text_of w l (Url.fix_url url))
  else (events, content).

(** ** extract.py *)

(** [process_document(doc)] of extract.py. *)
Definition process_document (w : world) (id : string) (doc : document)
  : list event * document :=
  let english_url := get doc ENGLISH_URL_FIELD in
  let hindi_url := get doc HINDI_URL_FIELD in
  let english_content := get doc ENGLISH_CONTENT_FIELD in
  let hindi_content := get doc HINDI_CONTENT_FIELD in
  let '(events_en, english_content) :=
    if negb (truthy english_content) && truthy english_url
    then download_and_extract w English id english_url english_content
    else ([], english_content) in
  let '(events_hi, hindi_content) :=
    if negb (truthy hindi_content) && truthy hindi_url
    then download_and_extract w Hindi id hindi_url hindi_content
    else ([], hindi_content) in
  (events_en ++ events_hi,
   <[HINDI_CONTENT_FIELD := hindi_content]>
     (<[ENGLISH_CONTENT_FIELD := english_content]> doc)).

(** The query of [main] of extract.py: at least one URL, and a URL whose
    content is missing or empty. *)
Definition query (doc : document) : bool :=
  (truthy (get doc ENGLISH_URL_FIELD) || truthy (get doc HINDI_URL_FIELD))
  && (truthy (get doc ENGLISH_URL_FIELD)
        && negb (truthy (get doc ENGLISH_CONTENT_FIELD))
      || truthy (get doc HINDI_URL_FIELD)
           && negb (truthy (get doc HINDI_CONTENT_FIELD))).

(** The [update_fields] dictionary [main] builds: a content field is set when
    [keep] allows it and the content is not empty. *)
Definition update_fields (updated : document) (keep_en keep_hi : bool)
  : document :=
  let with_en : document :=
    if keep_en && truthy (get updated ENGLISH_CONTENT_FIELD)
    then {[ ENGLISH_CONTENT_FIELD := get updated ENGLISH_CONTENT_FIELD ]}
    else ∅ in
  if keep_hi && truthy (get updated HINDI_CONTENT_FIELD)
  then <[HINDI_CONTENT_FIELD := get updated HINDI_CONTENT_FIELD]> with_en
  else with_en.

(** One round of the loop of [main] over the documents the query found. *)
Definition visit (w : world) (st : list event * collection)
    (entry : string * document) : list event * collection :=
  let '(id, doc) := entry in
  let has_eng := truthy (get doc ENGLISH_CONTENT_FIELD) in
  let has_hin := truthy (get doc HINDI_CONTENT_FIELD) in
  if has_eng && has_hin then st
  else
    let '(events, updated) := process_document w id doc in
    let fields := update_fields updated true true in
    (st.1 ++ events,
     if decide (fields = ∅) then st.2 else update_one id fields st.2).

(** [main] of extract.py: what was done, and the collection afterwards. *)
Definition main (w : world) (c : collection) : list event * collection :=
  foldl (visit w) ([], c)
        (List.filter (fun entry => query entry.2) (map_to_list c)).

(** ** en_hin_extract.py *)

(** [extract_content(url, lang)] *)
Definition extract_content (w : world) (l : lang) (id : string) (url : pystr)
  : list event * pystr :=
  download_and_extract w l id url [].

(** [process_document(doc)] of en_hin_extract.py. *)
Definition process_document_both (w : world) (id : string) (doc : document)
  : list event * document :=
  let eng_url := get doc ENGLISH_URL_FIELD in
  let hin_url := get doc HINDI_URL_FIELD in
  if negb (truthy eng_url) || negb (truthy hin_url) then ([], doc)
  else
    let eng_content_exists := truthy (get doc ENGLISH_CONTENT_FIELD) in
    let hin_content_exists := truthy (get doc HINDI_CONTENT_FIELD) in
    if eng_content_exists && hin_content_exists then ([], doc)
    else
      let '(events_en, doc) :=
        if negb eng_content_exists
        then
          let '(events, eng_content) := extract_content w English id eng_url in
          (events,
           if truthy eng_content
           then <[ENGLISH_CONTENT_FIELD := eng_content]> doc else doc)
        else ([], doc) in
      let '(events_hi, doc) :=
        if negb hin_content_exists
        then
          let '(events, hin_content) := extract_content w Hindi id hin_url in
          (events,
           if truthy hin_content
           then <[HINDI_CONTENT_FIELD := hin_content]> doc else doc)
        else ([], doc) in
      (events_en ++ events_hi, doc).

(** The query of [main] of en_hin_extract.py: both URLs. *)
Definition query_both (doc : document) : bool :=
  truthy (get doc ENGLISH_URL_FIELD) && truthy (get doc HINDI_URL_FIELD).

Definition visit_both (w : world) (st : list event * collection)
    (entry : string * document) : list event * collection :=
  let '(id, doc) := entry in
  let eng_content_exists := truthy (get doc ENGLISH_CONTENT_FIELD) in
  let hin_content_exists := truthy (get doc HINDI_CONTENT_FIELD) in
  if eng_content_exists && hin_content_exists then st
  else
    let '(events, updated) := process_document_both w id doc in
    let fields :=
      update_fields updated (negb eng_content_exists) (negb hin_content_exists) in
    (st.1 ++ events,
     if decide (fields = ∅) then st.2 else update_one id fields st.2).

Definition main_both (w : world) (c : collection) : list event * collection :=
  foldl (visit_both w) ([], c)
        (List.filter (fun entry => query_both entry.2) (map_to_list c)).

(** ** The pass touches one document and one language at a time *)

Definition event_id (e : event) : string :=
  match e with Download _ id _ | Extract _ id => id end.

Definition event_lang (e : event) : lang :=
  match e with Download l _ _ | Extract l _ => l end.

(** The event concerns language [l] of document [id]. *)
Definition about (l : lang) (id : string) (e : event) : Prop :=
  event_lang e = l /\ event_id e = id.

Lemma retry_download_events (w : world) (l : lang) (id : string) (url : pystr)
    (attempt remaining : nat) :
  Forall (about l id) (retry_download w l id url attempt remaining).1.
Proof.
  revert attempt; induction remaining as [|r IH]; intros attempt; simpl.
  - constructor.
  - destruct (1000 <? fetch w url attempt)%Z; simpl.
    + by repeat constructor.
    + specialize (IH (S attempt)).
      destruct (retry_download w l id url (S attempt) r) as [events ok].
      by constructor.
Qed.

Lemma download_and_extract_events (w : world) (l : lang) (id : string)
    (url content : pystr) :
  Forall (about l id) (download_and_extract w l id url content).1.
Proof.
  unfold download_and_extract.
  pose proof (retry_download_events w l id (Url.fix_url url) 0 MAX_RETRIES) as H.
  destruct (retry_download w l id (Url.fix_url url) 0 MAX_RETRIES)
    as [events [|]]; simpl in *; [|done].
  apply Forall_app. split; [done|]. by repeat constructor.
Qed.

(** A download is attempted at least once. *)
Lemma retry_download_first (w : world) (l : lang) (id : string) (url : pystr)
    (attempt remaining : nat) :
  exists rest,
    (retry_download w l id url attempt (S remaining)).1
    = Download l id attempt :: rest.
Proof.
  cbn [retry_download]. destruct (1000 <? fetch w url attempt)%Z.
  - by eexists.
  - destruct (retry_download w l id url (S attempt) remaining). by eexists.
Qed.

Lemma download_and_extract_starts (w : world) (l : lang) (id : string)
    (url content : pystr) :
  Download l id 0 ∈ (download_and_extract w l id url content).1.
Proof.
  unfold download_and_extract, MAX_RETRIES.
  destruct (retry_download_first w l id (Url.fix_url url) 0 2) as [rest H].
  destruct (retry_download w l id (Url.fix_url url) 0 3) as [events ok].
  cbn [fst] in H. subst events.
  destruct ok; cbn [app fst]; apply elem_of_cons; by left.
Qed.

Lemma update_one_other (id id' : string) (fields : document) (c : collection) :
  id <> id' -> update_one id' fields c !! id = c !! id.
Proof.
  intros Hne. unfold update_one. destruct (c !! id'); [|done].
  by rewrite lookup_insert_ne.
Qed.

Lemma update_one_same (id : string) (fields doc : document) (c : collection) :
  c !! id = Some doc -> update_one id fields c !! id = Some (fields ∪ doc).
Proof.
  intros H. unfold update_one. rewrite H. by rewrite lookup_insert_eq.
Qed.

Lemma update_fields_keeps_hindi (updated : document) (keep_en : bool) :
  update_fields updated keep_en false !! HINDI_CONTENT_FIELD = None.
Proof.
  unfold update_fields. cbn [andb].
  destruct (keep_en && truthy (get updated ENGLISH_CONTENT_FIELD)); [|done].
  by apply lookup_singleton_ne.
Qed.

Lemma update_fields_same_hindi (updated : document) (keep_en keep_hi : bool)
    (hindi : pystr) :
  updated !! HINDI_CONTENT_FIELD = Some hindi ->
  update_fields updated keep_en keep_hi !! HINDI_CONTENT_FIELD = None
  \/ update_fields updated keep_en keep_hi !! HINDI_CONTENT_FIELD = Some hindi.
Proof.
  intros H. destruct keep_hi; [|left; apply update_fields_keeps_hindi].
  unfold update_fields, get. rewrite H. cbn [default from_option andb].
  unfold id. destruct (truthy hindi).
  - right. by rewrite lookup_insert_eq.
  - left. destruct (keep_en && _); [|done]. by apply lookup_singleton_ne.
Qed.

(** Setting fields that leave the Hindi content alone, or repeat it, leaves
    it as it is. *)
Lemma set_fields_hindi (fields doc : document) (hindi : pystr) :
  doc !! HINDI_CONTENT_FIELD = Some hindi ->
  fields !! HINDI_CONTENT_FIELD = None
  \/ fields !! HINDI_CONTENT_FIELD = Some hindi ->
  (fields ∪ doc) !! HINDI_CONTENT_FIELD = Some hindi.
Proof.
  intros Hd [Hf|Hf].
  - by rewrite lookup_union_r.
  - by apply lookup_union_Some_l.
Qed.

Section Pass.
Context (w : world) (id : string) (doc : document) (hindi : pystr).
Hypothesis Hhindi : doc !! HINDI_CONTENT_FIELD = Some hindi.
Hypothesis Hfilled : hindi <> [].
Hypothesis Henglish : get doc ENGLISH_CONTENT_FIELD = [].

Lemma hindi_truthy : truthy (get doc HINDI_CONTENT_FIELD) = true.
Proof. unfold get. rewrite Hhindi. simpl. by destruct hindi. Qed.

(** [process_document] of extract.py on the document: English events only,
    and the Hindi content as it was. *)
Lemma process_document_english_only :
  Forall (about English id) (process_document w id doc).1
  /\ (process_document w id doc).2 !! HINDI_CONTENT_FIELD = Some hindi.
Proof.
  unfold process_document. rewrite hindi_truthy. cbn [negb andb].
  destruct (if negb (truthy (get doc ENGLISH_CONTENT_FIELD))
               && truthy (get doc ENGLISH_URL_FIELD)
            then download_and_extract w English id (get doc ENGLISH_URL_FIELD)
                   (get doc ENGLISH_CONTENT_FIELD)
            else ([], get doc ENGLISH_CONTENT_FIELD))
    as [events_en english_content] eqn:E.
  cbn [fst snd]. rewrite app_nil_r. split.
  - destruct (negb _ && _).
    + pose proof (download_and_extract_events w English id
                    (get doc ENGLISH_URL_FIELD) (get doc ENGLISH_CONTENT_FIELD)) as H.
      by rewrite E in H.
    + injection E as <- _. constructor.
  - rewrite lookup_insert_eq. unfold get. by rewrite Hhindi.
Qed.

Lemma process_document_both_english_only :
  Forall (about English id) (process_document_both w id doc).1
  /\ (process_document_both w id doc).2 !! HINDI_CONTENT_FIELD = Some hindi.
Proof.
  unfold process_document_both. rewrite hindi_truthy, Henglish.
  destruct (negb (truthy (get doc ENGLISH_URL_FIELD))
            || negb (truthy (get doc HINDI_URL_FIELD))); [by split|].
  cbn [truthy negb andb].
  pose proof (download_and_extract_events w English id
                (get doc ENGLISH_URL_FIELD) []) as H.
  unfold extract_content.
  destruct (download_and_extract w English id (get doc ENGLISH_URL_FIELD) [])
    as [events eng_content].
  cbn [fst snd] in *. rewrite app_nil_r. split; [done|].
  destruct (truthy eng_content); [|done]. by rewrite lookup_insert_ne.
Qed.

(** The state of the pass as far as the document is concerned: nothing was
    done for its Hindi side, and its stored Hindi content is the same. *)
Definition framed (st : list event * collection) : Prop :=
  Forall (fun e => ~ about Hindi id e) st.1
  /\ exists doc', st.2 !! id = Some doc' /\ doc' !! HINDI_CONTENT_FIELD = Some hindi.

Lemma english_is_not_hindi (events : list event) :
  Forall (about English id) events ->
  Forall (fun e => ~ about Hindi id e) events.
Proof.
  intros H. eapply Forall_impl; [exact H|].
  intros e [Hl _] [Hl' _]. congruence.
Qed.

Lemma other_is_not_ours (id' : string) (l : lang) (events : list event) :
  id' <> id -> Forall (fun e => event_id e = id') events ->
  Forall (fun e => ~ about l id e) events.
Proof.
  intros Hne H. eapply Forall_impl; [exact H|].
  intros e He [_ Hid]. congruence.
Qed.

Lemma process_document_ids (id' : string) (doc' : document) :
  Forall (fun e => event_id e = id') (process_document w id' doc').1.
Proof.
  unfold process_document.
  repeat match goal with
  | |- context [if ?b then download_and_extract w ?l ?i ?u ?c else ([], ?c')] =>
      let H := fresh in
      pose proof (download_and_extract_events w l i u c) as H;
      destruct (download_and_extract w l i u c) as [? ?];
      destruct b
  end; cbn [fst snd] in *;
    apply Forall_app; split;
    try constructor;
    (eapply Forall_impl; [eassumption|by intros e [_ ?]]).
Qed.

Lemma process_document_both_ids (id' : string) (doc' : document) :
  Forall (fun e => event_id e = id') (process_document_both w id' doc').1.
Proof.
  unfold process_document_both, extract_content.
  destruct (negb _ || negb _); [constructor|].
  destruct (_ && _); [constructor|].
  pose proof (download_and_extract_events w English id'
                (get doc' ENGLISH_URL_FIELD) []) as Hen.
  pose proof (download_and_extract_events w Hindi id'
                (get doc' HINDI_URL_FIELD) []) as Hhi.
  destruct (download_and_extract w English id' _ _) as [ev1 t1].
  destruct (download_and_extract w Hindi id' _ _) as [ev2 t2].
  destruct (negb (truthy (get doc' ENGLISH_CONTENT_FIELD)));
    destruct (negb (truthy (get doc' HINDI_CONTENT_FIELD)));
    cbn [fst snd] in *; apply Forall_app; split; try constructor;
    (eapply Forall_impl; [eassumption|by intros e [_ ?]]).
Qed.

End Pass.

Section Frame.
Context (w : world) (id : string) (doc : document) (hindi : pystr).
Hypothesis Hhindi : doc !! HINDI_CONTENT_FIELD = Some hindi.
Hypothesis Hfilled : hindi <> [].
Hypothesis Henglish : get doc ENGLISH_CONTENT_FIELD = [].

Let framed := framed id hindi.

(** What one round may do to the store. *)
Lemma store_step (st : list event * collection) (id' : string)
    (updated : document) (keep_en keep_hi : bool) :
  (id' = id -> updated !! HINDI_CONTENT_FIELD = Some hindi) ->
  (exists doc', st.2 !! id = Some doc'
                /\ doc' !! HINDI_CONTENT_FIELD = Some hindi) ->
  exists doc',
    (if decide (update_fields updated keep_en keep_hi = ∅) then st.2
     else update_one id' (update_fields updated keep_en keep_hi) st.2) !! id
    = Some doc'
    /\ doc' !! HINDI_CONTENT_FIELD = Some hindi.
Proof.
  intros Hup (doc' & Hdoc' & Hh).
  destruct (decide (update_fields updated keep_en keep_hi = ∅)) as [_|_];
    [by exists doc'|].
  destruct (decide (id' = id)) as [->|Hne].
  - rewrite (update_one_same _ _ _ _ Hdoc'). eexists. split; [done|].
    by apply set_fields_hindi, update_fields_same_hindi, Hup.
  - rewrite update_one_other by done. by exists doc'.
Qed.

Lemma visit_other (st : list event * collection) (id' : string)
    (doc' : document) :
  id' <> id -> framed st -> framed (visit w st (id', doc')).
Proof.
  intros Hne [Hev Hst]. unfold visit.
  destruct (_ && _); [by split|].
  pose proof (process_document_ids w id' doc') as Hids.
  destruct (process_document w id' doc') as [events updated].
  split; cbn [fst snd] in *.
  - apply Forall_app. split; [done|]. by eapply other_is_not_ours.
  - by apply store_step.
Qed.

Lemma visit_self (st : list event * collection) :
  framed st -> framed (visit w st (id, doc)).
Proof.
  intros [Hev Hst]. unfold visit. rewrite Henglish. cbn [truthy andb].
  destruct (process_document_english_only w id doc hindi
              Hhindi Hfilled Henglish) as [Hen Hup].
  destruct (process_document w id doc) as [events updated].
  split; cbn [fst snd] in *.
  - apply Forall_app. split; [done|]. by apply english_is_not_hindi.
  - by apply store_step.
Qed.

Lemma visit_both_other (st : list event * collection) (id' : string)
    (doc' : document) :
  id' <> id -> framed st -> framed (visit_both w st (id', doc')).
Proof.
  intros Hne [Hev Hst]. unfold visit_both.
  destruct (_ && _); [by split|].
  pose proof (process_document_both_ids w id' doc') as Hids.
  destruct (process_document_both w id' doc') as [events updated].
  split; cbn [fst snd] in *.
  - apply Forall_app. split; [done|]. by eapply other_is_not_ours.
  - by apply store_step.
Qed.

Lemma visit_both_self (st : list event * collection) :
  framed st -> framed (visit_both w st (id, doc)).
Proof.
  intros [Hev Hst]. unfold visit_both. rewrite Henglish. cbn [truthy andb].
  destruct (process_document_both_english_only w id doc hindi
              Hhindi Hfilled Henglish) as [Hen Hup].
  destruct (process_document_both w id doc) as [events updated].
  split; cbn [fst snd] in *.
  - apply Forall_app. split; [done|]. by apply english_is_not_hindi.
  - by apply store_step.
Qed.

(** The rounds of a pass, one after the other. *)
Lemma pass_framed (step : list event * collection -> string * document ->
                          list event * collection)
    (entries : list (string * document)) (st : list event * collection) :
  (forall st id' doc', id' <> id -> framed st -> framed (step st (id', doc'))) ->
  (forall st, framed st -> framed (step st (id, doc))) ->
  (forall doc', (id, doc') ∈ entries -> doc' = doc) ->
  framed st -> framed (foldl step st entries).
Proof.
  intros Hother Hself. revert st.
  induction entries as [|[id' doc'] entries IH]; intros st Hdoc Hst; [done|].
  cbn [foldl]. apply IH; [set_solver|].
  destruct (decide (id' = id)) as [->|Hne].
  - rewrite (Hdoc doc') by set_solver. by apply Hself.
  - by apply Hother.
Qed.

Lemma found_entries (c : collection) (q : document -> bool)
    (id' : string) (doc' : document) :
  (id', doc') ∈ List.filter (fun entry => q entry.2) (map_to_list c)
  <-> c !! id' = Some doc' /\ q doc' = true.
Proof.
  rewrite list_elem_of_In, filter_In, <- list_elem_of_In.
  by rewrite elem_of_map_to_list.
Qed.

(** Events are only ever appended, and a round on the document starts with
    an English download when the document has the URLs the branch asks for. *)
Lemma pass_attempts (step : list event * collection -> string * document ->
                            list event * collection)
    (entries : list (string * document)) (st : list event * collection) :
  (forall st entry, exists events, (step st entry).1 = st.1 ++ events) ->
  (forall st, Download English id 0 ∈ (step st (id, doc)).1) ->
  (id, doc) ∈ entries ->
  Download English id 0 ∈ (foldl step st entries).1.
Proof.
  intros Hgrow Hstart.
  assert (forall entries st e, e ∈ st.1 -> e ∈ (foldl step st entries).1)
    as Hmono.
  { clear entries st. intros entries.
    induction entries as [|entry entries IH]; intros st e He; [done|].
    cbn [foldl]. apply IH. destruct (Hgrow st entry) as [events ->].
    set_solver. }
  revert st. induction entries as [|entry entries IH]; intros st Hin.
  - by inversion Hin.
  - cbn [foldl]. apply elem_of_cons in Hin as [<-|Hin].
    + apply Hmono, Hstart.
    + by apply IH.
Qed.

Lemma visit_grows (st : list event * collection) (entry : string * document) :
  exists events, (visit w st entry).1 = st.1 ++ events.
Proof.
  destruct entry as [id' doc']. unfold visit.
  destruct (_ && _); [exists []; by rewrite app_nil_r|].
  destruct (process_document w id' doc') as [events updated]. by exists events.
Qed.

Lemma visit_both_grows (st : list event * collection)
    (entry : string * document) :
  exists events, (visit_both w st entry).1 = st.1 ++ events.
Proof.
  destruct entry as [id' doc']. unfold visit_both.
  destruct (_ && _); [exists []; by rewrite app_nil_r|].
  destruct (process_document_both w id' doc') as [events updated].
  by exists events.
Qed.

Lemma visit_starts (st : list event * collection) :
  query doc = true -> Download English id 0 ∈ (visit w st (id, doc)).1.
Proof.
  intros Hq. unfold visit. rewrite Henglish. cbn [truthy andb].
  unfold query in Hq. rewrite Henglish in Hq.
  rewrite (hindi_truthy doc hindi Hhindi Hfilled Henglish) in Hq.
  cbn [truthy negb] in Hq. rewrite andb_false_r, orb_false_r, andb_true_r in Hq.
  apply andb_true_iff in Hq as [_ Hurl].
  unfold process_document. rewrite Henglish, Hurl.
  rewrite (hindi_truthy doc hindi Hhindi Hfilled Henglish). cbn [truthy negb andb].
  pose proof (download_and_extract_starts w English id
                (get doc ENGLISH_URL_FIELD) []) as H.
  destruct (download_and_extract w English id (get doc ENGLISH_URL_FIELD) [])
    as [events text]. cbn [fst snd] in *. set_solver.
Qed.

Lemma visit_both_starts (st : list event * collection) :
  query_both doc = true ->
  Download English id 0 ∈ (visit_both w st (id, doc)).1.
Proof.
  intros [Hen Hhi]%andb_true_iff. unfold visit_both.
  rewrite Henglish. cbn [truthy andb].
  unfold process_document_both, extract_content.
  rewrite Henglish, Hen, Hhi, (hindi_truthy doc hindi Hhindi Hfilled Henglish).
  cbn [truthy negb andb orb].
  pose proof (download_and_extract_starts w English id
                (get doc ENGLISH_URL_FIELD) []) as H.
  destruct (download_and_extract w English id (get doc ENGLISH_URL_FIELD) [])
    as [events text]. cbn [fst snd] in *. set_solver.
Qed.

End Frame.

(** C9. For a stored document whose Hindi content is not empty and whose
    English content is missing or empty, a pass (of extract.py, and of
    en_hin_extract.py) downloads and extracts nothing for the document's Hindi
    side, leaves the stored Hindi content field with the value it had, and,
    when the pass's query finds the document, does attempt the English
    download. *)
Theorem hindi_content_untouched (w : world) (c : collection) (id : string)
    (doc : document) (hindi : pystr) :
  c !! id = Some doc ->
  doc !! HINDI_CONTENT_FIELD = Some hindi -> hindi <> [] ->
  get doc ENGLISH_CONTENT_FIELD = [] ->
  (Forall (fun e => ~ about Hindi id e) (main w c).1
   /\ (exists doc', (main w c).2 !! id = Some doc'
                    /\ doc' !! HINDI_CONTENT_FIELD = Some hindi)
   /\ (query doc = true -> Download English id 0 ∈ (main w c).1))
  /\ (Forall (fun e => ~ about Hindi id e) (main_both w c).1
      /\ (exists doc', (main_both w c).2 !! id = Some doc'
                       /\ doc' !! HINDI_CONTENT_FIELD = Some hindi)
      /\ (query_both doc = true -> Download English id 0 ∈ (main_both w c).1)).
Proof.
  intros Hdoc Hhindi Hfilled Henglish.
  assert (framed id hindi ([], c)) as Hstart.
  { split; [constructor|]. by exists doc. }
  assert (forall q doc', (id, doc') ∈ List.filter (fun entry => q entry.2)
                                       (map_to_list c) -> doc' = doc) as Hone.
  { intros q doc' [Hd _]%found_entries. congruence. }
  split.
  - assert (framed id hindi (main w c)) as [Hev Hst].
    { eapply (pass_framed id doc hindi Hhindi Hfilled Henglish);
        [| |apply Hone|exact Hstart].
      + intros. by eapply visit_other.
      + intros. by eapply visit_self. }
    split; [done|]. split; [done|]. intros Hq.
    eapply (pass_attempts id doc hindi Hhindi Hfilled Henglish).
    + apply visit_grows.
    + intros st. by eapply visit_starts.
    + by apply found_entries.
  - assert (framed id hindi (main_both w c)) as [Hev Hst].
    { eapply (pass_framed id doc hindi Hhindi Hfilled Henglish);
        [| |apply Hone|exact Hstart].
      + intros. by eapply visit_both_other.
      + intros. by eapply visit_both_self. }
    split; [done|]. split; [done|]. intros Hq.
    eapply (pass_attempts id doc hindi Hhindi Hfilled Henglish).
    + apply visit_both_grows.
    + intros st. by eapply visit_both_starts.
    + by apply found_entries.
Qed.

(** A collection of one document with both URLs and its Hindi content; the
    second download attempt succeeds. *)
Definition sample_hindi : pystr := [2344; 2367; 2352; 2381; 2339; 2351]%N.

Definition sample_document : gmap string (list N) :=
  {[ ENGLISH_URL_FIELD := lit "https://host/WebView.doWebDownload.do?id=1";
     HINDI_URL_FIELD := lit "https://host/WebDownload.do?id=2";
     HINDI_CONTENT_FIELD := sample_hindi ]}.

Definition sample_collection : gmap string (gmap string (list N)) :=
  {[ "doc-1"%string := sample_document ]}.

Definition sample_world : world :=
  {| fetch := fun _ attempt => if (attempt =? 0)%nat then 0%Z else 5000%Z;
     text_of := fun l _ =>
       match l with
       | English => lit "The appeal is allowed."
       | Hindi => sample_hindi
       end |}.

Lemma hindi_content_untouched_witness :
  Forall (fun e => ~ about Hindi "doc-1" e)
         (main sample_world sample_collection).1
  /\ (main sample_world sample_collection).1
     = [Download English "doc-1" 0; Download English "doc-1" 1;
        Extract English "doc-1"]
  /\ (main sample_world sample_collection).2 !! "doc-1"%string
     = Some (<[ENGLISH_CONTENT_FIELD := lit "The appeal is allowed."]>
               sample_document).
Proof.
  split.
  - apply (hindi_content_untouched sample_world sample_collection "doc-1"
             sample_document sample_hindi); [reflexivity..|discriminate|reflexivity].
  - split; [by vm_compute|].
    apply (f_equal (fun o => o)). vm_compute. reflexivity.
Defined.

(* --------------------------------------------------------------------- *)
(** ** What a pass leaves in the store                                     *)
(* --------------------------------------------------------------------- *)

Definition url_field (l : lang) : string :=
  match l with English => ENGLISH_URL_FIELD | Hindi => HINDI_URL_FIELD end.

Definition content_field (l : lang) : string :=
  match l with
  | English => ENGLISH_CONTENT_FIELD
  | Hindi => HINDI_CONTENT_FIELD
  end.

(** One of the three download attempts leaves a file of more than 1000
    bytes. *)
Definition downloaded (w : world) (url : pystr) : bool :=
  existsb (fun attempt => (1000 <? fetch w url attempt)%Z) (seq 0 MAX_RETRIES).

(** The text a pass obtains for one language of a document: the text
    extracted from the file behind the normalised URL when the download
    succeeds, no text when it does not. *)
Definition extracted (w : world) (l : lang) (doc : document) : pystr :=
  let url := Url.fix_url (get doc (url_field l)) in
  if downloaded w url then text_of w l url else [].

(** The document with the content field of a language set to a text, when
    the text is not empty. *)
Definition fill (l : lang) (text : pystr) (doc : document) : document :=
  if truthy text then <[content_field l := text]> doc else doc.

(** A language of a document needs work when its content is missing or empty
    and its URL is there. *)
Definition missing (l : lang) (doc : document) : bool :=
  negb (truthy (get doc (content_field l))) && truthy (get doc (url_field l)).

(** A document after a pass of extract.py, in the specification's words:
    each content field that needs work is set to the extracted text, if any;
    nothing else changes. *)
Definition settled (w : world) (doc : document) : document :=
  fill Hindi (if missing Hindi doc then extracted w Hindi doc else [])
    (fill English (if missing English doc then extracted w English doc else [])
       doc).

(** The same for en_hin_extract.py, which works on documents with both
    URLs only. *)
Definition settled_both (w : world) (doc : document) : document :=
  if query_both doc then settled w doc else doc.

(** *** The retry loop *)

Lemma retry_download_ok (w : world) (l : lang) (id : string) (url : pystr)
    (attempt remaining : nat) :
  (retry_download w l id url attempt remaining).2
  = existsb (fun k => (1000 <? fetch w url k)%Z) (seq attempt remaining).
Proof.
  revert attempt; induction remaining as [|r IH]; intros attempt; [done|].
  cbn [retry_download seq existsb].
  destruct (1000 <? fetch w url attempt)%Z; [done|].
  specialize (IH (S attempt)).
  destruct (retry_download w l id url (S attempt) r) as [events ok].
  by cbn in *.
Qed.

Lemma download_and_extract_text (w : world) (l : lang) (id : string)
    (url content : pystr) :
  (download_and_extract w l id url content).2
  = if downloaded w (Url.fix_url url) then text_of w l (Url.fix_url url)
    else content.
Proof.
  unfold download_and_extract, downloaded.
  rewrite <- (retry_download_ok w l id (Url.fix_url url) 0 MAX_RETRIES).
  by destruct (retry_download w l id (Url.fix_url url) 0 MAX_RETRIES)
    as [events [|]].
Qed.

(** *** One document *)

Lemma get_truthy (doc : document) (field : string) :
  truthy (get doc field) = true -> doc !! field = Some (get doc field).
Proof. unfold get. by destruct (doc !! field) as [[|c s]|]. Qed.

Lemma get_falsy (doc : document) (field : string) :
  truthy (get doc field) = false -> get doc field = [].
Proof. by destruct (get doc field). Qed.

Lemma get_insert_eq (doc : document) (field : string) (v : pystr) :
  get (<[field := v]> doc) field = v.
Proof. unfold get. by rewrite lookup_insert_eq. Qed.

Lemma get_insert_ne (doc : document) (field field' : string) (v : pystr) :
  field <> field' -> get (<[field := v]> doc) field' = get doc field'.
Proof. intros H. unfold get. by rewrite lookup_insert_ne. Qed.

Lemma fill_same (l : lang) (doc : document) :
  fill l (get doc (content_field l)) doc = doc.
Proof.
  unfold fill. destruct (truthy (get doc (content_field l))) eqn:E; [|done].
  by apply insert_id, get_truthy.
Qed.

Lemma fill_nothing (l : lang) (doc : document) : fill l [] doc = doc.
Proof. done. Qed.

Lemma get_fill_other (l l' : lang) (text : pystr) (doc : document)
    (field : string) :
  field <> content_field l -> get (fill l text doc) field = get doc field.
Proof.
  intros H. unfold fill, get. destruct (truthy text); [|done].
  by rewrite lookup_insert_ne.
Qed.

(** The new content [process_document] of extract.py computes for a
    language. *)
Definition new_content (w : world) (l : lang) (id : string) (doc : document)
  : pystr :=
  if missing l doc
  then (download_and_extract w l id (get doc (url_field l))
          (get doc (content_field l))).2
  else get doc (content_field l).

Lemma process_document_store (w : world) (id : string) (doc : document) :
  (process_document w id doc).2
  = <[HINDI_CONTENT_FIELD := new_content w Hindi id doc]>
      (<[ENGLISH_CONTENT_FIELD := new_content w English id doc]> doc).
Proof.
  unfold process_document, new_content, missing.
  cbn [content_field url_field].
  destruct (negb (truthy (get doc ENGLISH_CONTENT_FIELD))
            && truthy (get doc ENGLISH_URL_FIELD));
    destruct (negb (truthy (get doc HINDI_CONTENT_FIELD))
              && truthy (get doc HINDI_URL_FIELD));
    repeat match goal with
    | |- context [download_and_extract ?w ?l ?i ?u ?c] =>
        destruct (download_and_extract w l i u c) as [? ?]
    end; done.
Qed.

Lemma new_content_text (w : world) (l : lang) (id : string) (doc : document) :
  new_content w l id doc
  = if missing l doc then extracted w l doc else get doc (content_field l).
Proof.
  unfold new_content, extracted. destruct (missing l doc) eqn:E; [|done].
  rewrite download_and_extract_text.
  destruct (downloaded w _); [done|].
  apply get_falsy. unfold missing in E.
  by destruct (truthy (get doc (content_field l))).
Qed.

(** Setting the fields [main] has put together is filling the two content
    fields. *)
Lemma update_fields_union (updated doc : document) (keep_en keep_hi : bool) :
  update_fields updated keep_en keep_hi ∪ doc
  = fill Hindi (if keep_hi then get updated HINDI_CONTENT_FIELD else [])
      (fill English (if keep_en then get updated ENGLISH_CONTENT_FIELD else [])
         doc).
Proof.
  unfold update_fields, fill. cbn [content_field].
  destruct keep_en, keep_hi; cbn [andb truthy];
    repeat match goal with
    | |- context [truthy ?s] => destruct (truthy s)
    end;
    rewrite <- ?insert_union_l, ?insert_empty, <- ?insert_union_singleton_l,
      ?(left_id_L ∅ (∪)); done.
Qed.

Lemma fill_fill_same (l : lang) (text : pystr) (doc : document) :
  fill l (if missing l doc then text else get doc (content_field l)) doc
  = fill l (if missing l doc then text else []) doc.
Proof. destruct (missing l doc); [done|]. by rewrite fill_same. Qed.

Lemma missing_fill_other (text : pystr) (doc : document) :
  missing Hindi (fill English text doc) = missing Hindi doc.
Proof.
  unfold missing. by rewrite !(get_fill_other English Hindi).
Qed.

Lemma stored_settled (w : world) (id : string) (doc : document) :
  update_fields (process_document w id doc).2 true true ∪ doc = settled w doc.
Proof.
  rewrite update_fields_union, process_document_store.
  rewrite get_insert_eq, get_insert_ne by done. rewrite get_insert_eq.
  rewrite !new_content_text. unfold settled.
  rewrite (fill_fill_same English).
  set (doc1 := fill English _ doc).
  assert (get doc HINDI_CONTENT_FIELD = get doc1 HINDI_CONTENT_FIELD) as Hget.
  { unfold doc1. by rewrite (get_fill_other English Hindi). }
  assert (missing Hindi doc = missing Hindi doc1) as Hm.
  { unfold doc1. by rewrite missing_fill_other. }
  change (get doc HINDI_CONTENT_FIELD) with (get doc (content_field Hindi)).
  destruct (missing Hindi doc) eqn:E; [done|].
  change (get doc (content_field Hindi)) with (get doc HINDI_CONTENT_FIELD).
  rewrite Hget. apply (fill_same Hindi).
Qed.

(** *** The rounds of a pass *)

Lemma NoDup_fst_filter {A B} (p : A * B -> bool) (l : list (A * B)) :
  NoDup l.*1 -> NoDup (List.filter p l).*1.
Proof.
  induction l as [|[a b] l IH]; [done|]. cbn [fmap list_fmap fst].
  intros [Ha Hl]%NoDup_cons. cbn [List.filter].
  destruct (p (a, b)); [|by apply IH].
  cbn [fmap list_fmap fst]. apply NoDup_cons. split; [|by apply IH].
  intros (x & -> & Hx)%list_elem_of_fmap. apply Ha.
  apply list_elem_of_fmap. exists x. split; [done|].
  apply list_elem_of_In, filter_In in Hx as [Hx _]. by apply list_elem_of_In.
Qed.

Section PassStore.
Context (step : list event * collection -> string * document ->
                list event * collection).
Context (outcome : document -> document).
Hypothesis Hstep : forall st id doc,
  st.2 !! id = Some doc -> (step st (id, doc)).2 = <[id := outcome doc]> st.2.

Lemma pass_store (entries : list (string * document))
    (st : list event * collection) :
  NoDup entries.*1 ->
  (forall id doc, (id, doc) ∈ entries -> st.2 !! id = Some doc) ->
  forall id,
    (foldl step st entries).2 !! id
    = match (list_to_map entries : gmap string (gmap string (list N))) !! id with
      | Some doc => Some (outcome doc)
      | None => st.2 !! id
      end.
Proof.
  revert st; induction entries as [|[id' doc'] entries IH]; intros st Hnd Hin id;
    [done|].
  cbn [fmap list_fmap fst] in Hnd. apply NoDup_cons in Hnd as [Hid' Hnd].
  cbn [foldl]. rewrite IH; [|done|].
  - rewrite list_to_map_cons, Hstep by (apply Hin; set_solver).
    destruct (decide (id = id')) as [->|Hne].
    + rewrite lookup_insert_eq.
      by rewrite (not_elem_of_list_to_map_1 entries id' Hid'), lookup_insert_eq.
    + rewrite !(lookup_insert_ne _ id' id) by done.
      by destruct (list_to_map entries !! id).
  - intros id0 doc0 Hin0. rewrite Hstep by (apply Hin; set_solver).
    rewrite lookup_insert_ne; [apply Hin; set_solver|].
    intros ->. apply Hid'. apply list_elem_of_fmap. by exists (id0, doc0).
Qed.

(** A pass whose rounds leave the documents the query does not find as
    they would be left by a round. *)
Lemma pass_pointwise (q : document -> bool) (c : collection) :
  (forall doc, q doc = false -> outcome doc = doc) ->
  (foldl step ([], c)
     (List.filter (fun entry => q entry.2) (map_to_list c))).2
  = outcome <$> c.
Proof.
  intros Hq. apply map_eq. intros id.
  rewrite pass_store.
  - rewrite lookup_fmap. cbn [snd].
    destruct (list_to_map _ !! id) as [doc|] eqn:E.
    + apply elem_of_list_to_map in E;
        [|apply NoDup_fst_filter, NoDup_fst_map_to_list].
      apply found_entries in E as [-> _]. done.
    + destruct (c !! id) as [doc|] eqn:Ec; [|done]. cbn.
      destruct (q doc) eqn:Eq; [|by rewrite Hq].
      exfalso. apply not_elem_of_list_to_map_2 in E. apply E.
      apply list_elem_of_fmap. exists (id, doc). split; [done|].
      by apply found_entries.
  - apply NoDup_fst_filter, NoDup_fst_map_to_list.
  - intros id0 doc0 [H _]%found_entries. done.
Qed.

End PassStore.

(** *** extract.py *)

Lemma settled_present (w : world) (doc : document) :
  truthy (get doc ENGLISH_CONTENT_FIELD) = true ->
  truthy (get doc HINDI_CONTENT_FIELD) = true ->
  settled w doc = doc.
Proof.
  intros Hen Hhi. unfold settled, missing. cbn [content_field].
  by rewrite Hen, Hhi.
Qed.

Lemma visit_store (w : world) (st : list event * collection) (id : string)
    (doc : document) :
  st.2 !! id = Some doc ->
  (visit w st (id, doc)).2 = <[id := settled w doc]> st.2.
Proof.
  intros Hdoc. unfold visit.
  destruct (truthy (get doc ENGLISH_CONTENT_FIELD)) eqn:Hen;
    destruct (truthy (get doc HINDI_CONTENT_FIELD)) eqn:Hhi; cbn [andb];
    [by rewrite settled_present, insert_id|..];
    pose proof (stored_settled w id doc) as Hs;
    destruct (process_document w id doc) as [events updated];
    cbn [fst snd] in *; rewrite <- Hs;
    (destruct (decide (update_fields updated true true = ∅)) as [->|_];
     [by rewrite (left_id_L ∅ (∪)), insert_id
     |unfold update_one; by rewrite Hdoc]).
Qed.

Lemma settled_unfound (w : world) (doc : document) :
  query doc = false -> settled w doc = doc.
Proof.
  unfold query, settled, missing. cbn [content_field url_field].
  destruct (truthy (get doc ENGLISH_URL_FIELD)),
    (truthy (get doc HINDI_URL_FIELD)),
    (truthy (get doc ENGLISH_CONTENT_FIELD)),
    (truthy (get doc HINDI_CONTENT_FIELD)); done.
Qed.

Lemma main_settles (w : world) (c : collection) :
  (main w c).2 = settled w <$> c.
Proof.
  unfold main. apply (pass_pointwise (visit w) (settled w)).
  - intros st id doc. apply visit_store.
  - apply settled_unfound.
Qed.

(** *** en_hin_extract.py *)

Lemma get_fill (l : lang) (text : pystr) (doc : document) :
  get (fill l text doc) (content_field l)
  = if truthy text then text else get doc (content_field l).
Proof. unfold fill. destruct (truthy text); [|done]. apply get_insert_eq. Qed.

Lemma extract_content_text (w : world) (l : lang) (id : string)
    (doc : document) :
  (extract_content w l id (get doc (url_field l))).2 = extracted w l doc.
Proof. unfold extract_content. apply download_and_extract_text. Qed.

Lemma process_document_both_store (w : world) (id : string) (doc : document) :
  (process_document_both w id doc).2
  = if query_both doc
       && negb (truthy (get doc ENGLISH_CONTENT_FIELD)
                && truthy (get doc HINDI_CONTENT_FIELD))
    then fill Hindi (if truthy (get doc HINDI_CONTENT_FIELD) then []
                     else extracted w Hindi doc)
           (fill English (if truthy (get doc ENGLISH_CONTENT_FIELD) then []
                          else extracted w English doc) doc)
    else doc.
Proof.
  unfold process_document_both, query_both.
  destruct (truthy (get doc ENGLISH_URL_FIELD));
    destruct (truthy (get doc HINDI_URL_FIELD)); cbn [negb orb andb]; try done.
  pose proof (extract_content_text w English id doc) as Hen.
  pose proof (extract_content_text w Hindi id doc) as Hhi.
  cbn [url_field] in Hen, Hhi.
  destruct (extract_content w English id _) as [ev1 t1].
  destruct (extract_content w Hindi id _) as [ev2 t2].
  cbn [snd] in Hen, Hhi. subst t1 t2.
  destruct (truthy (get doc ENGLISH_CONTENT_FIELD));
    destruct (truthy (get doc HINDI_CONTENT_FIELD)); cbn [negb andb]; done.
Qed.

Lemma settled_both_present (w : world) (doc : document) :
  truthy (get doc ENGLISH_CONTENT_FIELD) = true ->
  truthy (get doc HINDI_CONTENT_FIELD) = true ->
  settled_both w doc = doc.
Proof.
  intros Hen Hhi. unfold settled_both.
  destruct (query_both doc); [by apply settled_present|done].
Qed.

Lemma get_fill_missing (l : lang) (text : pystr) (doc : document) :
  truthy (get doc (content_field l)) = false ->
  get (fill l text doc) (content_field l) = text.
Proof.
  intros H. rewrite get_fill, (get_falsy _ _ H). by destruct text.
Qed.

Lemma stored_settled_both (w : world) (id : string) (doc : document) :
  update_fields (process_document_both w id doc).2
    (negb (truthy (get doc ENGLISH_CONTENT_FIELD)))
    (negb (truthy (get doc HINDI_CONTENT_FIELD))) ∪ doc
  = settled_both w doc.
Proof.
  rewrite update_fields_union, process_document_both_store.
  unfold settled_both, settled, missing.
  cbn [content_field url_field].
  pose proof (get_fill_missing English) as Gen.
  pose proof (get_fill_missing Hindi) as Ghi.
  pose proof (get_fill_other Hindi English) as Ohe.
  pose proof (get_fill_other English Hindi) as Oeh.
  cbn [content_field] in Gen, Ghi, Ohe, Oeh.
  destruct (truthy (get doc ENGLISH_CONTENT_FIELD)) eqn:Cen;
    destruct (truthy (get doc HINDI_CONTENT_FIELD)) eqn:Chi;
    cbn [negb andb]; rewrite ?andb_false_r, ?andb_true_r.
  - rewrite !fill_nothing. by destruct (query_both doc).
  - rewrite !fill_nothing.
    destruct (query_both doc) eqn:Q.
    + apply andb_true_iff in Q as [_ ->]. by rewrite Ghi.
    + by rewrite (get_falsy _ _ Chi).
  - rewrite !fill_nothing.
    destruct (query_both doc) eqn:Q.
    + apply andb_true_iff in Q as [-> _]. by rewrite Gen.
    + by rewrite (get_falsy _ _ Cen).
  - destruct (query_both doc) eqn:Q.
    + apply andb_true_iff in Q as [-> ->].
      rewrite Ghi by (by rewrite Oeh).
      rewrite Ohe by done. by rewrite Gen.
    + by rewrite (get_falsy _ _ Cen), (get_falsy _ _ Chi).
Qed.

Lemma visit_both_store (w : world) (st : list event * collection)
    (id : string) (doc : document) :
  st.2 !! id = Some doc ->
  (visit_both w st (id, doc)).2 = <[id := settled_both w doc]> st.2.
Proof.
  intros Hdoc. unfold visit_both.
  destruct (truthy (get doc ENGLISH_CONTENT_FIELD)) eqn:Hen;
    destruct (truthy (get doc HINDI_CONTENT_FIELD)) eqn:Hhi; cbn [andb negb];
    [by rewrite settled_both_present, insert_id|..];
    pose proof (stored_settled_both w id doc) as Hs;
    rewrite Hen, Hhi in Hs; cbn [negb] in Hs;
    destruct (process_document_both w id doc) as [events updated];
    cbn [fst snd] in *; rewrite <- Hs;
    (match goal with
     | |- context [decide (?fields = ∅)] =>
         destruct (decide (fields = ∅)) as [->|_]
     end;
     [by rewrite (left_id_L ∅ (∪)), insert_id
     |unfold update_one; by rewrite Hdoc]).
Qed.

Lemma main_both_settles (w : world) (c : collection) :
  (main_both w c).2 = settled_both w <$> c.
Proof.
  unfold main_both. apply (pass_pointwise (visit_both w) (settled_both w)).
  - intros st id doc. apply visit_both_store.
  - intros doc Hq. unfold settled_both. by rewrite Hq.
Qed.

(** After a pass every stored document is what it was, except that each
    content field that was missing or empty while its URL was there holds the
    text extracted from the file behind the normalised URL, when one of the
    three download attempts left more than 1000 bytes and the text is not
    empty.  en_hin_extract.py does the same for the documents that have both
    URLs, and leaves the others alone. *)
Theorem pass_settles_every_document (w : world) (c : collection) :
  (main w c).2 = settled w <$> c
  /\ (main_both w c).2 = settled_both w <$> c.
Proof. split; [apply main_settles|apply main_both_settles]. Qed.

(** What a round keeps of a document: every field other than the two content
    fields, every field that holds a non-empty string, and the absence of
    empty strings. *)
Definition kept (doc doc' : document) : Prop :=
  (forall field, field <> ENGLISH_CONTENT_FIELD ->
                 field <> HINDI_CONTENT_FIELD -> doc' !! field = doc !! field)
  /\ (forall field, get doc field <> [] -> doc' !! field = doc !! field)
  /\ (forall field, doc' !! field = Some [] -> doc !! field = Some []).

Lemma kept_refl (doc : document) : kept doc doc.
Proof. by repeat split. Qed.

Lemma kept_fill (l : lang) (text : pystr) (doc0 doc : document) :
  get doc0 (content_field l) = [] \/ text = [] ->
  kept doc0 doc -> kept doc0 (fill l text doc).
Proof.
  intros Hl (Hother & Hfull & Hempty). unfold fill.
  destruct text as [|ch text]; [done|]. cbn [truthy].
  destruct Hl as [Hl|]; [|done].
  assert (forall field, field <> content_field l ->
            <[content_field l := ch :: text]> doc !! field = doc !! field) as Hne.
  { intros field H. by rewrite lookup_insert_ne. }
  repeat split.
  - intros field H1 H2. rewrite Hne; [by apply Hother|by destruct l].
  - intros field Hf. rewrite Hne; [by apply Hfull|]. intros ->. done.
  - intros field Hf. destruct (decide (field = content_field l)) as [->|H].
    + by rewrite lookup_insert_eq in Hf.
    + rewrite Hne in Hf by done. by apply Hempty.
Qed.

Lemma missing_empty (l : lang) (doc : document) (text : pystr) :
  get doc (content_field l) = []
  \/ (if missing l doc then text else []) = [].
Proof.
  unfold missing. destruct (truthy (get doc (content_field l))) eqn:E.
  - by right.
  - left. by apply get_falsy.
Qed.

Lemma settled_kept (w : world) (doc : document) : kept doc (settled w doc).
Proof.
  unfold settled. apply kept_fill; [apply missing_empty|].
  apply kept_fill; [apply missing_empty|]. apply kept_refl.
Qed.

Lemma settled_both_kept (w : world) (doc : document) :
  kept doc (settled_both w doc).
Proof.
  unfold settled_both. destruct (query_both doc);
    [apply settled_kept|apply kept_refl].
Qed.

(** A pass neither adds nor removes a document.  In a document, it changes
    no field other than the two content fields, it never replaces a content
    that is there by another, and it never stores an empty string; a document
    its query does not find stays as it is. *)
Theorem pass_keeps_what_is_stored (w : world) (c : collection) (id : string) :
  (c !! id = None ->
   (main w c).2 !! id = None /\ (main_both w c).2 !! id = None)
  /\ (forall doc, c !! id = Some doc ->
      (exists doc', (main w c).2 !! id = Some doc' /\ kept doc doc'
                    /\ (query doc = false -> doc' = doc))
      /\ (exists doc', (main_both w c).2 !! id = Some doc' /\ kept doc doc'
                       /\ (query_both doc = false -> doc' = doc))).
Proof.
  rewrite main_settles, main_both_settles, !lookup_fmap. split.
  - by intros ->.
  - intros doc ->. cbn. split; eexists; (split; [done|]).
    + split; [apply settled_kept|apply settled_unfound].
    + split; [apply settled_both_kept|].
      intros Hq. unfold settled_both. by rewrite Hq.
Qed.

Lemma pass_keeps_what_is_stored_witness :
  exists doc',
    (main sample_world sample_collection).2 !! "doc-1"%string = Some doc'
    /\ doc' !! HINDI_CONTENT_FIELD = Some sample_hindi
    /\ doc' !! ENGLISH_URL_FIELD
       = Some (lit "https://host/WebView.doWebDownload.do?id=1").
Proof.
  destruct (proj2 (pass_keeps_what_is_stored sample_world sample_collection
                     "doc-1") sample_document eq_refl)
    as [(doc' & Hdoc' & (Hother & Hfull & _) & _) _].
  exists doc'. split; [exact Hdoc'|]. split.
  - rewrite Hfull; [reflexivity|]. vm_compute. discriminate.
  - rewrite Hother; [reflexivity|discriminate..].
Defined.

(** When no download ever leaves more than 1000 bytes, a pass leaves the
    collection as it was. *)
Theorem failed_downloads_change_nothing (w : world) (c : collection) :
  (forall url attempt, (fetch w url attempt <= 1000)%Z) ->
  (main w c).2 = c /\ (main_both w c).2 = c.
Proof.
  intros Hfail.
  assert (forall url, downloaded w url = false) as Hdown.
  { intros url. unfold downloaded, MAX_RETRIES. cbn [seq existsb].
    by rewrite !(proj2 (Z.ltb_ge _ _) (Hfail url _)). }
  assert (forall doc, settled w doc = doc) as Hsame.
  { intros doc. unfold settled, extracted. rewrite !Hdown.
    by destruct (missing Hindi doc), (missing English doc). }
  rewrite main_settles, main_both_settles. split.
  - rewrite <- (map_fmap_id c) at 2. by apply map_fmap_ext.
  - rewrite <- (map_fmap_id c) at 2. apply map_fmap_ext.
    intros id doc _. unfold settled_both. by destruct (query_both doc).
Qed.

Definition offline_world : world :=
  {| fetch := fun _ _ => 0%Z; text_of := fun _ _ => lit "never read" |}.

Lemma failed_downloads_change_nothing_witness :
  (main offline_world sample_collection).2 = sample_collection
  /\ (main_both offline_world sample_collection).2 = sample_collection.
Proof.
  apply (failed_downloads_change_nothing offline_world sample_collection).
  intros url attempt. cbn. lia.
Defined.

(** The retry loop makes between one and three download attempts, numbered
    from 0; each attempt but the last leaves a file of at most 1000 bytes; the
    text is extracted exactly when the last attempt leaves more, and the loop
    gives up, with the content it was given, only after the third attempt. *)
Theorem download_retries_are_bounded (w : world) (l : lang) (id : string)
    (url content : pystr) :
  exists n,
    1 <= n <= MAX_RETRIES
    /\ (forall k, k < n - 1 -> (fetch w (Url.fix_url url) k <= 1000)%Z)
    /\ download_and_extract w l id url content
       = (if (1000 <? fetch w (Url.fix_url url) (n - 1))%Z
          then (map (Download l id) (seq 0 n) ++ [Extract l id],
                text_of w l (Url.fix_url url))
          else (map (Download l id) (seq 0 n), content))
    /\ ((fetch w (Url.fix_url url) (n - 1) <= 1000)%Z -> n = MAX_RETRIES).
Proof.
  unfold download_and_extract, MAX_RETRIES. cbn [retry_download].
  destruct (Z.ltb_spec 1000 (fetch w (Url.fix_url url) 0)) as [H0|H0].
  { exists 1. cbn [Nat.sub]. rewrite (proj2 (Z.ltb_lt _ _) H0).
    repeat split; try lia. }
  destruct (Z.ltb_spec 1000 (fetch w (Url.fix_url url) 1)) as [H1|H1].
  { exists 2. cbn [Nat.sub]. rewrite (proj2 (Z.ltb_lt _ _) H1).
    repeat split; try lia. intros k Hk. by replace k with 0 by lia. }
  exists 3. cbn [Nat.sub].
  assert (forall k, k < 2 -> (fetch w (Url.fix_url url) k <= 1000)%Z) as Hk.
  { intros k Hk. destruct k as [|[|k]]; [done|done|lia]. }
  destruct (Z.ltb_spec 1000 (fetch w (Url.fix_url url) 2)) as [H2|H2];
    repeat split; try lia; done.
Qed.

(* --------------------------------------------------------------------- *)
(** ** en_extract.py                                                       *)
(* --------------------------------------------------------------------- *)

Definition URL_FIELD : string := "Original Judgment".
Definition CONTENT_FIELD : string := "Original_Content".

(** [process_document(doc)] of en_extract.py: <<
    url = doc.get(URL_FIELD)
    if not url: return doc
    try:
        (the retry loop)
        content = ""
        if os.path.exists(pdf_path) and os.path.getsize(pdf_path) > 1000:
            content = pdf_to_text(pdf_path, txt_path, max_workers=8, lang='eng')
    except Exception as e: content = ""
    if content: doc[CONTENT_FIELD] = content
    return doc
    >> *)
Definition process_document_en (w : world) (id : string) (doc : document)
  : list event * document :=
  let url := get doc URL_FIELD in
  if negb (truthy url) then ([], doc)
  else
    let '(events, content) := download_and_extract w English id url [] in
    (events, if truthy content then <[CONTENT_FIELD := content]> doc else doc).

(** The query of [main] of en_extract.py: the URL is there. *)
Definition query_en (doc : document) : bool := truthy (get doc URL_FIELD).

(** One round of the loop of [main]: <<
    updated_doc = process_document(doc)
    content = updated_doc.get(CONTENT_FIELD, "")
    if content:
        collection.update_one({"_id": doc["_id"]}, {"$set": {CONTENT_FIELD: content}})
    >> *)
Definition visit_en (w : world) (st : list event * collection)
    (entry : string * document) : list event * collection :=
  let '(id, doc) := entry in
  let '(events, updated) := process_document_en w id doc in
  let content := get updated CONTENT_FIELD in
  (st.1 ++ events,
   if truthy content
   then update_one id {[ CONTENT_FIELD := content ]} st.2 else st.2).

Definition main_en (w : world) (c : collection) : list event * collection :=
  foldl (visit_en w) ([], c)
        (List.filter (fun entry => query_en entry.2) (map_to_list c)).

(** The text a pass of en_extract.py obtains for a document. *)
Definition extracted_en (w : world) (doc : document) : pystr :=
  let url := Url.fix_url (get doc URL_FIELD) in
  if downloaded w url then text_of w English url else [].

(** A document after a pass of en_extract.py, in the words of the comment
    in its [process_document]: the content is replaced by the extracted text,
    if there is a URL and a text, "even if they already have content". *)
Definition settled_en (w : world) (doc : document) : document :=
  if truthy (get doc URL_FIELD) && truthy (extracted_en w doc)
  then <[CONTENT_FIELD := extracted_en w doc]> doc
  else doc.

Lemma process_document_en_store (w : world) (id : string) (doc : document) :
  (process_document_en w id doc).2 = settled_en w doc.
Proof.
  unfold process_document_en, settled_en, extracted_en.
  destruct (truthy (get doc URL_FIELD)); cbn [negb andb]; [|done].
  pose proof (download_and_extract_text w English id (get doc URL_FIELD) [])
    as H.
  destruct (download_and_extract w English id (get doc URL_FIELD) [])
    as [events content]. cbn [snd] in *. subst content.
  by destruct (downloaded w _).
Qed.

Lemma visit_en_store (w : world) (st : list event * collection) (id : string)
    (doc : document) :
  st.2 !! id = Some doc ->
  (visit_en w st (id, doc)).2 = <[id := settled_en w doc]> st.2.
Proof.
  intros Hdoc. unfold visit_en.
  pose proof (process_document_en_store w id doc) as Hs.
  destruct (process_document_en w id doc) as [events updated].
  cbn [fst snd] in *. subst updated. unfold update_one. rewrite Hdoc.
  unfold settled_en.
  destruct (truthy (get doc URL_FIELD) && truthy (extracted_en w doc)) eqn:E.
  - rewrite get_insert_eq.
    apply andb_true_iff in E as [_ ->].
    by rewrite <- insert_union_singleton_l.
  - destruct (truthy (get doc CONTENT_FIELD)) eqn:Ec.
    + rewrite <- insert_union_singleton_l.
      by rewrite (insert_id doc) by by apply get_truthy.
    + by rewrite insert_id.
Qed.

Lemma main_en_settles (w : world) (c : collection) :
  (main_en w c).2 = settled_en w <$> c.
Proof.
  unfold main_en. apply (pass_pointwise (visit_en w) (settled_en w)).
  - intros st id doc. apply visit_en_store.
  - intros doc Hq. unfold settled_en, query_en in *. by rewrite Hq.
Qed.

(** A pass of en_extract.py replaces the content of every document that has
    a URL by the text it extracts, also when a content was already stored;
    when it extracts nothing (no download of more than 1000 bytes in three
    attempts, or an empty text) the document stays as it is. *)
Theorem en_extract_replaces_content (w : world) (c : collection)
    (id : string) (doc : document) :
  c !! id = Some doc ->
  let text := extracted_en w doc in
  (get doc URL_FIELD <> [] -> text <> [] ->
   (main_en w c).2 !! id = Some (<[CONTENT_FIELD := text]> doc))
  /\ (get doc URL_FIELD = [] \/ text = [] ->
      (main_en w c).2 !! id = Some doc).
Proof.
  intros Hdoc text. rewrite main_en_settles, lookup_fmap, Hdoc. cbn.
  unfold settled_en. fold text. split.
  - intros Hurl Htext.
    by destruct (get doc URL_FIELD) as [|c1 u], text as [|c2 t].
  - intros [-> | ->]; [done|]. by rewrite andb_false_r.
Qed.

(** A document with a URL and a content stored by an earlier pass. *)
Definition processed_document : gmap string (list N) :=
  {[ URL_FIELD := lit "https://host/WebDownload.do?id=3";
     CONTENT_FIELD := lit "old text" ]}.

Lemma en_extract_replaces_content_witness :
  (main_en sample_world {[ "doc-3"%string := processed_document ]}).2
    !! "doc-3"%string
  = Some (<[CONTENT_FIELD := lit "The appeal is allowed."]> processed_document).
Proof.
  refine (proj1 (en_extract_replaces_content sample_world
                   {[ "doc-3"%string := processed_document ]} "doc-3"
                   processed_document _) _ _).
  - reflexivity.
  - vm_compute. discriminate.
  - vm_compute. discriminate.
Defined.

(* --------------------------------------------------------------------- *)
(** ** What a pass downloads                                               *)
(* --------------------------------------------------------------------- *)

Section PassEvents.
Context (step : list event * collection -> string * document ->
                list event * collection).
Context (events_of : string -> document -> list event).
Hypothesis Hstep : forall st id doc,
  (step st (id, doc)).1 = st.1 ++ events_of id doc.

Lemma pass_events (entries : list (string * document))
    (st : list event * collection) :
  (foldl step st entries).1
  = st.1 ++ flat_map (fun entry => events_of entry.1 entry.2) entries.
Proof.
  revert st; induction entries as [|[id doc] entries IH]; intros st;
    cbn [foldl flat_map].
  - by rewrite app_nil_r.
  - by rewrite IH, Hstep, app_assoc.
Qed.

End PassEvents.

(** The events of one round of extract.py. *)
Definition round_events (w : world) (id : string) (doc : document)
  : list event :=
  if truthy (get doc ENGLISH_CONTENT_FIELD)
     && truthy (get doc HINDI_CONTENT_FIELD)
  then [] else (process_document w id doc).1.

Definition round_events_both (w : world) (id : string) (doc : document)
  : list event :=
  if truthy (get doc ENGLISH_CONTENT_FIELD)
     && truthy (get doc HINDI_CONTENT_FIELD)
  then [] else (process_document_both w id doc).1.

Lemma main_events (w : world) (c : collection) :
  (main w c).1
  = flat_map (fun entry => round_events w entry.1 entry.2)
      (List.filter (fun entry => query entry.2) (map_to_list c)).
Proof.
  unfold main. rewrite (pass_events (visit w) (round_events w)); [done|].
  intros st id doc. unfold visit, round_events.
  destruct (_ && _); [by rewrite app_nil_r|].
  by destruct (process_document w id doc).
Qed.

Lemma main_both_events (w : world) (c : collection) :
  (main_both w c).1
  = flat_map (fun entry => round_events_both w entry.1 entry.2)
      (List.filter (fun entry => query_both entry.2) (map_to_list c)).
Proof.
  unfold main_both.
  rewrite (pass_events (visit_both w) (round_events_both w)); [done|].
  intros st id doc. unfold visit_both, round_events_both.
  destruct (_ && _); [by rewrite app_nil_r|].
  by destruct (process_document_both w id doc).
Qed.

Lemma main_en_events (w : world) (c : collection) :
  (main_en w c).1
  = flat_map (fun entry => (process_document_en w entry.1 entry.2).1)
      (List.filter (fun entry => query_en entry.2) (map_to_list c)).
Proof.
  unfold main_en.
  rewrite (pass_events (visit_en w)
             (fun id doc => (process_document_en w id doc).1)); [done|].
  intros st id doc. unfold visit_en.
  by destruct (process_document_en w id doc).
Qed.

Lemma about_event (e : event) : about (event_lang e) (event_id e) e.
Proof. done. Qed.

(** The events of [process_document] of extract.py are about languages that
    need work. *)
Lemma process_document_events (w : world) (id : string) (doc : document)
    (e : event) :
  e ∈ (process_document w id doc).1 ->
  event_id e = id /\ missing (event_lang e) doc = true.
Proof.
  unfold process_document.
  pose proof (download_and_extract_events w English id
                (get doc ENGLISH_URL_FIELD) (get doc ENGLISH_CONTENT_FIELD)) as Hen.
  pose proof (download_and_extract_events w Hindi id
                (get doc HINDI_URL_FIELD) (get doc HINDI_CONTENT_FIELD)) as Hhi.
  destruct (download_and_extract w English id _ _) as [ev1 t1].
  destruct (download_and_extract w Hindi id _ _) as [ev2 t2].
  rewrite Forall_forall in Hen, Hhi. cbn [fst] in Hen, Hhi.
  destruct (negb (truthy (get doc ENGLISH_CONTENT_FIELD))
            && truthy (get doc ENGLISH_URL_FIELD)) eqn:Men;
    destruct (negb (truthy (get doc HINDI_CONTENT_FIELD))
              && truthy (get doc HINDI_URL_FIELD)) eqn:Mhi;
    cbn [fst]; rewrite ?app_nil_r; cbn [app];
    intros He; try (by inversion He);
    try apply elem_of_app in He as [He|He];
    try (destruct (Hen e He) as [-> ->]; by split);
    try (destruct (Hhi e He) as [-> ->]; by split).
Qed.

Lemma process_document_both_events (w : world) (id : string) (doc : document)
    (e : event) :
  e ∈ (process_document_both w id doc).1 ->
  event_id e = id /\ missing (event_lang e) doc = true
  /\ query_both doc = true.
Proof.
  unfold process_document_both, query_both, extract_content.
  destruct (truthy (get doc ENGLISH_URL_FIELD)) eqn:Uen;
    destruct (truthy (get doc HINDI_URL_FIELD)) eqn:Uhi; cbn [negb orb andb];
    try (by intros He; inversion He).
  pose proof (download_and_extract_events w English id
                (get doc ENGLISH_URL_FIELD) []) as Hen.
  pose proof (download_and_extract_events w Hindi id
                (get doc HINDI_URL_FIELD) []) as Hhi.
  destruct (download_and_extract w English id _ _) as [ev1 t1].
  destruct (download_and_extract w Hindi id _ _) as [ev2 t2].
  rewrite Forall_forall in Hen, Hhi. cbn [fst] in Hen, Hhi.
  unfold missing.
  destruct (truthy (get doc ENGLISH_CONTENT_FIELD)) eqn:Cen;
    destruct (truthy (get doc HINDI_CONTENT_FIELD)) eqn:Chi;
    cbn [negb andb fst]; rewrite ?app_nil_r; cbn [app];
    intros He; try (by inversion He);
    try apply elem_of_app in He as [He|He];
    try (destruct (Hen e He) as [-> ->]; cbn [content_field url_field];
         by rewrite Cen, Uen);
    try (destruct (Hhi e He) as [-> ->]; cbn [content_field url_field];
         by rewrite Chi, Uhi).
Qed.

Lemma process_document_starts (w : world) (id : string) (doc : document)
    (l : lang) :
  missing l doc = true -> Download l id 0 ∈ (process_document w id doc).1.
Proof.
  intros Hm. unfold process_document.
  pose proof (download_and_extract_starts w English id
                (get doc ENGLISH_URL_FIELD) (get doc ENGLISH_CONTENT_FIELD)) as Hen.
  pose proof (download_and_extract_starts w Hindi id
                (get doc HINDI_URL_FIELD) (get doc HINDI_CONTENT_FIELD)) as Hhi.
  destruct (download_and_extract w English id _ _) as [ev1 t1].
  destruct (download_and_extract w Hindi id _ _) as [ev2 t2].
  cbn [fst] in Hen, Hhi. unfold missing in Hm.
  destruct l; cbn [content_field url_field] in Hm; rewrite Hm.
  - destruct (negb (truthy (get doc HINDI_CONTENT_FIELD))
              && truthy (get doc HINDI_URL_FIELD)); cbn [fst]; set_solver.
  - destruct (negb (truthy (get doc ENGLISH_CONTENT_FIELD))
              && truthy (get doc ENGLISH_URL_FIELD)); cbn [fst]; set_solver.
Qed.

Lemma process_document_both_starts (w : world) (id : string) (doc : document)
    (l : lang) :
  query_both doc = true -> missing l doc = true ->
  Download l id 0 ∈ (process_document_both w id doc).1.
Proof.
  intros [Uen Uhi]%andb_true_iff Hm.
  unfold process_document_both, extract_content. rewrite Uen, Uhi.
  cbn [negb orb].
  pose proof (download_and_extract_starts w English id
                (get doc ENGLISH_URL_FIELD) []) as Hen.
  pose proof (download_and_extract_starts w Hindi id
                (get doc HINDI_URL_FIELD) []) as Hhi.
  destruct (download_and_extract w English id _ _) as [ev1 t1].
  destruct (download_and_extract w Hindi id _ _) as [ev2 t2].
  cbn [fst] in Hen, Hhi. unfold missing in Hm.
  destruct l; cbn [content_field url_field] in Hm;
    apply andb_true_iff in Hm as [Hc%negb_true_iff _]; rewrite Hc.
  - cbn [andb negb].
    destruct (truthy (get doc HINDI_CONTENT_FIELD)); cbn [negb fst];
      set_solver.
  - rewrite andb_false_r.
    destruct (truthy (get doc ENGLISH_CONTENT_FIELD)); cbn [negb fst];
      set_solver.
Qed.

Lemma missing_query (l : lang) (doc : document) :
  missing l doc = true -> query doc = true.
Proof.
  unfold missing, query.
  destruct l; cbn [content_field url_field];
    intros [-> ->]%andb_true_iff; cbn [negb andb orb];
    by rewrite ?orb_true_r.
Qed.

Lemma missing_absent (l : lang) (doc : document) :
  missing l doc = true ->
  truthy (get doc ENGLISH_CONTENT_FIELD)
  && truthy (get doc HINDI_CONTENT_FIELD) = false.
Proof.
  unfold missing.
  destruct l; cbn [content_field];
    intros [->%negb_true_iff _]%andb_true_iff; [done|apply andb_false_r].
Qed.

(** A pass downloads for a language of a document exactly when the stored
    document lacks the content of that language and has its URL (in
    en_hin_extract.py: and has both URLs): every download and every extraction
    of the pass is for such a language of such a document, and for each of
    them the pass makes a first download attempt.  A pass of en_extract.py
    downloads for every document that has a URL, whatever its content. *)
Theorem pass_downloads_exactly_what_is_missing (w : world) (c : collection) :
  (forall e, e ∈ (main w c).1 ->
     exists doc, c !! event_id e = Some doc
                 /\ missing (event_lang e) doc = true)
  /\ (forall l id doc, c !! id = Some doc -> missing l doc = true ->
        Download l id 0 ∈ (main w c).1)
  /\ (forall e, e ∈ (main_both w c).1 ->
        exists doc, c !! event_id e = Some doc
                    /\ missing (event_lang e) doc = true
                    /\ query_both doc = true)
  /\ (forall l id doc, c !! id = Some doc -> query_both doc = true ->
        missing l doc = true -> Download l id 0 ∈ (main_both w c).1)
  /\ (forall id doc, c !! id = Some doc -> get doc URL_FIELD <> [] ->
        Download English id 0 ∈ (main_en w c).1).
Proof.
  rewrite main_events, main_both_events, main_en_events.
  repeat apply conj.
  - intros e (entry & [Hentry _]%filter_In & He)%list_elem_of_In%in_flat_map.
    destruct entry as [id doc]. apply list_elem_of_In, elem_of_map_to_list in Hentry.
    cbn [fst snd] in He. apply list_elem_of_In in He.
    unfold round_events in He. destruct (_ && _); [by inversion He|].
    apply process_document_events in He as [-> Hm]. by exists doc.
  - intros l id doc Hdoc Hm.
    apply list_elem_of_In, in_flat_map. exists (id, doc). split.
    + apply filter_In. split; [by apply list_elem_of_In, elem_of_map_to_list|].
      by apply (missing_query l).
    + cbn [fst snd]. unfold round_events. rewrite (missing_absent l doc Hm).
      by apply list_elem_of_In, process_document_starts.
  - intros e (entry & [Hentry _]%filter_In & He)%list_elem_of_In%in_flat_map.
    destruct entry as [id doc]. apply list_elem_of_In, elem_of_map_to_list in Hentry.
    cbn [fst snd] in He. apply list_elem_of_In in He.
    unfold round_events_both in He. destruct (_ && _); [by inversion He|].
    apply process_document_both_events in He as (-> & Hm & Hq). by exists doc.
  - intros l id doc Hdoc Hq Hm.
    apply list_elem_of_In, in_flat_map. exists (id, doc). split.
    + apply filter_In. split; [by apply list_elem_of_In, elem_of_map_to_list|done].
    + cbn [fst snd]. unfold round_events_both.
      rewrite (missing_absent l doc Hm).
      by apply list_elem_of_In, process_document_both_starts.
  - intros id doc Hdoc Hurl.
    assert (truthy (get doc URL_FIELD) = true) as Ht
      by by destruct (get doc URL_FIELD).
    apply list_elem_of_In, in_flat_map. exists (id, doc). split.
    + apply filter_In. split; [by apply list_elem_of_In, elem_of_map_to_list|done].
    + cbn [fst snd]. unfold process_document_en. rewrite Ht. cbn [negb].
      pose proof (download_and_extract_starts w English id
                    (get doc URL_FIELD) []) as H.
      destruct (download_and_extract w English id _ _) as [ev t].
      by apply list_elem_of_In.
Qed.

Lemma pass_downloads_exactly_what_is_missing_witness :
  Download English "doc-1" 0 ∈ (main sample_world sample_collection).1
  /\ Download Hindi "doc-1" 0 ∉ (main sample_world sample_collection).1.
Proof.
  destruct (pass_downloads_exactly_what_is_missing sample_world
              sample_collection) as (Honly & Hall & _).
  split.
  - apply (Hall English "doc-1" sample_document); reflexivity.
  - intros He. destruct (Honly _ He) as (doc & Hdoc & Hm).
    cbn [event_id event_lang] in Hdoc, Hm.
    assert (doc = sample_document) as ->.
    { apply (inj Some). rewrite <- Hdoc. reflexivity. }
    vm_compute in Hm. discriminate.
Defined.

End Pipeline.

(* ===================================================================== *)
(** * extract.py: the two extractors behind a pass                        *)
(* ===================================================================== *)
Module Extract.
Import Py Exn Pdf.

(** [extract_english_content(pdf_path)]: <<
    try:
        extracted_text = extract_text_from_pdf(pdf_path)
        return extracted_text or ""
    except Exception as e:
        return ""
    >> *)
Definition extract_english_content (L : ParsingText2.libs) (f : pdf_file)
    (order : Z -> list nat) : pystr :=
  match (ParsingText2.extract_text_from_pdf L f order).2 with
  | Ok (Some extracted_text) =>
      if truthy extracted_text then extracted_text else []
  | Ok None => []
  | Raised => []
  end.

(** The output file of [pdf_to_text] as [extract_hindi_content] finds it after
    the call: whether it exists, what reading it gives, and its removal. *)
Record output_txt := {
  exists_txt : bool;
  read_txt : result pystr;
  remove_txt : result ();
}.

(** [extract_hindi_content(pdf_path)]: <<
    try:
        text = pdf_to_text(pdf_path, output_path, max_workers=8, lang='hin')
        if not text and os.path.exists(output_path):
            with open(output_path, 'r', encoding='utf-8') as f: text = f.read()
        if os.path.exists(output_path): os.remove(output_path)
        return text
    except Exception as e:
        return ""
    >> *)
Definition extract_hindi_content (fs : OcrParsingHin.scratch) (f : pdf_file)
    (order : list nat) (out : output_txt) : pystr :=
  match
    text ← OcrParsingHin.pdf_to_text fs f (lit "hin") order;
    text ← (if negb (truthy text) && exists_txt out then read_txt out
            else mret text);
    _ ← (if exists_txt out then remove_txt out else mret ());
    mret text
  with
  | Ok text => text
  | Raised => []
  end.

(** Where a pass of extract.py gets its files from: for a URL, the size of
    the file each download attempt leaves, the file as the extractors see it,
    and what the extractors meet when they run on it. *)
Record site := {
  size_at : pystr -> nat -> Z;
  file_at : pystr -> pdf_file;
  ocr_order : pystr -> Z -> list nat;
  scratch_at : pystr -> OcrParsingHin.scratch;
  completion_at : pystr -> list nat;
  output_at : pystr -> output_txt;
}.

(** The world of a pass of extract.py, with the extractors of the
    repository in it. *)
Definition extracting_world (L : ParsingText2.libs) (s : site)
  : Pipeline.world :=
  {| Pipeline.fetch := size_at s;
     Pipeline.text_of := fun l url =>
       match l with
       | Pipeline.English =>
           extract_english_content L (file_at s url) (ocr_order s url)
       | Pipeline.Hindi =>
           extract_hindi_content (scratch_at s url) (file_at s url)
             (completion_at s url) (output_at s url)
       end |}.

(** A text fit to be stored as English content. *)
Definition fit (text : pystr) : Prop :=
  50 <= length text /\ tight text = true
  /\ Forall (fun c => ParsingText2.allowed c = true) text.

Lemma extract_english_content_fit (L : ParsingText2.libs) (f : pdf_file)
    (order : Z -> list nat) :
  extract_english_content L f order = []
  \/ fit (extract_english_content L f order).
Proof.
  unfold extract_english_content.
  destruct (ParsingText2.extract_text_from_pdf_result L f order)
    as (events & res & -> & [[-> _]|(r & -> & Hr & _)]);
    cbn [snd]; [by left|].
  destruct r as [text|]; [|by left].
  destruct text as [|c text]; [by left|]. by right.
Qed.

(** The English content a pass of extract.py stores is never short and never
    holds a character outside the allow-list: after the pass, the English
    content of a document is what it was, or a text of at least 50 allow-listed
    characters without whitespace at either end. *)
Theorem stored_english_content_is_fit (L : ParsingText2.libs) (s : site)
    (c : gmap string (gmap string (list N))) (id : string)
    (doc : gmap string (list N)) :
  c !! id = Some doc ->
  exists doc',
    (Pipeline.main (extracting_world L s) c).2 !! id = Some doc'
    /\ (doc' !! Pipeline.ENGLISH_CONTENT_FIELD
        = doc !! Pipeline.ENGLISH_CONTENT_FIELD
        \/ exists text,
             doc' !! Pipeline.ENGLISH_CONTENT_FIELD = Some text /\ fit text).
Proof.
  intros Hdoc. rewrite Pipeline.main_settles, lookup_fmap, Hdoc. cbn.
  eexists. split; [done|].
  unfold Pipeline.settled.
  set (en := if Pipeline.missing Pipeline.English doc
             then Pipeline.extracted (extracting_world L s) Pipeline.English doc
             else []).
  assert (en = [] \/ fit en) as Hen.
  { unfold en, Pipeline.extracted. destruct (Pipeline.missing _ doc); [|by left].
    destruct (Pipeline.downloaded _ _); [|by left].
    apply extract_english_content_fit. }
  set (hi := if Pipeline.missing Pipeline.Hindi _ then _ else _).
  assert (forall d : gmap string (list N),
            Pipeline.fill Pipeline.Hindi hi d !! Pipeline.ENGLISH_CONTENT_FIELD
            = d !! Pipeline.ENGLISH_CONTENT_FIELD) as ->.
  { intros d. unfold Pipeline.fill. destruct (truthy hi); [|done].
    by rewrite lookup_insert_ne. }
  unfold Pipeline.fill. destruct Hen as [-> | Hfit]; [by left|].
  destruct (truthy en) eqn:E; [|by left].
  right. exists en. split; [|done]. apply lookup_insert_eq.
Qed.

(** A site that serves the sample judgment for every URL. *)
Definition sample_site : site :=
  {| size_at := fun _ _ => 5000%Z;
     file_at := fun _ => ParsingText2.typed_file;
     ocr_order := fun _ _ => [];
     scratch_at := fun _ => OcrParsingHin.working_scratch;
     completion_at := fun _ => [];
     output_at := fun _ =>
       {| exists_txt := true; read_txt := Ok []; remove_txt := Ok () |} |}.

Lemma stored_english_content_is_fit_witness :
  exists doc' text,
    (Pipeline.main
       (extracting_world
          (ParsingText2.ascii_tables ParsingText2.letters_detector) sample_site)
       Pipeline.sample_collection).2 !! "doc-1"%string = Some doc'
    /\ doc' !! Pipeline.ENGLISH_CONTENT_FIELD = Some text /\ fit text.
Proof.
  destruct (stored_english_content_is_fit
              (ParsingText2.ascii_tables ParsingText2.letters_detector)
              sample_site Pipeline.sample_collection "doc-1"
              Pipeline.sample_document eq_refl)
    as (doc' & Hdoc' & [Hsame|(text & Htext & Hfit)]).
  - exfalso.
    assert ((Pipeline.main
               (extracting_world
                  (ParsingText2.ascii_tables ParsingText2.letters_detector)
                  sample_site)
               Pipeline.sample_collection).2 !! "doc-1"%string
            = Some (<[Pipeline.ENGLISH_CONTENT_FIELD :=
                        lit "The appeal is allowed. The order of the High Court is set aside"]>
                      Pipeline.sample_document)) as Hcalc
      by (vm_compute; reflexivity).
    rewrite Hcalc in Hdoc'. injection Hdoc' as <-.
    rewrite lookup_insert_eq in Hsame.
    replace (Pipeline.sample_document !! Pipeline.ENGLISH_CONTENT_FIELD)
      with (@None (list N)) in Hsame by (vm_compute; reflexivity).
    congruence.
  - exists doc', text. split; [exact Hdoc'|]. split; [exact Htext|exact Hfit].
Defined.

End Extract.

(* ===================================================================== *)
(** * Python floats                                                       *)
(* ===================================================================== *)
Module PyFloat.
Local Open Scope Q_scope.

(** A finite Python [float] is an IEEE 754 binary64 number; it is modelled
    by the rational it stands for.  Every arithmetic operation returns the
    exact result rounded to the nearest binary64 number, ties to even
    ([fl]).  Overflow to infinity (beyond 2^1024) is not modelled: the
    computation of train_devSplit.py stays far below. *)

Definition pow2 (e : Z) : Q := 2 ^ e.

(** For [x > 0], the exponent [e] with [2^e <= x < 2^(e+1)]. *)
Definition ilog2 (x : Q) : Z :=
  let e0 := (Z.log2 (Qnum x) - Z.log2 (Zpos (Qden x)))%Z in
  if Qle_bool (pow2 e0) x then e0 else (e0 - 1)%Z.

(** Round to the nearest integer, ties to even. *)
Definition rne (y : Q) : Z :=
  let f := Qfloor y in
  match Qcompare (y - inject_Z f) (1 # 2) with
  | Lt => f
  | Gt => (f + 1)%Z
  | Eq => if Z.even f then f else (f + 1)%Z
  end.

(** Rounding of a positive rational: 53 significant bits, and no exponent
    below that of the subnormal numbers. *)
Definition fl_pos (x : Q) : Q :=
  let s := Z.max (ilog2 x - 52) (-1074) in
  inject_Z (rne (x / pow2 s)) * pow2 s.

Definition fl (x : Q) : Q :=
  match Qcompare x 0 with
  | Eq => 0
  | Gt => fl_pos x
  | Lt => - fl_pos (- x)
  end.

(** [float(n)] for an [int], [a - b] and [a * b] on floats. *)
Definition of_int (n : Z) : Q := fl (inject_Z n).
Definition sub (a b : Q) : Q := fl (a - b).
Definition mul (a b : Q) : Q := fl (a * b).

(** [int(y)]: towards zero. *)
Definition to_int (y : Q) : Z :=
  if Qle_bool 0 y then Qfloor y else Qceiling y.

(** The unit roundoff and the smallest rounding step. *)
Definition u : Q := pow2 (-53).
Definition tiny : Q := pow2 (-1075).

Lemma pow2_pos (e : Z) : 0 < pow2 e.
Proof. apply Qpower_0_lt. reflexivity. Qed.

Lemma pow2_plus (a b : Z) : pow2 (a + b) == pow2 a * pow2 b.
Proof. apply Qpower_plus. discriminate. Qed.

Lemma pow2_le (a b : Z) : (a <= b)%Z -> pow2 a <= pow2 b.
Proof. intros H. apply Qpower_le_compat_l; [done|]. discriminate. Qed.

Lemma pow2_Z (n : Z) : (0 <= n)%Z -> pow2 n == inject_Z (2 ^ n).
Proof. intros Hn. symmetry. by apply (Zpower_Qpower 2 n). Qed.

Lemma rne_near (y : Q) :
  y - (1 # 2) <= inject_Z (rne y) <= y + (1 # 2).
Proof.
  unfold rne. pose proof (Qfloor_le y) as Hlo. pose proof (Qlt_floor y) as Hhi.
  rewrite inject_Z_plus in Hhi. change (inject_Z 1) with 1 in Hhi.
  destruct (Qcompare (y - inject_Z (Qfloor y)) (1 # 2)) eqn:E.
  - apply Qeq_alt in E.
    destruct (Z.even (Qfloor y)); rewrite ?inject_Z_plus;
      change (inject_Z 1) with 1; split; lra.
  - apply Qlt_alt in E. split; lra.
  - apply Qgt_alt in E. rewrite inject_Z_plus.
    change (inject_Z 1) with 1. split; lra.
Qed.

Lemma rne_nonneg (y : Q) : 0 <= y -> (0 <= rne y)%Z.
Proof.
  intros Hy. pose proof (Qfloor_resp_le 0 y Hy) as Hf.
  change (Qfloor 0) with 0%Z in Hf. unfold rne.
  destruct (Qcompare _ _); [destruct (Z.even _)|..]; lia.
Qed.

Lemma ilog2_lower (x : Q) : 0 < x -> pow2 (ilog2 x) <= x.
Proof.
  intros Hx. unfold ilog2.
  destruct (Qle_bool _ x) eqn:E; [by apply Qle_bool_iff|].
  destruct x as [p q]. cbn [Qnum Qden].
  assert (0 < p)%Z as Hp by (unfold Qlt in Hx; simpl in Hx; lia).
  pose proof (Z.log2_spec p Hp) as [Hpl _].
  pose proof (Z.log2_spec (Zpos q) (Pos2Z.is_pos q)) as [_ Hqu].
  pose proof (Z.log2_nonneg p) as Ha.
  pose proof (Z.log2_nonneg (Zpos q)) as Hb.
  set (a := Z.log2 p) in *. set (b := Z.log2 (Zpos q)) in *.
  replace (a - b - 1)%Z with (a + - (b + 1))%Z by lia.
  rewrite pow2_plus. unfold pow2 at 2. rewrite Qpower_opp.
  fold (pow2 (b + 1)). rewrite (pow2_Z a), (pow2_Z (b + 1)) by lia.
  rewrite (Qmake_Qdiv p q).
  assert (0 < inject_Z (2 ^ (b + 1))) as Hden.
  { rewrite <- pow2_Z by lia. apply pow2_pos. }
  assert (0 < inject_Z (Zpos q)) as Hq by reflexivity.
  apply Qle_shift_div_l; [done|].
  unfold Qdiv. rewrite <- Qmult_assoc, (Qmult_comm (/ _)), Qmult_assoc.
  apply Qle_shift_div_r; [done|].
  rewrite <- !inject_Z_mult. rewrite <- Zle_Qle. nia.
Qed.

(** The rounding error of a positive number: relative up to the unit
    roundoff, or below the smallest step. *)
Lemma fl_pos_error (x : Q) :
  0 < x ->
  0 <= fl_pos x /\ x - (x * u + tiny) <= fl_pos x <= x + (x * u + tiny).
Proof.
  intros Hx. unfold fl_pos.
  set (s := Z.max (ilog2 x - 52) (-1074)).
  pose proof (pow2_pos s) as Hs.
  pose proof (rne_near (x / pow2 s)) as Hn.
  assert (0 <= x / pow2 s) as Hy.
  { apply Qle_shift_div_l; [done|]. lra. }
  pose proof (rne_nonneg _ Hy) as Hm. rewrite Zle_Qle in Hm.
  change (inject_Z 0) with 0 in Hm.
  assert (x / pow2 s * pow2 s == x) as Hxs by (field; lra).
  set (m := inject_Z (rne (x / pow2 s))) in *.
  set (y := x / pow2 s) in *.
  assert (pow2 s * (1 # 2) <= x * u + tiny) as Hstep.
  { pose proof (pow2_pos (-1075)) as Ht. fold tiny in Ht.
    pose proof (pow2_pos (-53)) as Hu. fold u in Hu.
    destruct (Z.max_spec (ilog2 x - 52) (-1074)) as [[_ Hmax]|[_ Hmax]];
      fold s in Hmax; rewrite Hmax.
    - change (pow2 (-1074) * (1 # 2)) with (pow2 (-1074) * pow2 (-1)).
      rewrite <- pow2_plus. change (pow2 (-1074 + -1)) with tiny. nra.
    - replace (ilog2 x - 52)%Z with (ilog2 x + -52)%Z by lia.
      change (1 # 2) with (pow2 (-1)).
      rewrite pow2_plus, <- Qmult_assoc, <- pow2_plus.
      change (pow2 (-52 + -1)) with u.
      pose proof (ilog2_lower x Hx). nra. }
  split; [nra|]. split; nra.
Qed.

Lemma fl_error (x : Q) :
  0 <= x ->
  0 <= fl x /\ x - (x * u + tiny) <= fl x <= x + (x * u + tiny).
Proof.
  intros Hx. unfold fl. destruct (Qcompare x 0) eqn:E.
  - apply Qeq_alt in E.
    pose proof (pow2_pos (-1075)) as Ht. fold tiny in Ht.
    pose proof (pow2_pos (-53)) as Hu. fold u in Hu. split; [lra|]. split; nra.
  - apply Qlt_alt in E. lra.
  - apply Qgt_alt in E. by apply fl_pos_error.
Qed.

(** ** Rounding is a function of the number, and exact on small integers *)

Lemma pow2_lt (a b : Z) : (a < b)%Z -> pow2 a < pow2 b.
Proof. intros H. by apply Qpower_lt_compat_l. Qed.

Lemma ilog2_upper (x : Q) : 0 < x -> x < pow2 (ilog2 x + 1).
Proof.
  intros Hx. unfold ilog2.
  destruct (Qle_bool _ x) eqn:E.
  - destruct x as [p q]. cbn [Qnum Qden].
    assert (0 < p)%Z as Hp by (unfold Qlt in Hx; simpl in Hx; lia).
    pose proof (Z.log2_spec p Hp) as [_ Hpu].
    pose proof (Z.log2_spec (Zpos q) (Pos2Z.is_pos q)) as [Hql _].
    pose proof (Z.log2_nonneg p) as Ha.
    pose proof (Z.log2_nonneg (Zpos q)) as Hb.
    set (a := Z.log2 p) in *. set (b := Z.log2 (Zpos q)) in *.
    replace (a - b + 1)%Z with ((a + 1) + - b)%Z by lia.
    rewrite pow2_plus. unfold pow2 at 2. rewrite Qpower_opp.
    fold (pow2 b). rewrite (pow2_Z (a + 1)), (pow2_Z b) by lia.
    rewrite (Qmake_Qdiv p q).
    assert (0 < inject_Z (2 ^ b)) as Hden.
    { rewrite <- pow2_Z by lia. apply pow2_pos. }
    assert (0 < inject_Z (Zpos q)) as Hq by reflexivity.
    apply Qlt_shift_div_r; [done|].
    unfold Qdiv. rewrite <- Qmult_assoc, (Qmult_comm (/ _)), Qmult_assoc.
    apply Qlt_shift_div_l; [done|].
    rewrite <- !inject_Z_mult. rewrite <- Zlt_Qlt.
    replace (Z.succ a) with (a + 1)%Z in Hpu by lia. nia.
  - replace (Z.log2 (Qnum x) - Z.log2 (Zpos (Qden x)) - 1 + 1)%Z
      with (Z.log2 (Qnum x) - Z.log2 (Zpos (Qden x)))%Z by lia.
    apply Qnot_le_lt. intros H. apply Qle_bool_iff in H. congruence.
Qed.

(** The exponent is the only one that fits. *)
Lemma ilog2_unique (x : Q) (e : Z) :
  0 < x -> pow2 e <= x -> x < pow2 (e + 1) -> ilog2 x = e.
Proof.
  intros Hx Hlo Hhi.
  pose proof (ilog2_lower x Hx) as Hlo'. pose proof (ilog2_upper x Hx) as Hhi'.
  destruct (Z.lt_trichotomy (ilog2 x) e) as [H|[H|H]]; [|done|].
  - pose proof (pow2_le (ilog2 x + 1) e ltac:(lia)). lra.
  - pose proof (pow2_le (e + 1) (ilog2 x) ltac:(lia)). lra.
Qed.

Lemma ilog2_comp (x y : Q) : x == y -> 0 < x -> ilog2 x = ilog2 y.
Proof.
  intros E Hx. apply ilog2_unique; [done|..].
  - rewrite E. apply ilog2_lower. by rewrite <- E.
  - rewrite E. apply ilog2_upper. by rewrite <- E.
Qed.

Lemma rne_comp (x y : Q) : x == y -> rne x = rne y.
Proof.
  intros E. unfold rne. rewrite (Qfloor_comp _ _ E).
  assert (x - inject_Z (Qfloor y) == y - inject_Z (Qfloor y)) as E'
    by (by rewrite E).
  by rewrite (Qcompare_comp _ _ E' _ _ (Qeq_refl (1 # 2))).
Qed.

Lemma fl_pos_comp (x y : Q) : x == y -> 0 < x -> fl_pos x = fl_pos y.
Proof.
  intros E Hx. unfold fl_pos. rewrite (ilog2_comp x y E Hx).
  f_equal. f_equal. apply rne_comp. by rewrite E.
Qed.

(** Two representations of a number round to the same float. *)
Lemma fl_comp (x y : Q) : x == y -> fl x = fl y.
Proof.
  intros E. unfold fl.
  rewrite (Qcompare_comp _ _ E _ _ (Qeq_refl 0)).
  destruct (Qcompare y 0) eqn:C; [done| |].
  - apply Qlt_alt in C. f_equal. apply fl_pos_comp; [by rewrite E|].
    rewrite E. lra.
  - apply Qgt_alt in C. apply fl_pos_comp; [done|]. rewrite E. lra.
Qed.

Lemma rne_int (m : Z) : rne (inject_Z m) = m.
Proof.
  unfold rne. rewrite Qfloor_Z.
  assert (inject_Z m - inject_Z m == 0) as E by ring.
  by rewrite (Qcompare_comp _ _ E _ _ (Qeq_refl (1 # 2))).
Qed.

(** An integer below 2^53 is a float: converting it does not round. *)
Lemma fl_int (n : Z) : (0 <= n < 2 ^ 53)%Z -> fl (inject_Z n) == inject_Z n.
Proof.
  intros [H0 H53]. unfold fl.
  destruct (Qcompare (inject_Z n) 0) eqn:C.
  - apply Qeq_alt in C. by rewrite C.
  - apply Qlt_alt in C. change 0 with (inject_Z 0) in C.
    rewrite <- Zlt_Qlt in C. lia.
  - apply Qgt_alt in C.
    assert (0 < inject_Z n) as Hx by done.
    pose proof (ilog2_lower _ Hx) as Hlo. pose proof (ilog2_upper _ Hx) as Hhi.
    set (e := ilog2 (inject_Z n)) in *.
    assert (inject_Z n < pow2 53) as Hn.
    { rewrite (pow2_Z 53) by lia. by rewrite <- Zlt_Qlt. }
    assert (1 <= inject_Z n) as Hn1.
    { change 1 with (inject_Z 1). rewrite <- Zle_Qle.
      change 0 with (inject_Z 0) in Hx. rewrite <- Zlt_Qlt in Hx. lia. }
    assert (e < 53)%Z as He53.
    { destruct (Z.lt_ge_cases e 53) as [|Hge]; [done|].
      pose proof (pow2_le 53 e Hge). lra. }
    assert (0 <= e)%Z as He0.
    { destruct (Z.lt_ge_cases e 0) as [Hlt|]; [|done].
      pose proof (pow2_le (e + 1) 0 ltac:(lia)) as H.
      change (pow2 0) with 1 in H. lra. }
    unfold fl_pos. fold e.
    rewrite Z.max_l by lia.
    assert (inject_Z n / pow2 (e - 52) == inject_Z (n * 2 ^ (52 - e))) as Ey.
    { rewrite inject_Z_mult, <- (pow2_Z (52 - e)) by lia.
      replace (e - 52)%Z with (- (52 - e))%Z by lia.
      unfold pow2. rewrite Qpower_opp. field.
      intros E0. pose proof (pow2_pos (52 - e)) as Hp. unfold pow2 in Hp.
      rewrite E0 in Hp. by apply Qlt_irrefl in Hp. }
    rewrite (rne_comp _ _ Ey), rne_int, inject_Z_mult.
    rewrite <- (pow2_Z (52 - e)) by lia.
    rewrite <- Qmult_assoc, <- pow2_plus.
    replace (52 - e + (e - 52))%Z with 0%Z by lia.
    change (pow2 0) with 1. ring.
Qed.

End PyFloat.

(* ===================================================================== *)
(** * train_devSplit.py                                                   *)
(* ===================================================================== *)
Module TrainDevSplit.
Import Py.

(** One record of the JSONL input: [item["english"]] and [item["hindi"]]. *)
Record pair := { english : pystr; hindi : pystr }.

Definition NEWLINE : pystr := [10%N].

(** [dev_ratio = 0.1] *)
Definition DEV_RATIO : Q := PyFloat.fl (1 # 10).

(** Where the slices [data[:k]] and [data[k:]] cut a list of [len] items: a
    negative [k] counts from the end, and the cut stays within the list. *)
Definition slice_bound (k : Z) (len : nat) : nat :=
  if (k <? 0)%Z then Z.to_nat (k + Z.of_nat len)
  else Z.to_nat (Z.min k (Z.of_nat len)).

Definition slice_to {A} (k : Z) (l : list A) : list A :=
  firstn (slice_bound k (length l)) l.

Definition slice_from {A} (k : Z) (l : list A) : list A :=
  skipn (slice_bound k (length l)) l.

(** [split_idx = int(len(data) * (1 - dev_ratio))] *)
Definition split_idx (len : nat) (dev_ratio : Q) : Z :=
  PyFloat.to_int
    (PyFloat.mul (PyFloat.of_int (Z.of_nat len)) (PyFloat.sub 1 dev_ratio)).

(** [train_data = data[:split_idx]] and [dev_data = data[split_idx:]], on
    the shuffled list. *)
Definition train_data (shuffled : list pair) (dev_ratio : Q) : list pair :=
  slice_to (split_idx (length shuffled) dev_ratio) shuffled.

Definition dev_data (shuffled : list pair) (dev_ratio : Q) : list pair :=
  slice_from (split_idx (length shuffled) dev_ratio) shuffled.

(** What one of the four loops writes to its file:
    [f.write(item[field] + "\n")] for each item. *)
Definition written (field : pair -> pystr) (items : list pair) : pystr :=
  flat_map (fun item => field item ++ NEWLINE) items.

(** The lines of a text file: the pieces between line feeds; the text after
    the last line feed, empty here, is no line. *)
Definition lines (text : pystr) : list pystr :=
  removelast (split NEWLINE text).

(** The four files of the script, for a given outcome of [random.shuffle]. *)
Record files := {
  train_eng : pystr; train_hin : pystr;
  dev_eng : pystr; dev_hin : pystr;
}.

Definition split_script (shuffle : list pair -> list pair) (data : list pair)
    (dev_ratio : Q) : files :=
  let data := shuffle data in
  {| train_eng := written english (train_data data dev_ratio);
     train_hin := written hindi (train_data data dev_ratio);
     dev_eng := written english (dev_data data dev_ratio);
     dev_hin := written hindi (dev_data data dev_ratio) |}.

(** ** The two slices *)

Lemma slices_partition {A} (k : Z) (l : list A) :
  slice_to k l ++ slice_from k l = l.
Proof. apply firstn_skipn. Qed.

Lemma slice_bound_le (k : Z) (len : nat) : slice_bound k len <= len.
Proof. unfold slice_bound. destruct (Z.ltb_spec k 0); lia. Qed.

Lemma slice_from_length {A} (k : Z) (l : list A) :
  (0 <= k)%Z ->
  Z.of_nat (length (slice_from k l))
  = (Z.of_nat (length l) - Z.min k (Z.of_nat (length l)))%Z.
Proof.
  intros Hk. unfold slice_from, slice_bound.
  destruct (Z.ltb_spec k 0); [lia|]. rewrite length_skipn. lia.
Qed.

(** ** One line per record *)

Lemma split_written (texts : list pystr) :
  Forall (fun t => 10%N ∉ t) texts ->
  split NEWLINE (flat_map (fun t => t ++ NEWLINE) texts) = texts ++ [[]].
Proof.
  induction 1 as [|t texts Ht _ IH]; [done|].
  cbn [flat_map app]. unfold NEWLINE in *. rewrite <- app_assoc. cbn [app].
  rewrite split_unfold by done. rewrite partition_char_app by done.
  by rewrite IH.
Qed.

Lemma lines_written (field : pair -> pystr) (items : list pair) :
  Forall (fun item => 10%N ∉ field item) items ->
  lines (written field items) = map field items.
Proof.
  intros H. unfold lines, written.
  replace (flat_map (fun item => field item ++ NEWLINE) items)
    with (flat_map (fun t => t ++ NEWLINE) (map field items)).
  - rewrite split_written; [apply removelast_last|].
    apply Forall_forall. intros t [item [<- Hi]]%list_elem_of_In%in_map_iff.
    rewrite Forall_forall in H. by apply H, list_elem_of_In.
  - clear. induction items as [|item items IH]; [done|]. simpl. by rewrite IH.
Qed.

(** ** The size of the dev set *)

Section DevSize.
Local Open Scope Q_scope.

(** Twice four times the unit roundoff: the share of [len(data)] by which
    the two roundings of the product may move it. *)
Definition SLACK : Q := 1 # 1125899906842624.

Lemma u_value : PyFloat.u == 1 # 9007199254740992.
Proof. reflexivity. Qed.

Lemma tiny_small : 0 < PyFloat.tiny /\ PyFloat.tiny <= 1 # 9007199254740992.
Proof.
  split; [apply PyFloat.pow2_pos|].
  apply Qle_bool_iff. vm_compute. reflexivity.
Qed.

(** The float product [float(n) * (1.0 - r)] against the exact [n * (1 - r)]. *)
Lemma product_bound (n a : Q) :
  1 <= n -> 0 <= a <= 1 ->
  0 <= PyFloat.mul (PyFloat.fl n) (PyFloat.fl a)
  /\ n * a - n * SLACK <= PyFloat.mul (PyFloat.fl n) (PyFloat.fl a)
     <= n * a + n * SLACK.
Proof.
  intros Hn [Ha0 Ha1]. unfold PyFloat.mul, SLACK.
  destruct tiny_small as [Ht0 Ht1].
  destruct (PyFloat.fl_error n ltac:(lra)) as (Hnf0 & Hnf1 & Hnf2).
  destruct (PyFloat.fl_error a Ha0) as (Hc0 & Hc1 & Hc2).
  rewrite u_value in Hnf1, Hnf2, Hc1, Hc2.
  set (nf := PyFloat.fl n) in *. set (c := PyFloat.fl a) in *.
  set (t := PyFloat.tiny) in *.
  assert (0 <= nf * c) as Hp0 by nra.
  destruct (PyFloat.fl_error (nf * c) Hp0) as (Hy0 & Hy1 & Hy2).
  rewrite u_value in Hy1, Hy2. fold t in Hy1, Hy2.
  set (y := PyFloat.fl (nf * c)) in *.
  assert (nf <= n + n * (2 # 9007199254740992)) as Hnf_hi by lra.
  assert (n - n * (2 # 9007199254740992) <= nf) as Hnf_lo by lra.
  assert (c <= a + (2 # 9007199254740992)) as Hc_hi by lra.
  assert (a - (2 # 9007199254740992) <= c) as Hc_lo by lra.
  assert (nf * c <= n * a + n * (5 # 9007199254740992)) as Hp_hi.
  { assert (nf * c <= (n + n * (2 # 9007199254740992))
                      * (a + (2 # 9007199254740992))) as H.
    { apply Qmult_le_compat_nonneg; split; lra. }
    nra. }
  split; [done|]. split.
  - destruct (Qlt_le_dec a (2 # 9007199254740992)) as [Hsmall|Hbig].
    + nra.
    + assert ((n - n * (2 # 9007199254740992)) * (a - (2 # 9007199254740992))
              <= nf * c) as H.
      { apply Qmult_le_compat_nonneg; split; lra. }
      nra.
  - nra.
Qed.

End DevSize.

Section DevSizeBound.
Local Open Scope Q_scope.

Lemma split_idx_floor (len : nat) (r : Q) :
  (1 <= len)%nat -> 0 <= r <= 1 ->
  exists y,
    split_idx len r = Qfloor y /\ 0 <= y
    /\ inject_Z (Z.of_nat len) * (1 - r) - inject_Z (Z.of_nat len) * SLACK <= y
       <= inject_Z (Z.of_nat len) * (1 - r) + inject_Z (Z.of_nat len) * SLACK.
Proof.
  intros Hlen [Hr0 Hr1].
  assert (1 <= inject_Z (Z.of_nat len)) as Hn.
  { change 1 with (inject_Z 1). rewrite <- Zle_Qle. lia. }
  destruct (product_bound (inject_Z (Z.of_nat len)) (1 - r) Hn ltac:(lra))
    as (Hy0 & Hy).
  eexists. split; [|split; [exact Hy0|exact Hy]].
  unfold split_idx, PyFloat.to_int, PyFloat.of_int, PyFloat.sub.
  by rewrite (proj2 (Qle_bool_iff _ _) Hy0).
Qed.

(** [len(dev)] against the exact [N * r]. *)
Lemma dev_size_bound (shuffled : list pair) (r : Q) :
  0 <= r <= 1 ->
  inject_Z (Z.of_nat (length shuffled)) * r
    - inject_Z (Z.of_nat (length shuffled)) * SLACK
  <= inject_Z (Z.of_nat (length (dev_data shuffled r)))
  <= inject_Z (Z.of_nat (length shuffled)) * r + 1
     + inject_Z (Z.of_nat (length shuffled)) * SLACK.
Proof.
  intros Hr. destruct shuffled as [|item rest].
  - unfold dev_data, slice_from. rewrite skipn_nil.
    change (inject_Z (Z.of_nat (length []))) with 0. lra.
  - set (l := item :: rest).
    destruct (split_idx_floor (length l) r) as (y & Hidx & Hy0 & Hlo & Hhi);
      [simpl; lia|done|].
    pose proof (Qfloor_le y) as Hfl. pose proof (Qlt_floor y) as Hfu.
    rewrite inject_Z_plus in Hfu. change (inject_Z 1) with 1 in Hfu.
    assert (0 <= Qfloor y)%Z as Hk.
    { pose proof (Qfloor_resp_le 0 y Hy0) as H. by change (Qfloor 0) with 0%Z in H. }
    unfold dev_data. rewrite Hidx, (slice_from_length _ _ Hk).
    set (n := Z.of_nat (length l)) in *.
    assert (0 <= inject_Z n) as Hn0.
    { change 0 with (inject_Z 0). rewrite <- Zle_Qle. lia. }
    assert (0 <= inject_Z n * SLACK) as Hs by (unfold SLACK; nra).
    destruct (Z.min_spec (Qfloor y) n) as [[Hlt ->]|[Hge ->]].
    + unfold Zminus. rewrite inject_Z_plus, inject_Z_opp. lra.
    + replace (n - n)%Z with 0%Z by lia. change (inject_Z 0) with 0.
      assert (inject_Z n <= inject_Z (Qfloor y)) as Hq by (by rewrite <- Zle_Qle).
      destruct Hr as [Hr0 Hr1]. split; [|nra].
      destruct (Z.eq_dec (Qfloor y) n) as [Heq|Hne].
      * rewrite Heq in Hfl. lra.
      * assert (inject_Z n + 1 <= inject_Z (Qfloor y)) as Hq'.
        { change 1 with (inject_Z 1). rewrite <- inject_Z_plus, <- Zle_Qle. lia. }
        lra.
Qed.

(** For fewer than 2^49 records the slack is below one half: [len(dev)] is an
    integer nearest to [N * r], or the next one. *)
Lemma dev_size_rounded (shuffled : list pair) (r : Q) (k : Z) :
  0 <= r <= 1 ->
  (Z.of_nat (length shuffled) < 2 ^ 49)%Z ->
  inject_Z k - (1 # 2) <= inject_Z (Z.of_nat (length shuffled)) * r
    <= inject_Z k + (1 # 2) ->
  Z.of_nat (length (dev_data shuffled r)) = k
  \/ Z.of_nat (length (dev_data shuffled r)) = (k + 1)%Z.
Proof.
  intros Hr Hsmall [Hk1 Hk2].
  pose proof (dev_size_bound shuffled r Hr) as [Hlo Hhi].
  set (n := Z.of_nat (length shuffled)) in *.
  set (d := Z.of_nat (length (dev_data shuffled r))) in *.
  assert (inject_Z n * SLACK < 1 # 2) as Hs.
  { assert (inject_Z n < inject_Z (2 ^ 49)) as H by (by rewrite <- Zlt_Qlt).
    change (inject_Z (2 ^ 49)) with (562949953421312 # 1) in H.
    unfold SLACK. lra. }
  assert (inject_Z (k - 1) < inject_Z d) as H1.
  { replace (k - 1)%Z with (k + -1)%Z by lia.
    rewrite inject_Z_plus. change (inject_Z (-1)) with (-1). lra. }
  assert (inject_Z d < inject_Z (k + 2)) as H2.
  { rewrite inject_Z_plus. change (inject_Z 2) with 2. lra. }
  rewrite <- Zlt_Qlt in H1, H2. lia.
Qed.

End DevSizeBound.

(** C8 (amended). For a dev ratio [r] between 0 and 1 and records whose
    texts hold no line feed: the train and dev sets together are the input
    records (so their sizes add up to [N]); [len(dev)] lies within
    [1 + N / 2^50] of [N * r], and for [N < 2^49] it is an integer nearest to
    [N * r] or the one above; and line [i] of each source file and line [i]
    of its target file are the two texts of the same record, in the train and
    in the dev pair of files. *)
Theorem train_dev_split (shuffle : list pair -> list pair) (data : list pair)
    (r : Q) :
  (forall l, Permutation l (shuffle l)) ->
  (0 <= r <= 1)%Q ->
  Forall (fun item => 10%N ∉ english item /\ 10%N ∉ hindi item) data ->
  (length (train_data (shuffle data) r) + length (dev_data (shuffle data) r)
   = length data)%nat
  /\ Permutation (train_data (shuffle data) r ++ dev_data (shuffle data) r) data
  /\ (inject_Z (Z.of_nat (length data)) * r
        - inject_Z (Z.of_nat (length data)) * SLACK
      <= inject_Z (Z.of_nat (length (dev_data (shuffle data) r)))
      <= inject_Z (Z.of_nat (length data)) * r + 1
         + inject_Z (Z.of_nat (length data)) * SLACK)%Q
  /\ ((Z.of_nat (length data) < 2 ^ 49)%Z ->
      forall k : Z,
        (inject_Z k - (1 # 2) <= inject_Z (Z.of_nat (length data)) * r
         <= inject_Z k + (1 # 2))%Q ->
        Z.of_nat (length (dev_data (shuffle data) r)) = k
        \/ Z.of_nat (length (dev_data (shuffle data) r)) = (k + 1)%Z)
  /\ (lines (train_eng (split_script shuffle data r))
      = map english (train_data (shuffle data) r)
      /\ lines (train_hin (split_script shuffle data r))
         = map hindi (train_data (shuffle data) r)
      /\ lines (dev_eng (split_script shuffle data r))
         = map english (dev_data (shuffle data) r)
      /\ lines (dev_hin (split_script shuffle data r))
         = map hindi (dev_data (shuffle data) r)).
Proof.
  intros Hshuffle Hr Hclean.
  pose proof (Hshuffle data) as Hperm.
  pose proof (Permutation_length Hperm) as Hlen.
  pose proof (slices_partition (split_idx (length (shuffle data)) r)
                (shuffle data)) as Hparts.
  fold (train_data (shuffle data) r) in Hparts.
  fold (dev_data (shuffle data) r) in Hparts.
  assert (Forall (fun item => 10%N ∉ english item /\ 10%N ∉ hindi item)
            (train_data (shuffle data) r ++ dev_data (shuffle data) r))
    as [Htrain Hdev]%Forall_app.
  { rewrite Hparts. by rewrite <- Hperm. }
  repeat apply conj.
  - rewrite <- length_app, Hparts. by rewrite <- Hlen.
  - rewrite Hparts. by symmetry.
  - rewrite Hlen. apply dev_size_bound, Hr.
  - rewrite Hlen. apply dev_size_bound, Hr.
  - rewrite Hlen. intros Hsmall k Hk. by apply dev_size_rounded.
  - apply lines_written. eapply Forall_impl; [exact Htrain|]. by intros item [? _].
  - apply lines_written. eapply Forall_impl; [exact Htrain|]. by intros item [_ ?].
  - apply lines_written. eapply Forall_impl; [exact Hdev|]. by intros item [? _].
  - apply lines_written. eapply Forall_impl; [exact Hdev|]. by intros item [_ ?].
Qed.

(** Three records, a shuffle that reverses the list, and the default ratio. *)
Definition sample_data : list pair :=
  [ {| english := lit "one"; hindi := [2319; 2325]%N |};
    {| english := lit "two"; hindi := [2342; 2379]%N |};
    {| english := lit "three"; hindi := [2340; 2368; 2344]%N |} ].

Lemma train_dev_split_witness :
  lines (train_eng (split_script (@rev pair) sample_data DEV_RATIO))
  = [lit "three"; lit "two"]
  /\ lines (train_hin (split_script (@rev pair) sample_data DEV_RATIO))
     = [[2340; 2368; 2344]%N; [2342; 2379]%N]
  /\ lines (dev_eng (split_script (@rev pair) sample_data DEV_RATIO))
     = [lit "one"]
  /\ lines (dev_hin (split_script (@rev pair) sample_data DEV_RATIO))
     = [[2319; 2325]%N].
Proof.
  assert (forall l : list pair, Permutation l (rev l)) as Hrev
    by (intros l; apply Permutation_rev).
  assert (0 <= DEV_RATIO <= 1)%Q as Hr.
  { split; apply Qle_bool_iff; vm_compute; reflexivity. }
  assert (Forall (fun item => 10%N ∉ english item /\ 10%N ∉ hindi item)
            sample_data) as Hclean.
  { repeat constructor; vm_compute;
      intros H; repeat (apply elem_of_cons in H as [H|H]; [discriminate|]);
      inversion H. }
  destruct (train_dev_split (@rev pair) sample_data DEV_RATIO Hrev Hr Hclean)
    as (_ & _ & _ & _ & -> & -> & -> & ->).
  vm_compute. repeat split.
Defined.

(** A record whose English text runs over two lines, and a ratio that is no
    ratio. *)
Definition broken_data : list pair :=
  [ {| english := lit "a" ++ NEWLINE ++ lit "b"; hindi := lit "x" |};
    {| english := lit "c"; hindi := lit "y" |};
    {| english := lit "d"; hindi := lit "z" |} ].

(** C8 (as stated) fails.  With the records left in their order by the
    shuffle, the English train file has the lines a, b, c and the Hindi one the
    lines x, y: line 1 is "b" of the first record on one side and "y" of the
    second on the other.  And with a ratio of 2 the dev set holds all 3
    records, where [N * r] is 6. *)
Lemma split_claim_fails :
  (lines (train_eng (split_script (fun l => l) broken_data DEV_RATIO))
   = [lit "a"; lit "b"; lit "c"]
   /\ lines (train_hin (split_script (fun l => l) broken_data DEV_RATIO))
      = [lit "x"; lit "y"]
   /\ map english (train_data broken_data DEV_RATIO)
      = [lit "a" ++ NEWLINE ++ lit "b"; lit "c"])
  /\ length (dev_data broken_data 2) = 3.
Proof. vm_compute. repeat split. Qed.

(** ** The default ratio on small data sets *)

Lemma default_ratio_bounds : (9 # 100 <= DEV_RATIO <= 11 # 100)%Q.
Proof. split; apply Qle_bool_iff; vm_compute; reflexivity. Qed.

Lemma train_dev_lengths (shuffled : list pair) (r : Q) :
  length (train_data shuffled r) + length (dev_data shuffled r)
  = length shuffled.
Proof.
  unfold train_data, dev_data. rewrite <- length_app. by rewrite slices_partition.
Qed.

(** With the default ratio of 0.1, every data set that is not empty gives a
    dev set that is not empty, and every data set of two records or more a
    train set that is not empty; a single record goes to the dev set and the
    train files stay empty. *)
Theorem default_ratio_small_sets (shuffled : list pair) :
  (1 <= length shuffled -> 1 <= length (dev_data shuffled DEV_RATIO))
  /\ (2 <= length shuffled -> 1 <= length (train_data shuffled DEV_RATIO))
  /\ (length shuffled = 1 ->
      train_data shuffled DEV_RATIO = []
      /\ dev_data shuffled DEV_RATIO = shuffled).
Proof.
  destruct default_ratio_bounds as [Hlo Hhi].
  assert (0 <= DEV_RATIO <= 1)%Q as Hr by (split; lra).
  pose proof (dev_size_bound shuffled DEV_RATIO Hr) as [Hdlo Hdhi].
  pose proof (train_dev_lengths shuffled DEV_RATIO) as Hsum.
  set (n := length shuffled) in *.
  set (d := length (dev_data shuffled DEV_RATIO)) in *.
  set (t := length (train_data shuffled DEV_RATIO)) in *.
  unfold SLACK in *.
  split; [|split].
  - intros Hn.
    assert (1 <= inject_Z (Z.of_nat n))%Q as Hq.
    { change 1%Q with (inject_Z 1). rewrite <- Zle_Qle. lia. }
    assert (0 < inject_Z (Z.of_nat d))%Q as Hd by nra.
    change 0%Q with (inject_Z 0) in Hd. rewrite <- Zlt_Qlt in Hd. lia.
  - intros Hn.
    assert (2 <= inject_Z (Z.of_nat n))%Q as Hq.
    { change 2%Q with (inject_Z 2). rewrite <- Zle_Qle. lia. }
    assert (inject_Z (Z.of_nat d) < inject_Z (Z.of_nat n))%Q as Hd by nra.
    rewrite <- Zlt_Qlt in Hd. lia.
  - intros Hn. subst n t d. unfold train_data, dev_data.
    rewrite Hn.
    replace (split_idx 1 DEV_RATIO) with 0%Z by (vm_compute; reflexivity).
    unfold slice_to, slice_from. by rewrite Hn.
Qed.

Lemma default_ratio_small_sets_witness :
  length (dev_data sample_data DEV_RATIO) >= 1
  /\ length (train_data sample_data DEV_RATIO) >= 1.
Proof.
  destruct (default_ratio_small_sets sample_data) as (Hdev & Htrain & _).
  split; [apply Hdev|apply Htrain]; cbn; lia.
Defined.

(** ** The ratio at its ends *)

Section RatioEnds.
Local Open Scope Q_scope.

Lemma split_idx_all_dev (len : nat) : split_idx len 1 = 0%Z.
Proof.
  unfold split_idx, PyFloat.mul, PyFloat.sub.
  change (PyFloat.fl (1 - 1)) with 0.
  assert (PyFloat.of_int (Z.of_nat len) * 0 == 0) as E by ring.
  by rewrite (PyFloat.fl_comp _ _ E).
Qed.

Lemma split_idx_all_train (len : nat) :
  (Z.of_nat len < 2 ^ 53)%Z -> split_idx len 0 = Z.of_nat len.
Proof.
  intros Hlen. unfold split_idx, PyFloat.mul, PyFloat.sub, PyFloat.of_int.
  pose proof (PyFloat.fl_int (Z.of_nat len) ltac:(lia)) as En.
  assert (PyFloat.fl (1 - 0) == 1) as E1.
  { assert (1 - 0 == inject_Z 1) as E by ring.
    rewrite (PyFloat.fl_comp _ _ E). by apply (PyFloat.fl_int 1). }
  assert (PyFloat.fl (inject_Z (Z.of_nat len)) * PyFloat.fl (1 - 0)
          == inject_Z (Z.of_nat len)) as E.
  { rewrite En, E1. ring. }
  rewrite (PyFloat.fl_comp _ _ E). unfold PyFloat.to_int.
  rewrite (Qleb_comp _ _ (Qeq_refl 0) _ _ En), (Qfloor_comp _ _ En), Qfloor_Z.
  assert (Qle_bool 0 (inject_Z (Z.of_nat len)) = true) as ->; [|done].
  apply Qle_bool_iff. change 0 with (inject_Z 0). rewrite <- Zle_Qle. lia.
Qed.

End RatioEnds.

(** A ratio of 1 sends every record to the dev set, and a ratio of 0 every
    record to the train set (for fewer than 2^53 records, which [float] counts
    exactly): the other set is empty and its two files hold no line. *)
Theorem ratio_ends (shuffle : list pair -> list pair) (data : list pair) :
  (train_data (shuffle data) 1 = [] /\ dev_data (shuffle data) 1 = shuffle data
   /\ train_eng (split_script shuffle data 1) = []
   /\ train_hin (split_script shuffle data 1) = [])
  /\ ((Z.of_nat (length (shuffle data)) < 2 ^ 53)%Z ->
      train_data (shuffle data) 0 = shuffle data
      /\ dev_data (shuffle data) 0 = []
      /\ dev_eng (split_script shuffle data 0) = []
      /\ dev_hin (split_script shuffle data 0) = []).
Proof.
  split.
  - assert (slice_bound 0 (length (shuffle data)) = 0%nat) as Hb.
    { unfold slice_bound. cbn [Z.ltb Z.compare]. lia. }
    assert (train_data (shuffle data) 1 = []) as Ht.
    { unfold train_data, slice_to. by rewrite split_idx_all_dev, Hb. }
    assert (dev_data (shuffle data) 1 = shuffle data) as Hd.
    { unfold dev_data, slice_from. by rewrite split_idx_all_dev, Hb. }
    unfold split_script. cbn [train_eng train_hin]. by rewrite Ht.
  - intros Hlen.
    assert (slice_bound (Z.of_nat (length (shuffle data)))
              (length (shuffle data)) = length (shuffle data)) as Hb.
    { unfold slice_bound. destruct (Z.ltb_spec (Z.of_nat (length (shuffle data))) 0); lia. }
    assert (train_data (shuffle data) 0 = shuffle data) as Ht.
    { unfold train_data, slice_to. rewrite split_idx_all_train, Hb by done.
      apply firstn_all. }
    assert (dev_data (shuffle data) 0 = []) as Hd.
    { unfold dev_data, slice_from. rewrite split_idx_all_train, Hb by done.
      apply skipn_all. }
    unfold split_script. cbn [dev_eng dev_hin]. by rewrite Hd.
Qed.

Lemma ratio_ends_witness :
  train_data (rev sample_data) 0 = rev sample_data
  /\ dev_data (rev sample_data) 0 = [].
Proof.
  destruct (proj2 (ratio_ends (@rev pair) sample_data)) as (Ht & Hd & _).
  - cbn. lia.
  - by split.
Defined.

End TrainDevSplit.

(* ===================================================================== *)
(** * genPairs.py                                                         *)
(* ===================================================================== *)
Module GenPairs.
Import Py.

(** ** The pattern [([^\t]+)\t([^\t]+)\t([0-9\.]+)] *)

(** [[^\t]]: any character but the tab, line feeds included. *)
Definition non_tab (c : char) : bool := negb (c =? 9)%N.

(** [[0-9\.]] *)
Definition is_digit (c : char) : bool := ((48 <=? c) && (c <=? 57))%N.
Definition score_char (c : char) : bool := is_digit c || (c =? 46)%N.

(** The longest prefix made of characters of a class, and what follows. *)
Fixpoint span (p : char -> bool) (s : pystr) : pystr * pystr :=
  match s with
  | [] => ([], [])
  | c :: s' =>
      if p c then let '(a, b) := span p s' in (c :: a, b) else ([], s)
  end.

(** A match of the pattern at the start of [s]: the three groups and the
    text after the match.  Each of the first two groups is followed by a tab
    in the pattern and holds no tab, so it can only be the longest run of
    characters other than the tab, and the character after the run, if there
    is one, is the tab; the third group is greedy and nothing follows it. *)
Definition match_at (s : pystr)
  : option (pystr * pystr * pystr * pystr) :=
  let '(eng, r1) := span non_tab s in
  match eng, r1 with
  | _ :: _, _ :: r1' =>
      let '(hindi, r2) := span non_tab r1' in
      match hindi, r2 with
      | _ :: _, _ :: r2' =>
          let '(score, rest) := span score_char r2' in
          match score with
          | _ :: _ => Some (eng, hindi, score, rest)
          | [] => None
          end
      | _, _ => None
      end
  | _, _ => None
  end.

(** [re.findall(pattern, s)]: the matches from left to right, none
    overlapping another; where there is no match at a position the search
    moves on by one character.  A match is never empty, so [length s] rounds
    are enough. *)
Fixpoint findall_fuel (fuel : nat) (s : pystr)
  : list (pystr * pystr * pystr) :=
  match fuel with
  | O => []
  | S fuel' =>
      match s with
      | [] => []
      | _ :: s' =>
          match match_at s with
          | Some (eng, hindi, score, rest) =>
              (eng, hindi, score) :: findall_fuel fuel' rest
          | None => findall_fuel fuel' s'
          end
      end
  end.

Definition findall (s : pystr) : list (pystr * pystr * pystr) :=
  findall_fuel (length s) s.

(** ** [float(score)] *)

Definition digits_value (s : pystr) : Z :=
  fold_left (fun acc c => (10 * acc + (Z.of_N c - 48))%Z) s 0%Z.

(** What [float()] returns for digits: a finite float, or infinity when the
    number rounds beyond the largest float. *)
Inductive pyfloat : Type :=
  | Finite (q : Q)
  | Infinity.

Definition to_float (x : Q) : pyfloat :=
  if Qle_bool (2 ^ 1024) (PyFloat.fl x) then Infinity
  else Finite (PyFloat.fl x).

(** [float(score)] for a text of digits and full stops, which is what the
    third group holds: digits with at most one full stop among them and at
    least one digit; [None] stands for [ValueError].  The value is the decimal
    number rounded to the nearest float. *)
Definition parse_float (score : pystr) : option pyfloat :=
  let '(int_part, r) := span is_digit score in
  match r with
  | [] =>
      if truthy int_part
      then Some (to_float (inject_Z (digits_value int_part)))
      else None
  | 46%N :: frac =>
      if forallb is_digit frac && (truthy int_part || truthy frac)
      then Some (to_float
                   (inject_Z (digits_value (int_part ++ frac))
                    / inject_Z (10 ^ Z.of_nat (length frac))))
      else None
  | _ :: _ => None
  end.

(** [a > b], for [b] a finite float. *)
Definition float_gt (a : pyfloat) (b : Q) : bool :=
  match a with
  | Finite q => negb (Qle_bool q b)
  | Infinity => true
  end.

(** [threshold=0.6] *)
Definition THRESHOLD : Q := PyFloat.fl (6 # 10).

(** ** [extract_aligned_pairs] *)

(** The body of the loop over the matches. *)
Definition keep_pair (threshold : Q) (pairs : gmap (list N) (list N))
    (m : pystr * pystr * pystr) : gmap (list N) (list N) :=
  let '(eng, hindi, score) := m in
  match parse_float score with
  | Some score_val =>
      if float_gt score_val threshold
      then
        let eng_clean := strip eng in
        let hindi_clean := strip hindi in
        if truthy eng_clean && truthy hindi_clean
        then <[eng_clean := hindi_clean]> pairs
        else pairs
      else pairs
  | None => pairs
  end.

(** [text_content] is a [str] and [threshold] a finite float, so nothing
    reaches the outer handler.
    <<
    matches = re.findall(pattern, text_content)
    pairs = {}
    for eng, hindi, score in matches:
        try:
            score_val = float(score)
            if score_val > threshold:
                eng_clean = eng.strip(); hindi_clean = hindi.strip()
                if eng_clean and hindi_clean: pairs[eng_clean] = hindi_clean
        except ValueError: continue
    return pairs
    >> *)
Definition extract_aligned_pairs (text_content : pystr) (threshold : Q)
  : gmap (list N) (list N) :=
  fold_left (keep_pair threshold) (findall text_content) ∅.

(** ** The search, one round at a time *)

Lemma span_length (p : char -> bool) (s : pystr) :
  length (span p s).1 + length (span p s).2 = length s.
Proof.
  induction s as [|c s IH]; [done|]. cbn [span].
  destruct (p c); [|done]. destruct (span p s) as [a b]. cbn in *. lia.
Qed.

Lemma span_class (p : char -> bool) (s : pystr) :
  Forall (fun c => p c = true) (span p s).1.
Proof.
  induction s as [|c s IH]; [constructor|]. cbn [span].
  destruct (p c) eqn:E; [|constructor]. destruct (span p s) as [a b].
  by constructor.
Qed.

Lemma span_app (p : char -> bool) (a rest : pystr) :
  Forall (fun c => p c = true) a ->
  match rest with [] => True | c :: _ => p c = false end ->
  span p (a ++ rest) = (a, rest).
Proof.
  intros Ha Hrest. induction Ha as [|c a Hc _ IH]; cbn [app span].
  - destruct rest as [|c rest]; [done|]. cbn [span]. by rewrite Hrest.
  - by rewrite Hc, IH.
Qed.

Lemma match_at_shorter (s eng hindi score rest : pystr) :
  match_at s = Some (eng, hindi, score, rest) -> length rest < length s.
Proof.
  unfold match_at.
  pose proof (span_length non_tab s) as H1.
  destruct (span non_tab s) as [e r1]. cbn [fst snd] in H1.
  destruct e as [|c e]; [done|]. destruct r1 as [|t r1']; [done|].
  pose proof (span_length non_tab r1') as H2.
  destruct (span non_tab r1') as [h r2]. cbn [fst snd] in H2.
  destruct h as [|c2 h]; [done|]. destruct r2 as [|t2 r2']; [done|].
  pose proof (span_length score_char r2') as H3.
  destruct (span score_char r2') as [sc r3]. cbn [fst snd] in H3.
  destruct sc as [|c3 sc]; [done|]. intros [= <- <- <- <-].
  cbn [length] in *. lia.
Qed.

Lemma findall_fuel_enough (f1 f2 : nat) (s : pystr) :
  length s <= f1 -> length s <= f2 -> findall_fuel f1 s = findall_fuel f2 s.
Proof.
  revert f2 s; induction f1 as [|f1 IH]; intros f2 s H1 H2.
  - destruct s; [|simpl in H1; lia]. by destruct f2.
  - destruct f2 as [|f2]; [destruct s; [done|simpl in H2; lia]|].
    destruct s as [|c s]; [done|]. cbn [findall_fuel].
    destruct (match_at (c :: s)) as [[[[eng hindi] score] rest]|] eqn:E.
    + apply match_at_shorter in E. cbn [length] in *.
      f_equal. apply IH; lia.
    + cbn [length] in *. apply IH; lia.
Qed.

Lemma findall_unfold (s : pystr) :
  findall s
  = match s with
    | [] => []
    | _ :: s' =>
        match match_at s with
        | Some (eng, hindi, score, rest) => (eng, hindi, score) :: findall rest
        | None => findall s'
        end
    end.
Proof.
  unfold findall. destruct s as [|c s]; [done|].
  cbn [length findall_fuel].
  destruct (match_at (c :: s)) as [[[[eng hindi] score] rest]|] eqn:E.
  - f_equal. apply findall_fuel_enough; [|done].
    apply match_at_shorter in E. cbn [length] in E. lia.
  - done.
Qed.

(** Induction along the rounds of the search. *)
Lemma findall_ind (P : pystr -> list (pystr * pystr * pystr) -> Prop) :
  P [] [] ->
  (forall c s, match_at (c :: s) = None -> P s (findall s) ->
               P (c :: s) (findall s)) ->
  (forall c s eng hindi score rest,
     match_at (c :: s) = Some (eng, hindi, score, rest) ->
     P rest (findall rest) ->
     P (c :: s) ((eng, hindi, score) :: findall rest)) ->
  forall s, P s (findall s).
Proof.
  intros Hnil Hnone Hsome s.
  remember (length s) as n eqn:Hn. revert s Hn.
  induction (lt_wf n) as [n _ IH]. intros s ->.
  rewrite findall_unfold. destruct s as [|c s]; [done|].
  destruct (match_at (c :: s)) as [[[[eng hindi] score] rest]|] eqn:E.
  - apply Hsome; [done|]. eapply IH; [|reflexivity].
    by eapply match_at_shorter.
  - apply Hnone; [done|]. eapply IH; [|reflexivity]. cbn. lia.
Qed.

(** What a match holds: two groups without a tab and a score of digits and
    full stops, none of them empty. *)
Definition well_matched (m : pystr * pystr * pystr) : Prop :=
  m.1.1 <> [] /\ 9%N ∉ m.1.1 /\ m.1.2 <> [] /\ 9%N ∉ m.1.2
  /\ m.2 <> [] /\ Forall (fun c => score_char c = true) m.2.

Lemma non_tab_spec (s : pystr) :
  Forall (fun c => non_tab c = true) s <-> 9%N ∉ s.
Proof.
  rewrite Forall_forall. unfold non_tab. split.
  - intros H Hin. specialize (H _ Hin). done.
  - intros H c Hc. apply negb_true_iff, N.eqb_neq. by intros ->.
Qed.

Lemma match_at_groups (s eng hindi score rest : pystr) :
  match_at s = Some (eng, hindi, score, rest) ->
  well_matched (eng, hindi, score).
Proof.
  unfold match_at, well_matched.
  pose proof (span_class non_tab s) as H1.
  destruct (span non_tab s) as [e r1]. cbn [fst snd] in H1.
  destruct e as [|c e]; [done|]. destruct r1 as [|t r1']; [done|].
  pose proof (span_class non_tab r1') as H2.
  destruct (span non_tab r1') as [h r2]. cbn [fst snd] in H2.
  destruct h as [|c2 h]; [done|]. destruct r2 as [|t2 r2']; [done|].
  pose proof (span_class score_char r2') as H3.
  destruct (span score_char r2') as [sc r3]. cbn [fst snd] in H3.
  destruct sc as [|c3 sc]; [done|]. intros [= <- <- <- <-]. cbn [fst snd].
  by rewrite <- !non_tab_spec.
Qed.

Lemma findall_groups (s : pystr) : Forall well_matched (findall s).
Proof.
  apply (findall_ind (fun _ ms => Forall well_matched ms)); [constructor|done|].
  intros c s' eng hindi score rest E IH. constructor; [|done].
  by eapply match_at_groups.
Qed.

(** ** What the dictionary holds *)

(** An entry of the dictionary, traced back to a match. *)
Definition from_match (text : pystr) (threshold : Q) (eng hindi : pystr)
  : Prop :=
  exists m score_val,
    m ∈ findall text /\ strip m.1.1 = eng /\ strip m.1.2 = hindi
    /\ parse_float m.2 = Some score_val
    /\ float_gt score_val threshold = true.

Lemma keep_pair_lookup (threshold : Q) (pairs : gmap (list N) (list N))
    (m : pystr * pystr * pystr) (eng hindi : pystr) :
  keep_pair threshold pairs m !! eng = Some hindi ->
  pairs !! eng = Some hindi
  \/ (strip m.1.1 = eng /\ strip m.1.2 = hindi /\ eng <> [] /\ hindi <> []
      /\ exists score_val, parse_float m.2 = Some score_val
                           /\ float_gt score_val threshold = true).
Proof.
  destruct m as [[e h] sc]. unfold keep_pair. cbn [fst snd].
  destruct (parse_float sc) as [v|]; [|by left].
  destruct (float_gt v threshold) eqn:Hgt; [|by left].
  destruct (truthy (strip e)) eqn:He; [|by left].
  destruct (truthy (strip h)) eqn:Hh; [|by left]. cbn [andb].
  destruct (decide (strip e = eng)) as [<-|Hne].
  - rewrite lookup_insert_eq. intros [= <-]. right.
    repeat split; [by destruct (strip e)|by destruct (strip h)|by exists v].
  - rewrite lookup_insert_ne by done. by left.
Qed.

Lemma fold_keep_pair (threshold : Q) (ms : list (pystr * pystr * pystr))
    (pairs : gmap (list N) (list N)) (eng hindi : pystr) :
  fold_left (keep_pair threshold) ms pairs !! eng = Some hindi ->
  pairs !! eng = Some hindi
  \/ (eng <> [] /\ hindi <> []
      /\ exists m score_val,
           m ∈ ms /\ strip m.1.1 = eng /\ strip m.1.2 = hindi
           /\ parse_float m.2 = Some score_val
           /\ float_gt score_val threshold = true).
Proof.
  revert pairs; induction ms as [|m ms IH]; intros pairs; cbn [fold_left];
    [by left|].
  intros [H|(Hne & Hnh & m' & v & Hin & H)]%IH.
  - apply keep_pair_lookup in H as [H|(He & Hh & Hne & Hnh & v & Hv)];
      [by left|].
    right. split; [done|]. split; [done|]. exists m, v. set_solver.
  - right. split; [done|]. split; [done|]. exists m', v. set_solver.
Qed.

(** Every entry of the dictionary [extract_aligned_pairs] returns comes from
    a match of the pattern whose score reads as a number above the threshold;
    its key and its value are not empty, have no whitespace at either end and
    hold no tab. *)
Theorem aligned_pairs_are_clean (text : pystr) (threshold : Q)
    (eng hindi : pystr) :
  extract_aligned_pairs text threshold !! eng = Some hindi ->
  eng <> [] /\ hindi <> []
  /\ tight eng = true /\ tight hindi = true
  /\ 9%N ∉ eng /\ 9%N ∉ hindi
  /\ from_match text threshold eng hindi.
Proof.
  unfold extract_aligned_pairs.
  intros [H|(Hne & Hnh & m & v & Hin & He & Hh & Hv)]%fold_keep_pair;
    [by rewrite lookup_empty in H|].
  pose proof (findall_groups text) as Hall. rewrite Forall_forall in Hall.
  destruct (Hall m Hin) as (_ & Hte & _ & Hth & _).
  split; [done|]. split; [done|].
  split; [rewrite <- He; apply strip_tight|].
  split; [rewrite <- Hh; apply strip_tight|].
  split; [|split].
  - rewrite <- He. by intros ?%strip_chars.
  - rewrite <- Hh. by intros ?%strip_chars.
  - by exists m, v.
Qed.

(** ** Aligned text, one triple per line *)

(** A line of aligned text: the two sentences and the score, separated by
    tabs. *)
Definition line (m : pystr * pystr * pystr) : pystr :=
  m.1.1 ++ [9%N] ++ m.1.2 ++ [9%N] ++ m.2.

Lemma match_at_line (eng hindi score tail : pystr) :
  well_matched (eng, hindi, score) ->
  match tail with [] => True | c :: _ => score_char c = false end ->
  match_at (eng ++ [9%N] ++ hindi ++ [9%N] ++ score ++ tail)
  = Some (eng, hindi, score, tail).
Proof.
  intros (Hne & He%non_tab_spec & Hnh & Hh%non_tab_spec & Hns & Hs) Htail.
  cbn [fst snd] in *. unfold match_at.
  rewrite (span_app non_tab eng) by done. cbn [app].
  rewrite (span_app non_tab hindi) by done.
  rewrite (span_app score_char score) by done.
  destruct eng; [done|]. destruct hindi; [done|]. by destruct score.
Qed.

Lemma findall_lines (pre : pystr) (m : pystr * pystr * pystr)
    (rows : list (pystr * pystr * pystr)) :
  9%N ∉ pre -> Forall well_matched (m :: rows) ->
  findall (pre ++ join [10%N] (map line (m :: rows)))
  = (pre ++ m.1.1, m.1.2, m.2)
    :: map (fun r => (10%N :: r.1.1, r.1.2, r.2)) rows.
Proof.
  revert pre m; induction rows as [|r rows IH]; intros pre [[e h] sc] Hpre Hrows;
    apply Forall_cons in Hrows as [Hm Hrows]; cbn [fst snd].
  - cbn [map join]. unfold line. cbn [fst snd].
    rewrite findall_unfold.
    assert (well_matched (pre ++ e, h, sc)) as Hm'.
    { destruct Hm as (Hne & He & Hrest). cbn [fst snd] in *.
      split; [by destruct pre|]. split; [set_solver|done]. }
    pose proof (match_at_line (pre ++ e) h sc [] Hm' I) as E.
    rewrite app_nil_r, <- app_assoc in E. rewrite E.
    destruct Hm' as (Hne & _). cbn [fst] in Hne.
    by destruct (pre ++ e ++ [9%N] ++ h ++ [9%N] ++ sc) eqn:E'; [destruct pre, e|].
  - change (map line ((e, h, sc) :: r :: rows))
      with (line (e, h, sc) :: map line (r :: rows)).
    rewrite join_cons by done. unfold line at 1. cbn [fst snd].
    rewrite findall_unfold.
    assert (well_matched (pre ++ e, h, sc)) as Hm'.
    { destruct Hm as (Hne & He & Hrest). cbn [fst snd] in *.
      split; [by destruct pre|]. split; [set_solver|done]. }
    pose proof (match_at_line (pre ++ e) h sc
                  ([10%N] ++ join [10%N] (map line (r :: rows))) Hm' eq_refl) as E.
    rewrite <- !app_assoc in E. rewrite <- !app_assoc. rewrite E.
    destruct Hm' as (Hne & _). cbn [fst] in Hne.
    destruct (pre ++ e ++ _) eqn:E'; [by destruct pre, e|].
    f_equal. rewrite (IH [10%N] r) by (done || by intros [=]%list_elem_of_singleton).
    done.
Qed.

Lemma keep_pair_after_line_feed (threshold : Q)
    (pairs : gmap (list N) (list N)) (r : pystr * pystr * pystr) :
  keep_pair threshold pairs (10%N :: r.1.1, r.1.2, r.2)
  = keep_pair threshold pairs r.
Proof. by destruct r as [[e h] sc]. Qed.

(** On aligned text, one triple per line (two sentences without a tab and a
    score of digits and full stops, none of them empty, separated by tabs),
    [extract_aligned_pairs] reads every line: the dictionary is built from the
    lines in order, a line being kept when its score reads as a number above
    the threshold and both sentences hold more than whitespace, and a later
    line replacing an earlier one with the same English sentence. *)
Theorem aligned_lines_are_read (rows : list (pystr * pystr * pystr))
    (threshold : Q) :
  Forall well_matched rows ->
  extract_aligned_pairs (join [10%N] (map line rows)) threshold
  = fold_left (keep_pair threshold) rows ∅.
Proof.
  intros Hrows. unfold extract_aligned_pairs.
  destruct rows as [|m rows]; [done|].
  pose proof (findall_lines [] m rows) as H. cbn [app] in H.
  rewrite H; [|by intros ?%elem_of_nil|done].
  cbn [fold_left]. destruct m as [[e h] sc]. cbn [fst snd].
  generalize (keep_pair threshold ∅ (e, h, sc)).
  clear. induction rows as [|r rows IH]; intros pairs; [done|].
  cbn [map fold_left]. by rewrite keep_pair_after_line_feed, IH.
Qed.

(** Three aligned lines: the second scores too low, the third has the first
    one's English sentence. *)
Definition aligned_rows : list (pystr * pystr * pystr) :=
  [ (lit " Appeal allowed. ", lit "apil svikar", lit "0.87");
    (lit "No costs.", lit "koi kharch nahin", lit "0.6");
    (lit "Appeal allowed.", lit "apil manzoor", lit ".75") ].

Lemma aligned_pairs_are_clean_witness :
  let text := join [10%N] (map line aligned_rows) in
  extract_aligned_pairs text THRESHOLD !! lit "Appeal allowed."
  = Some (lit "apil manzoor")
  /\ from_match text THRESHOLD (lit "Appeal allowed.") (lit "apil manzoor").
Proof.
  intros text.
  assert (extract_aligned_pairs text THRESHOLD !! lit "Appeal allowed."
          = Some (lit "apil manzoor")) as H by (vm_compute; reflexivity).
  split; [exact H|].
  exact (proj2 (proj2 (proj2 (proj2 (proj2 (proj2
    (aligned_pairs_are_clean text THRESHOLD _ _ H))))))).
Defined.

Lemma aligned_lines_are_read_witness :
  Forall well_matched aligned_rows
  /\ extract_aligned_pairs (join [10%N] (map line aligned_rows)) THRESHOLD
     = fold_left (keep_pair THRESHOLD) aligned_rows ∅.
Proof.
  assert (Forall well_matched aligned_rows) as H.
  { repeat constructor; try done;
      try (apply non_tab_spec; repeat constructor). }
  split; [exact H|]. exact (aligned_lines_are_read aligned_rows THRESHOLD H).
Defined.

End GenPairs.
